(** * Alert / cancellation propagation simulator (project1/project1.py)

    A shallow embedding of the discrete-event engine [_run_simulation], of
    the line parser [_parse_input_lines] and of [main], followed by the
    properties of the engine: horizon exclusivity, flood-once forwarding of
    cancellations, the strict ledger query, tie-break stability of the
    scheduler and termination.

    Python integers are unbounded and are modelled by [Z]; the sequence
    counter [itertools.count()] by [nat]; the dictionaries [cfg.propagate]
    and [cancel_time] by [gmap]; a [str] by the [string] of the bytes of its
    UTF-8 encoding, read character by character where the code looks at
    characters.  The interpreter's limit on the number of digits of a
    conversion between [int] and [str] is taken to be switched off
    ([sys.set_int_max_str_digits(0)]). *)

From Stdlib Require Import ZArith Lia String Ascii Decimal DecimalString DecimalZ DecimalPos.
From stdpp Require Import gmap strings list list_numbers fin_maps.

Local Open Scope Z_scope.

(* ===================================================================== *)
(** ** Data models *)
(* ===================================================================== *)

Inductive EventKind := RAISE_ALERT | RAISE_CANCEL | RECV_ALERT | RECV_CANCEL.

(** [class Event] (a frozen dataclass). *)
Record Event := mkEvent {
  time : Z;
  kind : EventKind;
  device : Z;
  desc : string;
  src : option Z
}.

(** [class SimulationConfig]; the field [length] is [cfg_length] here. *)
Record SimulationConfig := mkConfig {
  cfg_length : Z;
  propagate : gmap Z (list (Z * Z));
  initial_events : list Event
}.

(* ===================================================================== *)
(** ** Formatting: [str(int)] and the five f-strings *)
(* ===================================================================== *)

(** [str(n)] for a Python integer: decimal digits, ["-"] in front of a
    negative number, ["0"] for zero. *)
Definition pystr (n : Z) : string := NilZero.string_of_int (Z.to_int n).

(** [f"{ev.src}"]: the field is [Optional[int]], [None] prints as ["None"]. *)
Definition pystr_opt (o : option Z) : string :=
  match o with Some n => pystr n | None => "None" end.

Definition line_sent_alert (t dev to : Z) (d : string) : string :=
  "@" +:+ pystr t +:+ ": #" +:+ pystr dev +:+ " SENT ALERT TO #" +:+ pystr to +:+ ": " +:+ d.

Definition line_sent_cancel (t dev to : Z) (d : string) : string :=
  "@" +:+ pystr t +:+ ": #" +:+ pystr dev +:+ " SENT CANCELLATION TO #" +:+ pystr to +:+ ": " +:+ d.

Definition line_recv_alert (t dev : Z) (from : option Z) (d : string) : string :=
  "@" +:+ pystr t +:+ ": #" +:+ pystr dev +:+ " RECEIVED ALERT FROM #" +:+ pystr_opt from +:+ ": " +:+ d.

Definition line_recv_cancel (t dev : Z) (from : option Z) (d : string) : string :=
  "@" +:+ pystr t +:+ ": #" +:+ pystr dev +:+ " RECEIVED CANCELLATION FROM #" +:+ pystr_opt from +:+ ": " +:+ d.

Definition line_end (h : Z) : string := "@" +:+ pystr h +:+ ": END".

(* ===================================================================== *)
(** ** The scheduler: [heapq] over [(time, seq, Event)] tuples *)
(* ===================================================================== *)

(** A queue entry is the tuple [(time, seq, ev)]. *)
Definition Entry : Type := Z * nat * Event.

Definition e_time (e : Entry) : Z := e.1.1.
Definition e_seq (e : Entry) : nat := e.1.2.
Definition e_event (e : Entry) : Event := e.2.

(** Tuple comparison, lexicographic on the first two components.  The third
    component (an [Event], which defines no ordering) is reached by Python
    only when time and sequence number are both equal, which the engine
    rules out ([seq_fresh_step] and [seq_fresh_inj] below). *)
Definition entry_lt (a b : Entry) : bool :=
  bool_decide (e_time a < e_time b)
  || (bool_decide (e_time a = e_time b) && bool_decide (e_seq a < e_seq b)%nat).

(** [heapq.heappush] and [heapq.heappop] are modelled by their contract: the
    heap is the collection of its entries, and a pop removes and returns the
    smallest one. *)
Definition heappush (h : list Entry) (e : Entry) : list Entry := h ++ [e].

Fixpoint heappop (h : list Entry) : option (Entry * list Entry) :=
  match h with
  | [] => None
  | e :: h' =>
      match heappop h' with
      | None => Some (e, [])
      | Some (m, rest) =>
          if entry_lt m e then Some (m, e :: rest) else Some (e, h')
      end
  end.

(* ===================================================================== *)
(** ** The cancellation ledger *)
(* ===================================================================== *)

(** [cancel_time.get(device, {}).get(desc)] *)
Definition ledger_get (ct : gmap Z (gmap string Z)) (dev : Z) (d : string) : option Z :=
  default ∅ (ct !! dev) !! d.

(** [cancelled_before]: [prev is not None and prev < t]. *)
Definition cancelled_before (ct : gmap Z (gmap string Z)) (dev : Z) (d : string) (t : Z) : bool :=
  match ledger_get ct dev d with
  | Some prev => bool_decide (prev < t)
  | None => false
  end.

(** [record_cancel]: [setdefault] the inner dictionary, then store [t] when
    the description is absent or [t] is smaller than the stored time. *)
Definition record_cancel (ct : gmap Z (gmap string Z)) (dev : Z) (d : string) (t : Z)
  : gmap Z (gmap string Z) :=
  let inner := default ∅ (ct !! dev) in
  let inner' :=
    match inner !! d with
    | None => <[d := t]> inner
    | Some cur => if bool_decide (t < cur) then <[d := t]> inner else inner
    end in
  <[dev := inner']> ct.

(* ===================================================================== *)
(** ** Simulation core *)
(* ===================================================================== *)

(** The local variables of [_run_simulation]. *)
Record State := mkState {
  heap : list Entry;
  seq : nat;
  cancel_time : gmap Z (gmap string Z);
  out : list string
}.

(** [heapq.heappush(heap, (t, next(seq), ev))] *)
Definition push_event (ev : Event) (t : Z) (st : State) : State :=
  mkState (heappush (heap st) (t, seq st, ev)) (S (seq st)) (cancel_time st) (out st).

(** [out.append(line)] *)
Definition emit (line : string) (st : State) : State :=
  mkState (heap st) (seq st) (cancel_time st) (out st ++ [line]).

Definition do_record (dev : Z) (d : string) (t : Z) (st : State) : State :=
  mkState (heap st) (seq st) (record_cancel (cancel_time st) dev d t) (out st).

Definition set_heap (h : list Entry) (st : State) : State :=
  mkState h (seq st) (cancel_time st) (out st).

(** The propagation loop shared by the four branches:
    [for to, delay in cfg.propagate.get(ev.device, []): out.append(...);
     heappush(heap, (t + delay, next(seq), Event(t + delay, k, to, ev.desc, src=ev.device)))]. *)
Definition fan_out (fmt : Z → Z → Z → string → string) (k : EventKind)
    (cfg : SimulationConfig) (t : Z) (ev : Event) (st : State) : State :=
  foldl (λ s '(to, delay),
           push_event (mkEvent (t + delay) k to (desc ev) (Some (device ev))) (t + delay)
             (emit (fmt t (device ev) to (desc ev)) s))
        st (default [] (propagate cfg !! device ev)).

(** The [if ev.kind == ...] chain; [continue] returns the state reached so
    far.  The final [else: raise AssertionError] has no case here because
    [EventKind] has exactly the four kinds. *)
Definition dispatch (cfg : SimulationConfig) (t : Z) (ev : Event) (st : State) : State :=
  match kind ev with
  | RAISE_ALERT =>
      if cancelled_before (cancel_time st) (device ev) (desc ev) t then st
      else fan_out line_sent_alert RECV_ALERT cfg t ev st
  | RAISE_CANCEL =>
      let st1 := do_record (device ev) (desc ev) t st in
      if cancelled_before (cancel_time st1) (device ev) (desc ev) t then st1
      else fan_out line_sent_cancel RECV_CANCEL cfg t ev st1
  | RECV_ALERT =>
      let st1 := emit (line_recv_alert t (device ev) (src ev) (desc ev)) st in
      if cancelled_before (cancel_time st1) (device ev) (desc ev) t then st1
      else fan_out line_sent_alert RECV_ALERT cfg t ev st1
  | RECV_CANCEL =>
      let st1 := emit (line_recv_cancel t (device ev) (src ev) (desc ev)) st in
      let already := cancelled_before (cancel_time st1) (device ev) (desc ev) t in
      let st2 := do_record (device ev) (desc ev) t st1 in
      if already then st2
      else fan_out line_sent_cancel RECV_CANCEL cfg t ev st2
  end.

(** One iteration of [while heap:].  [None] means the loop is left: the heap
    is empty, or the popped entry has [t >= cfg.length] ([break]). *)
Definition loop_body (cfg : SimulationConfig) (st : State) : option State :=
  match heappop (heap st) with
  | None => None
  | Some (e, h') =>
      if bool_decide (cfg_length cfg ≤ e_time e) then None
      else Some (dispatch cfg (e_time e) (e_event e) (set_heap h' st))
  end.

(** The state before the loop: every initial event pushed in order. *)
Definition init_state (cfg : SimulationConfig) : State :=
  foldl (λ s ev, push_event ev (time ev) s) (mkState [] 0%nat ∅ []) (initial_events cfg).

(** The [while] loop, bounded by [fuel] iterations; [None] when the fuel
    does not suffice. *)
Fixpoint loop (cfg : SimulationConfig) (fuel : nat) (st : State) : option State :=
  match fuel with
  | O => None
  | S fuel' =>
      match loop_body cfg st with
      | None => Some st
      | Some st' => loop cfg fuel' st'
      end
  end.

(** [_run_simulation]: the loop, then [out.append(f"@{cfg.length}: END")]. *)
Definition _run_simulation (fuel : nat) (cfg : SimulationConfig) : option (list string) :=
  match loop cfg fuel (init_state cfg) with
  | None => None
  | Some st => Some (out st ++ [line_end (cfg_length cfg)])
  end.

(* ===================================================================== *)
(** ** I/O: [_parse_input_lines] and [main] *)
(* ===================================================================== *)

(** The exceptions the parser can raise. *)
Inductive PyError :=
  | ValueError_unknown_line (line : string)  (* [ValueError(f"Unknown line: {line}")] *)
  | ValueError_missing_length                (* [ValueError("Missing LENGTH")] *)
  | ValueError_int (literal : string)        (* raised by [int(...)] *)
  | IndexError.                              (* raised by [parts[i]] *)

(** *** Characters

    A Python [str] is a sequence of Unicode code points.  It is represented
    by its UTF-8 encoding, a [string] of bytes: this is what [read_text]
    finds in the file, and what a string literal of this development
    denotes.  The methods of [str] the parser calls work on characters, so
    they go through [chars]. *)

Definition byte (c : ascii) : Z := Z.of_N (N_of_ascii c).

(** A continuation byte, [0x80 .. 0xBF], and the six bits it carries. *)
Definition is_cont (c : ascii) : bool := bool_decide (128 ≤ byte c < 192).

Definition cont_bits (c : ascii) : Z := byte c - 128.

(** A character: its code point and its encoding.  A byte that begins no
    well-formed UTF-8 sequence (a stray continuation byte, an overlong or
    truncated sequence, a surrogate, a value above [0x10FFFF]) is a
    character without code point. *)
Record Char := mkChar {
  code : option Z;
  encoding : string
}.

Definition char1 (b0 : ascii) (cp : option Z) : Char :=
  mkChar cp (String b0 EmptyString).

Definition char2 (b0 b1 : ascii) : option Char :=
  let cp := (byte b0 - 192) * 64 + cont_bits b1 in
  if is_cont b1 then Some (mkChar (Some cp) (String b0 (String b1 EmptyString))) else None.

Definition char3 (b0 b1 b2 : ascii) : option Char :=
  let cp := (byte b0 - 224) * 4096 + cont_bits b1 * 64 + cont_bits b2 in
  if is_cont b1 && is_cont b2 && bool_decide (2048 ≤ cp)
     && negb (bool_decide (55296 ≤ cp < 57344))
  then Some (mkChar (Some cp) (String b0 (String b1 (String b2 EmptyString))))
  else None.

Definition char4 (b0 b1 b2 b3 : ascii) : option Char :=
  let cp := (byte b0 - 240) * 262144 + cont_bits b1 * 4096 + cont_bits b2 * 64 + cont_bits b3 in
  if is_cont b1 && is_cont b2 && is_cont b3 && bool_decide (65536 ≤ cp < 1114112)
  then Some (mkChar (Some cp) (String b0 (String b1 (String b2 (String b3 EmptyString)))))
  else None.

(** The characters of a string, in order. *)
Fixpoint chars (s : string) : list Char :=
  match s with
  | EmptyString => []
  | String b0 r0 =>
      if bool_decide (byte b0 < 128) then char1 b0 (Some (byte b0)) :: chars r0
      else if bool_decide (byte b0 < 194) then char1 b0 None :: chars r0
      else if bool_decide (byte b0 < 224) then
        match r0 with
        | String b1 r1 =>
            match char2 b0 b1 with
            | Some c => c :: chars r1
            | None => char1 b0 None :: chars r0
            end
        | _ => char1 b0 None :: chars r0
        end
      else if bool_decide (byte b0 < 240) then
        match r0 with
        | String b1 (String b2 r2) =>
            match char3 b0 b1 b2 with
            | Some c => c :: chars r2
            | None => char1 b0 None :: chars r0
            end
        | _ => char1 b0 None :: chars r0
        end
      else if bool_decide (byte b0 < 245) then
        match r0 with
        | String b1 (String b2 (String b3 r3)) =>
            match char4 b0 b1 b2 b3 with
            | Some c => c :: chars r3
            | None => char1 b0 None :: chars r0
            end
        | _ => char1 b0 None :: chars r0
        end
      else char1 b0 None :: chars r0
  end.

(** The string made of the given characters. *)
Definition unchars (cs : list Char) : string :=
  foldr (λ c acc, encoding c +:+ acc) EmptyString cs.

(** A property of code points, asked of a character. *)
Definition char_in (p : Z → bool) (c : Char) : bool :=
  match code c with Some cp => p cp | None => false end.

(** [str.isspace] on one character: TAB, LF, VT, FF, CR, FS, GS, RS, US,
    the space, U+0085, U+00A0, U+1680, U+2000 .. U+200A, U+2028, U+2029,
    U+202F, U+205F and U+3000. *)
Definition is_space (cp : Z) : bool :=
  bool_decide (9 ≤ cp ≤ 13) || bool_decide (28 ≤ cp ≤ 32)
  || bool_decide (cp = 133) || bool_decide (cp = 160) || bool_decide (cp = 5760)
  || bool_decide (8192 ≤ cp ≤ 8202) || bool_decide (cp = 8232) || bool_decide (cp = 8233)
  || bool_decide (cp = 8239) || bool_decide (cp = 8287) || bool_decide (cp = 12288).

Fixpoint lstrip (cs : list Char) : list Char :=
  match cs with
  | c :: r => if char_in is_space c then lstrip r else cs
  | [] => []
  end.

Definition rstrip (cs : list Char) : list Char := reverse (lstrip (reverse cs)).

(** [raw.strip()] *)
Definition strip (s : string) : string := unchars (rstrip (lstrip (chars s))).

(** [line.split()]: the maximal runs of characters that are not spaces. *)
Fixpoint split_go (cur : option string) (cs : list Char) : list string :=
  match cs with
  | [] => match cur with Some w => [w] | None => [] end
  | c :: r =>
      if char_in is_space c then
        match cur with Some w => w :: split_go None r | None => split_go None r end
      else split_go (Some (default EmptyString cur +:+ encoding c)) r
  end.

Definition split (s : string) : list string := split_go None (chars s).

(** [line.startswith("#")] *)
Definition starts_with_hash (s : string) : bool :=
  match s with String c _ => Ascii.eqb c "#" | EmptyString => false end.

(** *** [int(s)]

    [int] accepts, in base 10: white space around the literal, one sign,
    and decimal digits of any script with single underscores between
    them. *)

(** The code points of the digits zero of Unicode 14.0 (the character
    database of CPython 3.11); the nine code points after each are the
    digits one to nine of the same script. *)
Definition decimal_zeros : list Z :=
  [ 48; 1632; 1776; 1984; 2406; 2534; 2662; 2790; 2918; 3046; 3174; 3302; 3430; 3558;
    3664; 3792; 3872; 4160; 4240; 6112; 6160; 6470; 6608; 6784; 6800; 6992; 7088; 7232;
    7248; 42528; 43216; 43264; 43472; 43504; 43600; 44016; 65296; 66720; 68912; 69734;
    69872; 69942; 70096; 70384; 70736; 70864; 71248; 71360; 71472; 71904; 72016; 72784;
    73040; 73120; 92768; 92864; 93008; 120782; 120792; 120802; 120812; 120822; 123200;
    123632; 125264; 130032 ].

(** The value of a decimal digit. *)
Definition digit_val (cp : Z) : option Z :=
  match filter (λ z, bool_decide (z ≤ cp < z + 10)) decimal_zeros with
  | z :: _ => Some (cp - z)
  | [] => None
  end.

(** What a character is to [int]: the interpreter first rewrites every
    character above U+007F to a space when it is white space, to an ASCII
    digit when it is a decimal digit, and to a character that ends the
    literal otherwise; of the 7-bit characters only TAB, LF, VT, FF, CR and
    the space are skipped as white space. *)
Inductive IntChar := IDigit (v : Z) | ISpace | ISign (negative : bool) | IUnderscore | IOther.

Definition int_char (c : Char) : IntChar :=
  match code c with
  | None => IOther
  | Some cp =>
      if bool_decide (cp < 128) then
        if bool_decide (9 ≤ cp ≤ 13) || bool_decide (cp = 32) then ISpace
        else if bool_decide (cp = 43) then ISign false
        else if bool_decide (cp = 45) then ISign true
        else if bool_decide (cp = 95) then IUnderscore
        else match digit_val cp with Some v => IDigit v | None => IOther end
      else if is_space cp then ISpace
      else match digit_val cp with Some v => IDigit v | None => IOther end
  end.

Definition is_ISpace (c : IntChar) : bool :=
  match c with ISpace => true | _ => false end.

(** The digits of the literal and what follows them: single underscores are
    allowed between digits, and only white space may follow. *)
Fixpoint digits_val (acc : Z) (after_digit : bool) (cs : list IntChar) : option Z :=
  match cs with
  | [] => if after_digit then Some acc else None
  | IDigit v :: r => digits_val (10 * acc + v) true r
  | IUnderscore :: r => if after_digit then digits_val acc false r else None
  | ISpace :: r => if after_digit && forallb is_ISpace r then Some acc else None
  | _ => None
  end.

Fixpoint skip_spaces (cs : list IntChar) : list IntChar :=
  match cs with
  | ISpace :: r => skip_spaces r
  | _ => cs
  end.

(** [int(s)].  The interpreter's limit on the number of digits of a literal
    (4300 unless configured otherwise, none when set to 0) is not part of
    the model. *)
Definition py_int (s : string) : PyError + Z :=
  let r :=
    match skip_spaces (int_char <$> chars s) with
    | ISign true :: r => Z.opp <$> digits_val 0 false r
    | ISign false :: r => digits_val 0 false r
    | body => digits_val 0 false body
    end in
  match r with Some n => inr n | None => inl (ValueError_int s) end.

(** [parts[i]] *)
Definition part (parts : list string) (i : nat) : PyError + string :=
  match parts !! i with Some p => inr p | None => inl IndexError end.

Definition bind {A B} (m : PyError + A) (f : A → PyError + B) : PyError + B :=
  match m with inl e => inl e | inr a => f a end.

Notation "'let*' x ':=' m 'in' k" := (bind m (λ x, k))
  (at level 10, x name, m at level 100, k at level 200).

(** The local variables of [_parse_input_lines]. *)
Record ParseState := mkParse {
  p_length : option Z;
  p_devices : gset Z;
  p_propagate : gmap Z (list (Z * Z));
  p_initial : list Event
}.

(** The tag a raw line is dispatched on: [None] for blank and comment
    lines, else [parts[0]]. *)
Definition line_tag (raw : string) : option string :=
  let line := strip raw in
  if String.eqb line EmptyString || starts_with_hash line then None
  else head (split line).

(** The body of [for raw in lines]. *)
Definition parse_line (st : ParseState) (raw : string) : PyError + ParseState :=
  let line := strip raw in
  if String.eqb line EmptyString || starts_with_hash line then inr st
  else
    let parts := split line in
    let* tag := part parts 0 in
    if String.eqb tag "LENGTH" then
      let* p1 := part parts 1 in let* n := py_int p1 in
      inr (mkParse (Some n) (p_devices st) (p_propagate st) (p_initial st))
    else if String.eqb tag "DEVICE" then
      let* p1 := part parts 1 in let* n := py_int p1 in
      inr (mkParse (p_length st) ({[ n ]} ∪ p_devices st) (p_propagate st) (p_initial st))
    else if String.eqb tag "PROPAGATE" then
      let* p1 := part parts 1 in let* frm := py_int p1 in
      let* p2 := part parts 2 in let* to := py_int p2 in
      let* p3 := part parts 3 in let* delay := py_int p3 in
      inr (mkParse (p_length st) (p_devices st)
             (<[frm := default [] (p_propagate st !! frm) ++ [(to, delay)]]> (p_propagate st))
             (p_initial st))
    else if String.eqb tag "ALERT" then
      let* p1 := part parts 1 in let* dev := py_int p1 in
      let* d := part parts 2 in
      let* p3 := part parts 3 in let* t := py_int p3 in
      inr (mkParse (p_length st) (p_devices st) (p_propagate st)
             (p_initial st ++ [mkEvent t RAISE_ALERT dev d None]))
    else if String.eqb tag "CANCEL" then
      let* p1 := part parts 1 in let* dev := py_int p1 in
      let* d := part parts 2 in
      let* p3 := part parts 3 in let* t := py_int p3 in
      inr (mkParse (p_length st) (p_devices st) (p_propagate st)
             (p_initial st ++ [mkEvent t RAISE_CANCEL dev d None]))
    else inl (ValueError_unknown_line line).

Fixpoint parse_lines (st : ParseState) (lines : list string) : PyError + ParseState :=
  match lines with
  | [] => inr st
  | raw :: rest => let* st' := parse_line st raw in parse_lines st' rest
  end.

(** [propagate.setdefault(d, [])] *)
Definition setdefault_nil (d : Z) (m : gmap Z (list (Z * Z))) : gmap Z (list (Z * Z)) :=
  match m !! d with Some _ => m | None => <[d := []]> m end.

Definition _parse_input_lines (lines : list string) : PyError + SimulationConfig :=
  let* st := parse_lines (mkParse None ∅ ∅ []) lines in
  match p_length st with
  | None => inl ValueError_missing_length
  | Some len =>
      inr (mkConfig len (set_fold setdefault_nil (p_propagate st) (p_devices st)) (p_initial st))
  end.

(** *** Reading the file

    [input_file_path.read_text(encoding="utf-8").splitlines()] *)

(** The bytes are the encoding of a [str]: every character has a code
    point.  Otherwise [read_text] raises [UnicodeDecodeError]. *)
Definition utf8_valid (data : string) : bool :=
  forallb (λ c, bool_decide (is_Some (code c))) (chars data).

(** A file opened for reading text has its line ends translated: ["\r\n"]
    and a lone ["\r"] are read as ["\n"]. *)
Fixpoint universal_newlines (cs : list Char) : string :=
  match cs with
  | [] => EmptyString
  | c :: r =>
      if char_in (λ cp, bool_decide (cp = 13)) c then
        String "010"
          match r with
          | c' :: r' =>
              if char_in (λ cp, bool_decide (cp = 10)) c' then universal_newlines r'
              else universal_newlines r
          | [] => EmptyString
          end
      else encoding c +:+ universal_newlines r
  end.

Definition read_text (data : string) : option string :=
  if utf8_valid data then Some (universal_newlines (chars data)) else None.

(** The line boundaries of [str.splitlines]: LF, VT, FF, CR, FS, GS, RS,
    U+0085, U+2028 and U+2029. *)
Definition is_linebreak (cp : Z) : bool :=
  bool_decide (10 ≤ cp ≤ 13) || bool_decide (28 ≤ cp ≤ 30)
  || bool_decide (cp = 133) || bool_decide (cp = 8232) || bool_decide (cp = 8233).

(** [splitlines] ends a line at every boundary, CR LF counting as one, and
    at the end of the text if characters are left. *)
Fixpoint splitlines_go (cur : string) (cs : list Char) : list string :=
  match cs with
  | [] => if String.eqb cur EmptyString then [] else [cur]
  | c :: r =>
      if char_in is_linebreak c then
        cur ::
          match r with
          | c' :: r' =>
              if char_in (λ cp, bool_decide (cp = 13)) c
                 && char_in (λ cp, bool_decide (cp = 10)) c'
              then splitlines_go EmptyString r'
              else splitlines_go EmptyString r
          | [] => []
          end
      else splitlines_go (cur +:+ encoding c) r
  end.

Definition splitlines (text : string) : list string :=
  splitlines_go EmptyString (chars text).

(** *** [main] *)

(** What [main] asks of its surroundings, and what it is answered.  An
    exception of the surroundings is known by the name of its class
    ([EOFError], [IsADirectoryError], [PermissionError],
    [BrokenPipeError], [UnicodeEncodeError], ...). *)
Record World := mkWorld {
  (** [input()]: the line read from standard input, or the exception. *)
  w_input : string + string;
  (** [Path(p).exists()]: it raises for errors other than a missing file. *)
  w_exists : string → string + bool;
  (** The bytes [read_text] reads from the file, or the [OSError] of
      opening or reading it. *)
  w_read : string → string + string;
  (** [print(line)] after the given lines have been printed: the exception
      it raises, if any. *)
  w_print : list string → string → option string
}.

(** Where the exception that ends [main] comes from. *)
Inductive Raised :=
  | FromInput (name : string)      (* raised by [input()] *)
  | FromExists (name : string)     (* raised by [exists()] *)
  | FromRead (name : string)       (* an [OSError] of [read_text] *)
  | UnicodeDecodeError             (* [read_text]: the file is not UTF-8 *)
  | FromParser (e : PyError)       (* raised by [_parse_input_lines] *)
  | FromPrint (name : string).     (* raised by [print] *)

(** What a run of [main] leaves behind: the lines printed, and the
    exception that ended it, if any. *)
Record MainResult := mkMain {
  stdout : list string;
  raised : option Raised
}.

(** [for line in output_lines: print(line)], and [print("FILE NOT FOUND")]. *)
Fixpoint print_lines (w : World) (printed : list string) (lines : list string) : MainResult :=
  match lines with
  | [] => mkMain printed None
  | line :: rest =>
      match w_print w printed line with
      | Some name => mkMain printed (Some (FromPrint name))
      | None => print_lines w (printed ++ [line]) rest
      end
  end.

(** [main], over the engine it calls.  The result is [None] when the engine
    does not return. *)
Definition main_with (engine : SimulationConfig → option (list string))
    (w : World) : option MainResult :=
  match w_input w with
  | inl name => Some (mkMain [] (Some (FromInput name)))
  | inr input_file_path =>
      match w_exists w input_file_path with
      | inl name => Some (mkMain [] (Some (FromExists name)))
      | inr false => Some (print_lines w [] [ "FILE NOT FOUND"%string ])
      | inr true =>
          match w_read w input_file_path with
          | inl name => Some (mkMain [] (Some (FromRead name)))
          | inr data =>
              match read_text data with
              | None => Some (mkMain [] (Some UnicodeDecodeError))
              | Some text =>
                  match _parse_input_lines (splitlines text) with
                  | inl e => Some (mkMain [] (Some (FromParser e)))
                  | inr cfg =>
                      match engine cfg with
                      | Some output_lines => Some (print_lines w [] output_lines)
                      | None => None
                      end
                  end
              end
          end
      end
  end.

Definition main (fuel : nat) (w : World) : option MainResult :=
  main_with (_run_simulation fuel) w.

(* ===================================================================== *)
(** ** Sample configurations *)
(* ===================================================================== *)

(** Scenario 2: device 1 -> device 2 with delay 3, horizon 100; an alert
    raised at 0 and its cancellation raised at 1. *)
Definition scenario2 : SimulationConfig :=
  mkConfig 100 {[ 1 := [(2, 3)] ]}
    [ mkEvent 0 RAISE_ALERT 1 "fire" None; mkEvent 1 RAISE_CANCEL 1 "fire" None ].

Definition cancel_x : Event := mkEvent 0 RAISE_CANCEL 1 "x" None.

Definition alert_fire_at_5 : Event := mkEvent 5 RAISE_ALERT 1 "fire" None.

(** Two cancellations of the same description raised by the same device at
    the same time. *)
Definition same_time_cancels : SimulationConfig :=
  mkConfig 100 {[ 1 := [(2, 3)] ]}
    [ cancel_x; cancel_x ].

(** A topology with a negative delay, as the parser reads it from
    [PROPAGATE 3 1 -2]: device 3 reaches device 1 two time units in the
    past. *)
Definition negative_delay : SimulationConfig :=
  mkConfig 100 {[ 1 := [(2, 1)]; 3 := [(1, -2)] ]}
    [ mkEvent 5 RAISE_CANCEL 1 "m" None; mkEvent 6 RAISE_CANCEL 3 "m" None ].

(** A cycle [1 -> 2 -> 1] with one zero-delay edge: the alert goes round
    until the horizon. *)
Definition zero_delay_edge : SimulationConfig :=
  mkConfig 7 {[ 1 := [(2, 0)]; 2 := [(1, 3)] ]} [ mkEvent 0 RAISE_ALERT 1 "x" None ].

Definition rank_1_over_2 (dev : Z) : nat := if bool_decide (dev = 1) then 1%nat else 0%nat.

(** U+00A0 NO-BREAK SPACE and U+3000 IDEOGRAPHIC SPACE. *)
Definition nbsp : string := String "194" (String "160" EmptyString).

Definition ideographic_space : string :=
  String "227" (String "128" (String "128" EmptyString)).

(** The text of a file with the given lines. *)
Definition unlines (lines : list string) : string :=
  foldr (λ l acc, l +:+ String "010" acc) EmptyString lines.

(** Surroundings in which standard input names a file with the given bytes
    ([None]: there is no such file) and every [print] succeeds. *)
Definition file_world (data : option string) : World :=
  mkWorld (inr "input.txt"%string)
          (λ _, inr (bool_decide (is_Some data)))
          (λ _, match data with Some d => inr d | None => inl "FileNotFoundError"%string end)
          (λ _ _, None).

(** Surroundings in which the file is read and the second [print] fails. *)
Definition broken_pipe_world : World :=
  mkWorld (inr "input.txt"%string) (λ _, inr true)
          (λ _, inr (unlines [ "LENGTH 9"; "PROPAGATE 1 2 3"; "ALERT 1 a 0" ]%string))
          (λ printed _, if bool_decide (printed = []) then None
                        else Some "BrokenPipeError"%string).

(** A state in which device 1 has learned at time 5 that ["fire"] is
    cancelled. *)
Definition knows_fire_at_5 : State :=
  mkState [] 0%nat {[ 1 := {[ "fire"%string := 5 ]} ]} [].

(* ===================================================================== *)
(** ** Observers used by the statements *)
(* ===================================================================== *)

(** [has_char c s]: the character [c] occurs in [s]. *)
Fixpoint has_char (c : ascii) (s : string) : bool :=
  match s with
  | EmptyString => false
  | String a r => Ascii.eqb a c || has_char c r
  end.

(** The part of [s] before the first occurrence of [c]. *)
Fixpoint take_until (c : ascii) (s : string) : string :=
  match s with
  | EmptyString => EmptyString
  | String a r => if Ascii.eqb a c then EmptyString else String a (take_until c r)
  end.

(** The timestamp a transcript line carries: the decimal number between
    the leading ["@"] and the first [":"]. *)
Definition timestamp (line : string) : option Z :=
  match line with
  | String "@" r => Z.of_int <$> NilZero.int_of_string (take_until ":" r)
  | _ => None
  end.

(** The characters [str(int)] is made of. *)
Definition num_char (c : ascii) : bool :=
  Ascii.eqb c "-" || (let n := nat_of_ascii c in (48 <=? n) && (n <=? 57))%nat.

(** The outgoing edges of a device: [cfg.propagate.get(dev, [])]. *)
Definition out_edges (cfg : SimulationConfig) (dev : Z) : list (Z * Z) :=
  default [] (propagate cfg !! dev).

(** The entries one propagation loop pushes, the first with sequence
    number [n]. *)
Fixpoint new_entries (k : EventKind) (t : Z) (ev : Event) (n : nat)
    (edges : list (Z * Z)) : list Entry :=
  match edges with
  | [] => []
  | e :: r =>
      (t + e.2, n, mkEvent (t + e.2) k e.1 (desc ev) (Some (device ev)))
        :: new_entries k t ev (S n) r
  end.

(** The lines one propagation loop appends. *)
Definition sent_lines (fmt : Z → Z → Z → string → string) (t : Z) (ev : Event)
    (edges : list (Z * Z)) : list string :=
  (λ e, fmt t (device ev) e.1 (desc ev)) <$> edges.

(** The entries the initial loading pushes, the first with sequence
    number [n]. *)
Fixpoint initial_entries (n : nat) (evs : list Event) : list Entry :=
  match evs with
  | [] => []
  | ev :: r => (time ev, n, ev) :: initial_entries (S n) r
  end.

(** The state after [n] iterations of the loop (fewer when the loop is
    left before). *)
Fixpoint iterate (cfg : SimulationConfig) (n : nat) (st : State) : State :=
  match n with
  | O => st
  | S n' =>
      match loop_body cfg st with
      | Some st' => iterate cfg n' st'
      | None => st
      end
  end.

(** A line that is not the terminal one: ["@t: #dev ..."] with [t] before
    the horizon. *)
Definition body_line (cfg : SimulationConfig) (l : string) : Prop :=
  ∃ t dev r,
    l = "@" +:+ pystr t +:+ ": #" +:+ pystr dev +:+ String " " r ∧ t < cfg_length cfg.

(** Sequence numbers in the heap are pairwise distinct and below the
    counter. *)
Definition seq_fresh (st : State) : Prop :=
  (∀ e, e ∈ heap st → (e_seq e < seq st)%nat) ∧ NoDup (e_seq <$> heap st).

(** The entries returned by [heappop] during the first [n] iterations, in
    order; the entry whose time makes the loop [break] is the last one. *)
Fixpoint pops (cfg : SimulationConfig) (n : nat) (st : State) : list Entry :=
  match n with
  | O => []
  | S n' =>
      match heappop (heap st) with
      | None => []
      | Some (e, _) =>
          e :: match loop_body cfg st with
               | Some st' => pops cfg n' st'
               | None => []
               end
      end
  end.

(** Every recorded cancellation time is at most the time of every pending
    entry. *)
Definition ledger_le_heap (st : State) : Prop :=
  ∀ e dev d p,
    e ∈ heap st → ledger_get (cancel_time st) dev d = Some p → p ≤ e_time e.

(** A device that has sent a cancellation at time [t] has [t] recorded as
    the time it learned of it. *)
Definition sent_cancel_recorded (st : State) : Prop :=
  ∀ t dev to d,
    line_sent_cancel t dev to d ∈ out st → ledger_get (cancel_time st) dev d = Some t.

(** Every delay of the topology is non-negative, respectively positive. *)
Definition delays_nonneg (cfg : SimulationConfig) : Prop :=
  map_Forall (λ _ edges, Forall (λ e : Z * Z, 0 ≤ e.2) edges) (propagate cfg).

Definition delays_pos (cfg : SimulationConfig) : Prop :=
  map_Forall (λ _ edges, Forall (λ e : Z * Z, 0 < e.2) edges) (propagate cfg).

(** The largest number of outgoing edges of a device. *)
Definition max_out_degree (cfg : SimulationConfig) : nat :=
  max_list ((λ kv : Z * list (Z * Z), List.length kv.2) <$> map_to_list (propagate cfg)).

(** The zero-delay edges form no cycle: some bounded ranking of the devices
    strictly decreases along every edge of delay 0. *)
Definition zero_delay_ranked (cfg : SimulationConfig) (rank : Z → nat) (bound : nat) : Prop :=
  (∀ dev, (rank dev ≤ bound)%nat)
  ∧ ∀ dev e, e ∈ out_edges cfg dev → e.2 = 0 → (rank e.1 < rank dev)%nat.

Definition no_zero_delay_cycle (cfg : SimulationConfig) : Prop :=
  ∃ rank bound, zero_delay_ranked cfg rank bound.

(** Termination measure.  An entry is indexed by its distance to the
    horizon and, within one time, by the rank of its device; an entry of
    index [S i] weighs more than [deg] entries of index [i]. *)
Fixpoint weight (deg : nat) (i : nat) : nat :=
  match i with
  | O => 1
  | S i' => 1 + deg * weight deg i'
  end.

Definition entry_index (cfg : SimulationConfig) (rank : Z → nat) (bound : nat)
    (e : Entry) : nat :=
  Z.to_nat (cfg_length cfg - e_time e) * S bound + rank (device (e_event e)).

Definition entry_weight (cfg : SimulationConfig) (rank : Z → nat) (bound : nat)
    (e : Entry) : nat :=
  weight (max_out_degree cfg) (entry_index cfg rank bound e).

Definition measure (cfg : SimulationConfig) (rank : Z → nat) (bound : nat)
    (st : State) : nat :=
  sum_list_with (entry_weight cfg rank bound) (heap st).

(** The cancellation kinds. *)
Definition is_cancel (k : EventKind) : bool :=
  match k with RAISE_CANCEL | RECV_CANCEL => true | _ => false end.

(** The receipt line a dispatch appends before it decides on forwarding:
    none for the originating kinds. *)
Definition recv_prefix (t : Z) (ev : Event) : list string :=
  match kind ev with
  | RECV_ALERT => [line_recv_alert t (device ev) (src ev) (desc ev)]
  | RECV_CANCEL => [line_recv_cancel t (device ev) (src ev) (desc ev)]
  | _ => []
  end.

(** The tags [_parse_input_lines] recognizes. *)
Definition known_tags : list string :=
  [ "LENGTH"; "DEVICE"; "PROPAGATE"; "ALERT"; "CANCEL" ]%string.

Definition has_unknown_tag (lines : list string) : Prop :=
  ∃ raw tag, raw ∈ lines ∧ line_tag raw = Some tag ∧ tag ∉ known_tags.

Definition has_no_length (lines : list string) : Prop :=
  ∀ raw, raw ∈ lines → line_tag raw ≠ Some "LENGTH"%string.

(** A zero-delay self loop: the configuration on which the engine runs
    forever. *)
Definition zero_delay_loop : SimulationConfig :=
  mkConfig 1 {[ 1 := [(1, 0)] ]} [ mkEvent 0 RAISE_ALERT 1 "x" None ].

(** The two message classes share their code: [c] is [true] for a
    cancellation, [false] for an alert. *)
Definition sent_fmt (c : bool) : Z → Z → Z → string → string :=
  if c then line_sent_cancel else line_sent_alert.

Definition recv_fmt (c : bool) : Z → Z → option Z → string → string :=
  if c then line_recv_cancel else line_recv_alert.

Definition recv_kind (c : bool) : EventKind := if c then RECV_CANCEL else RECV_ALERT.

(** The four shapes of a line that is not the terminal one. *)
Inductive LineKind := SentAlert | SentCancel | RecvAlert | RecvCancel.

Definition verb (k : LineKind) : string :=
  match k with
  | SentAlert => "SENT ALERT TO"
  | SentCancel => "SENT CANCELLATION TO"
  | RecvAlert => "RECEIVED ALERT FROM"
  | RecvCancel => "RECEIVED CANCELLATION FROM"
  end.

Definition generic_line (k : LineKind) (t dev : Z) (other d : string) : string :=
  "@" +:+ pystr t +:+ ": #" +:+ pystr dev +:+ " " +:+ verb k +:+ " #" +:+ other +:+ ": " +:+ d.

Definition sent_kind (c : bool) : LineKind := if c then SentCancel else SentAlert.
Definition recv_line_kind (c : bool) : LineKind := if c then RecvCancel else RecvAlert.

(** The lines the parser skips: [not line or line.startswith("#")]. *)
Definition ignored_line (raw : string) : bool :=
  String.eqb (strip raw) EmptyString || starts_with_hash (strip raw).

(** Two configurations the engine cannot tell apart: it reads the topology
    only through [cfg.propagate.get(dev, [])]. *)
Definition same_engine_input (cfg cfg' : SimulationConfig) : Prop :=
  cfg_length cfg = cfg_length cfg'
  ∧ initial_events cfg = initial_events cfg'
  ∧ ∀ dev, out_edges cfg dev = out_edges cfg' dev.

(** An event that a device raises itself, as opposed to a receipt. *)
Definition originated (ev : Event) : Prop :=
  kind ev = RAISE_ALERT ∨ kind ev = RAISE_CANCEL.

(** Every pending receipt was announced by a SENT line, one delay earlier. *)
Definition pending_was_sent (cfg : SimulationConfig) (st : State) : Prop :=
  ∀ x c,
    x ∈ heap st → kind (e_event x) = recv_kind c →
    ∃ s delay,
      src (e_event x) = Some s
      ∧ (device (e_event x), delay) ∈ out_edges cfg s
      ∧ sent_fmt c (e_time x - delay) s (device (e_event x)) (desc (e_event x)) ∈ out st.

(** Every RECEIVED line comes after the SENT line of the same message, one
    delay of an edge between the two devices earlier. *)
Definition received_was_sent (cfg : SimulationConfig) (lines : list string) : Prop :=
  ∀ i c t d from m,
    lines !! i = Some (recv_fmt c t d from m) →
    ∃ s delay j,
      from = Some s ∧ (d, delay) ∈ out_edges cfg s ∧ (j < i)%nat
      ∧ lines !! j = Some (sent_fmt c (t - delay) s d m).

(** Every message sent is, for each outgoing edge of the sender, still
    pending or received. *)
Definition sent_is_pending_or_received (cfg : SimulationConfig) (st : State) : Prop :=
  ∀ c t s to m e,
    sent_fmt c t s to m ∈ out st → e ∈ out_edges cfg s →
    (∃ n, (t + e.2, n, mkEvent (t + e.2) (recv_kind c) e.1 m (Some s)) ∈ heap st)
    ∨ recv_fmt c (t + e.2) e.1 (Some s) m ∈ out st.

(** No line produced so far is later than a pending entry. *)
Definition lines_before_pending (st : State) : Prop :=
  ∀ l t e, l ∈ out st → timestamp l = Some t → e ∈ heap st → t ≤ e_time e.

(** The timestamps of the lines never decrease along the list. *)
Definition times_sorted (lines : list string) : Prop :=
  ∀ i j a b ta tb,
    (i ≤ j)%nat → lines !! i = Some a → lines !! j = Some b →
    timestamp a = Some ta → timestamp b = Some tb → ta ≤ tb.

(** A device has not forwarded an alert later than the time it has stored
    for the cancellation of that description. *)
Definition alert_not_after_ledger (st : State) : Prop :=
  ∀ t dev to m p,
    line_sent_alert t dev to m ∈ out st →
    ledger_get (cancel_time st) dev m = Some p → t ≤ p.

(** Two parser states that differ at most in the set of declared devices. *)
Definition same_but_devices (a b : ParseState) : Prop :=
  p_length a = p_length b ∧ p_propagate a = p_propagate b ∧ p_initial a = p_initial b.

(** What [heapq] promises of a pop, whatever the arrangement of the list
    it keeps: the entry returned is one than which no entry of the heap is
    smaller, and the heap is left with the other entries. *)
Definition is_heappop (h : list Entry) (e : Entry) (h' : list Entry) : Prop :=
  h ≡ₚ e :: h' ∧ ∀ x, x ∈ h → entry_lt x e = false.

(** Two states of the loop that differ at most in the arrangement of the
    heap. *)
Definition rearranged (s s' : State) : Prop :=
  heap s ≡ₚ heap s' ∧ seq s = seq s' ∧ cancel_time s = cancel_time s' ∧ out s = out s'.

(** The loop of [_run_simulation] over any heap that keeps the promise of
    [heapq]: [runs cfg s tr] when, from the state [s], the loop can end and
    [tr] be returned.  The pushes of an iteration leave the heap in an
    arrangement of their choice, and a pop may return any smallest entry. *)
Inductive runs (cfg : SimulationConfig) : State → list string → Prop :=
  | runs_exhausted s :
      heap s = [] → runs cfg s (out s ++ [line_end (cfg_length cfg)])
  | runs_horizon s e h' :
      is_heappop (heap s) e h' → cfg_length cfg ≤ e_time e →
      runs cfg s (out s ++ [line_end (cfg_length cfg)])
  | runs_step s e h' s' tr :
      is_heappop (heap s) e h' → e_time e < cfg_length cfg →
      rearranged (dispatch cfg (e_time e) (e_event e) (set_heap h' s)) s' →
      runs cfg s' tr →
      runs cfg s tr.

(** [tr] is the transcript of some run of [_run_simulation(cfg)]. *)
Definition may_return (cfg : SimulationConfig) (tr : list string) : Prop :=
  ∃ s, rearranged (init_state cfg) s ∧ runs cfg s tr.

(** The five lines of scenario 2. *)
Definition scenario2_lines : list string :=
  [ "@0: #1 SENT ALERT TO #2: fire"; "@1: #1 SENT CANCELLATION TO #2: fire";
    "@3: #2 RECEIVED ALERT FROM #1: fire"; "@4: #2 RECEIVED CANCELLATION FROM #1: fire";
    "@100: END" ]%string.

(** The state of the loop after [n] iterations. *)
Definition state_at (cfg : SimulationConfig) (n : nat) : State :=
  iterate cfg n (init_state cfg).

(** Iteration [n] (the first one is iteration 0) pops the entry [e] and
    dispatches its event. *)
Definition handles (cfg : SimulationConfig) (n : nat) (e : Entry) : Prop :=
  ∃ h', heappop (heap (state_at cfg n)) = Some (e, h') ∧ e_time e < cfg_length cfg.

(** The entry holds a cancellation event, raised or received, of device
    [dev] for the description [d]. *)
Definition cancels (e : Entry) (dev : Z) (d : string) : Prop :=
  is_cancel (kind (e_event e)) = true ∧ device (e_event e) = dev ∧ desc (e_event e) = d.

(** Iteration [n] forwards the cancellation of [e]: what it appends to the
    output is the receipt line, if [e] is a receipt, and one SENT
    CANCELLATION line for every outgoing edge of the device. *)
Definition forwards_cancel (cfg : SimulationConfig) (n : nat) (e : Entry) : Prop :=
  out (state_at cfg (S n))
  = out (state_at cfg n) ++ recv_prefix (e_time e) (e_event e)
      ++ sent_lines line_sent_cancel (e_time e) (e_event e)
           (out_edges cfg (device (e_event e))).

(** Device 1 cancels ["x"] at time 0, and twice more at time 5. *)
Definition earlier_cancel : SimulationConfig :=
  mkConfig 100 {[ 1 := [(2, 3)] ]}
    [ cancel_x; mkEvent 5 RAISE_CANCEL 1 "x" None; mkEvent 5 RAISE_CANCEL 1 "x" None ].

(** Every event of time 5, at horizon 5: nothing to simulate. *)
Definition late_events : SimulationConfig :=
  mkConfig 5 {[ 1 := [(2, 3)] ]}
    [ mkEvent 5 RAISE_ALERT 1 "a" None; mkEvent 9 RAISE_CANCEL 1 "a" None ].

(* ===================================================================== *)
(** ** The n-queens board (project0/queens.py) *)
(* ===================================================================== *)

(** [Position = namedtuple('Position', ['row', 'column'])]: a pair. *)
Abbreviation Position := (Z * Z)%type.

Definition row (p : Position) : Z := p.1.
Definition column (p : Position) : Z := p.2.

(** The exceptions the methods of [QueensState] end with: the two classes
    of the module, and the [KeyError] of [set.remove]. *)
Inductive QueensError :=
  | DuplicateQueenError (position : Position)
  | MissingQueenError (position : Position)
  | KeyError (key : Position).

(** [DuplicateQueenError.__str__] and [MissingQueenError.__str__]. *)
Definition DuplicateQueenError_str (p : Position) : string :=
  "duplicate queen in row " +:+ pystr (row p) +:+ " column " +:+ pystr (column p).

Definition MissingQueenError_str (p : Position) : string :=
  "missing queen in row " +:+ pystr (row p) +:+ " column " +:+ pystr (column p).

(** [class QueensState]: the two sizes and the frozenset of queens. *)
Record QueensState := mkQueensState {
  _rows : Z;
  _columns : Z;
  _queens : gset Position
}.

(** [QueensState.__init__] *)
Definition QueensState_init (rows columns : Z) : QueensState :=
  mkQueensState rows columns ∅.

Definition queen_count (st : QueensState) : nat := size (_queens st).

(** [list(self._queens)]: the elements in the order the set yields them. *)
Definition queens (st : QueensState) : list Position := elements (_queens st).

Definition has_queen (st : QueensState) (position : Position) : bool :=
  bool_decide (position ∈ _queens st).

(** The test in the inner loop of [any_queens_unsafe]. *)
Definition conflict (q1 q2 : Position) : bool :=
  let same_row := bool_decide (row q1 = row q2) in
  let same_column := bool_decide (column q1 = column q2) in
  let same_diagonal :=
    bool_decide (Z.abs (row q1 - row q2) = Z.abs (column q1 - column q2)) in
  same_row || same_column || same_diagonal.

(** The two nested loops: [q1] ranges over [queens[:-1]] with its index [i],
    [q2] over [queens[i+1:]]. *)
Definition unsafe_pairs (qs : list Position) : bool :=
  existsb (λ iq : nat * Position, existsb (conflict iq.2) (drop (S iq.1) qs))
          (imap (λ i q, (i, q)) (take (List.length qs - 1) qs)).

Definition any_queens_unsafe (st : QueensState) : bool :=
  if bool_decide (size (_queens st) < 2)%nat then false
  else unsafe_pairs (elements (_queens st)).

(** The loop of [with_queens_added]: membership is tested in [self._queens],
    the additions go to [new_queens]. *)
Fixpoint add_loop (old new_queens : gset Position) (positions : list Position)
  : QueensError + gset Position :=
  match positions with
  | [] => inr new_queens
  | position :: rest =>
      if bool_decide (position ∈ old) then inl (DuplicateQueenError position)
      else add_loop old ({[ position ]} ∪ new_queens) rest
  end.

Definition with_queens_added (st : QueensState) (positions : list Position)
  : QueensError + QueensState :=
  match add_loop (_queens st) (_queens st) positions with
  | inl e => inl e
  | inr new_queens => inr (mkQueensState (_rows st) (_columns st) new_queens)
  end.

(** The loop of [with_queens_removed]: membership is tested in
    [self._queens]; [new_queens.remove] raises [KeyError] when the position
    has left [new_queens] already. *)
Fixpoint remove_loop (old new_queens : gset Position) (positions : list Position)
  : QueensError + gset Position :=
  match positions with
  | [] => inr new_queens
  | position :: rest =>
      if bool_decide (position ∉ old) then inl (MissingQueenError position)
      else if bool_decide (position ∈ new_queens)
           then remove_loop old (new_queens ∖ {[ position ]}) rest
           else inl (KeyError position)
  end.

Definition with_queens_removed (st : QueensState) (positions : list Position)
  : QueensError + QueensState :=
  match remove_loop (_queens st) (_queens st) positions with
  | inl e => inl e
  | inr new_queens => inr (mkQueensState (_rows st) (_columns st) new_queens)
  end.

(** The boards of the unit tests. *)
Definition board8 : QueensState := QueensState_init 8 8.

Definition board8_two : QueensState := mkQueensState 8 8 {[ (0, 0); (1, 1) ]}.

(* ===================================================================== *)
(** ** Facts about formatting *)
(* ===================================================================== *)

Arguments pystr : simpl never.
Arguments Ascii.eqb : simpl never.
Arguments String.append !_ _ / : simpl nomatch.

Lemma string_of_uint_num (d : uint) (c : ascii) :
  has_char c (NilEmpty.string_of_uint d) = true → num_char c = true.
Proof.
  induction d; simpl; intros H; try discriminate;
    (apply orb_true_iff in H as [H | H]; [apply Ascii.eqb_eq in H; subst c; reflexivity | auto]).
Qed.

Lemma pystr_num (n : Z) (c : ascii) : has_char c (pystr n) = true → num_char c = true.
Proof.
  unfold pystr, NilZero.string_of_int, NilZero.string_of_uint.
  destruct (Z.to_int n) as [d | d]; destruct d; simpl; intros H;
    repeat (apply orb_true_iff in H as [H | H];
            [apply Ascii.eqb_eq in H; subst c; reflexivity |]);
    try discriminate; eauto using string_of_uint_num.
Qed.

Lemma pystr_no_char (n : Z) (c : ascii) : num_char c = false → has_char c (pystr n) = false.
Proof.
  intros Hc. destruct (has_char c (pystr n)) eqn:E; [|done].
  apply pystr_num in E. congruence.
Qed.

Lemma append_cut (c : ascii) (s1 s2 r1 r2 : string) :
  has_char c s1 = false → has_char c s2 = false →
  s1 +:+ String c r1 = s2 +:+ String c r2 → s1 = s2 ∧ r1 = r2.
Proof.
  revert s2. induction s1 as [|a s1 IH]; intros [|b s2]; simpl; intros H1 H2 E.
  - by injection E.
  - injection E as -> _. by rewrite Ascii.eqb_refl in H2.
  - injection E as -> _. by rewrite Ascii.eqb_refl in H1.
  - apply orb_false_iff in H1 as [_ H1]. apply orb_false_iff in H2 as [_ H2].
    injection E as -> E. destruct (IH _ H1 H2 E) as [-> ->]. done.
Qed.

Lemma take_until_append (c : ascii) (s r : string) :
  has_char c s = false → take_until c (s +:+ String c r) = s.
Proof.
  induction s as [|a s IH]; simpl; intros H.
  - by rewrite Ascii.eqb_refl.
  - apply orb_false_iff in H as [-> H]. by rewrite IH.
Qed.

Lemma int_of_pystr (n : Z) : NilZero.int_of_string (pystr n) = Some (Z.to_int n).
Proof.
  unfold pystr. apply NilZero.isi; destruct n; simpl; try discriminate;
    intros [= E]; by apply Unsigned.to_uint_nonnil in E.
Qed.

Lemma pystr_inj (a b : Z) : pystr a = pystr b → a = b.
Proof.
  intros E. apply DecimalZ.to_int_inj.
  pose proof (int_of_pystr a) as Ha. rewrite E, int_of_pystr in Ha. congruence.
Qed.

Lemma timestamp_header (t : Z) (r : string) :
  timestamp ("@" +:+ pystr t +:+ String ":" r) = Some t.
Proof.
  simpl. rewrite take_until_append by (by apply pystr_no_char).
  rewrite int_of_pystr. simpl. by rewrite DecimalZ.of_to.
Qed.

(** Two lines with the common header ["@t: #dev "] agree on the time, the
    device and the remainder. *)
Lemma header_inj (t t' d d' : Z) (r r' : string) :
  "@" +:+ pystr t +:+ ": #" +:+ pystr d +:+ String " " r
  = "@" +:+ pystr t' +:+ ": #" +:+ pystr d' +:+ String " " r' →
  t = t' ∧ d = d' ∧ r = r'.
Proof.
  simpl. intros [= E].
  apply append_cut in E as [Et E]; [| by apply pystr_no_char ..].
  injection E as E.
  apply append_cut in E as [Ed E]; [| by apply pystr_no_char ..].
  apply pystr_inj in Et, Ed. done.
Qed.

(* ===================================================================== *)
(** ** Facts about the scheduler *)
(* ===================================================================== *)

Lemma entry_lt_spec (a b : Entry) :
  entry_lt a b = true ↔
  e_time a < e_time b ∨ (e_time a = e_time b ∧ (e_seq a < e_seq b)%nat).
Proof.
  unfold entry_lt. rewrite orb_true_iff, andb_true_iff, !bool_decide_eq_true. tauto.
Qed.

Lemma entry_lt_false (a b : Entry) :
  entry_lt a b = false ↔
  e_time b < e_time a ∨ (e_time b = e_time a ∧ (e_seq b ≤ e_seq a)%nat).
Proof.
  rewrite <- not_true_iff_false, entry_lt_spec. lia.
Qed.

Lemma heappop_None (h : list Entry) : heappop h = None ↔ h = [].
Proof.
  destruct h as [|e h]; simpl; [done|].
  destruct (heappop h) as [[m rest]|]; [destruct (entry_lt m e)|]; done.
Qed.

(** A pop returns a smallest entry and leaves the others. *)
Lemma heappop_Some (h : list Entry) (m : Entry) (rest : list Entry) :
  heappop h = Some (m, rest) →
  h ≡ₚ m :: rest ∧ ∀ x, x ∈ h → entry_lt x m = false.
Proof.
  revert m rest. induction h as [|e h IH]; intros m rest; simpl; [done|].
  destruct (heappop h) as [[m' rest']|] eqn:E.
  - destruct (IH _ _ eq_refl) as [Hp Hmin].
    destruct (entry_lt m' e) eqn:Hlt; intros [= <- <-].
    + split; [rewrite Hp; apply Permutation_swap|].
      intros x [->|Hx]%elem_of_cons; [|by apply Hmin].
      apply entry_lt_spec in Hlt. apply entry_lt_false. lia.
    + split; [done|].
      intros x [->|Hx]%elem_of_cons.
      * apply entry_lt_false. lia.
      * apply Hmin in Hx. apply entry_lt_false in Hx, Hlt. apply entry_lt_false. lia.
  - apply heappop_None in E as ->. intros [= <- <-]. split; [done|].
    intros x ->%list_elem_of_singleton. apply entry_lt_false. lia.
Qed.

(* ===================================================================== *)
(** ** Facts about the ledger *)
(* ===================================================================== *)

Lemma ledger_get_record (ct : gmap Z (gmap string Z)) (dev dev' : Z) (d d' : string) (t : Z) :
  ledger_get (record_cancel ct dev d t) dev' d' =
  if decide (dev' = dev ∧ d' = d)
  then Some (match ledger_get ct dev d with Some p => Z.min p t | None => t end)
  else ledger_get ct dev' d'.
Proof.
  unfold ledger_get, record_cancel.
  destruct (decide (dev' = dev)) as [->|Hdev].
  - rewrite lookup_insert_eq. simpl.
    destruct (default ∅ (ct !! dev) !! d) as [cur|] eqn:Hcur.
    + case_bool_decide.
      * case_decide as Hd; [destruct Hd as [_ ->]; rewrite lookup_insert_eq; f_equal; lia|].
        rewrite lookup_insert_ne; [done|]. intros <-. by apply Hd.
      * case_decide as Hd; [destruct Hd as [_ ->]; rewrite Hcur; f_equal; lia|done].
    + case_decide as Hd; [destruct Hd as [_ ->]; by rewrite lookup_insert_eq|].
      rewrite lookup_insert_ne; [done|]. intros <-. by apply Hd.
  - rewrite lookup_insert_ne by done.
    destruct (decide (dev' = dev ∧ d' = d)) as [[? _]|]; done.
Qed.

Lemma cancelled_before_true (ct : gmap Z (gmap string Z)) (dev : Z) (d : string) (t : Z) :
  cancelled_before ct dev d t = true ↔ ∃ prev, ledger_get ct dev d = Some prev ∧ prev < t.
Proof.
  unfold cancelled_before. destruct (ledger_get ct dev d) as [p|].
  - rewrite bool_decide_eq_true. split; [eauto|]. by intros (? & [= <-] & ?).
  - split; [done|]. by intros (? & ? & _).
Qed.

(* ===================================================================== *)
(** ** Facts about the propagation loop and the dispatch *)
(* ===================================================================== *)

Lemma fan_out_spec fmt k cfg t ev st :
  fan_out fmt k cfg t ev st =
  mkState (heap st ++ new_entries k t ev (seq st) (out_edges cfg (device ev)))
          (seq st + List.length (out_edges cfg (device ev)))
          (cancel_time st)
          (out st ++ sent_lines fmt t ev (out_edges cfg (device ev))).
Proof.
  unfold fan_out, out_edges, sent_lines.
  generalize (default [] (propagate cfg !! device ev)) as edges.
  intros edges. revert st. induction edges as [|[to delay] r IH]; intros st; simpl.
  - destruct st; simpl. by rewrite !app_nil_r, Nat.add_0_r.
  - rewrite IH. unfold push_event, emit, heappush; simpl.
    rewrite <- !app_assoc. simpl. f_equal. lia.
Qed.

Lemma init_state_spec cfg :
  init_state cfg =
  mkState (initial_entries 0 (initial_events cfg)) (List.length (initial_events cfg)) ∅ [].
Proof.
  unfold init_state.
  assert (∀ evs st,
    foldl (λ s ev, push_event ev (time ev) s) st evs
    = mkState (heap st ++ initial_entries (seq st) evs) (seq st + List.length evs)
              (cancel_time st) (out st)) as H.
  { induction evs as [|ev r IH]; intros st; simpl.
    - destruct st; simpl. by rewrite app_nil_r, Nat.add_0_r.
    - rewrite IH. unfold push_event, heappush; simpl.
      rewrite <- app_assoc. simpl. f_equal. lia. }
  by rewrite H.
Qed.

Ltac dispatch_cases :=
  unfold dispatch;
  match goal with |- context [kind ?ev] => destruct (kind ev) eqn:? end;
  cbn zeta;
  repeat match goal with
         | |- context [cancelled_before ?a ?b ?c ?d] =>
             destruct (cancelled_before a b c d) eqn:?
         end;
  rewrite ?fan_out_spec; cbn [heap seq cancel_time out emit do_record set_heap].

Lemma loop_body_Some cfg s s' :
  loop_body cfg s = Some s' →
  ∃ e h', heappop (heap s) = Some (e, h') ∧ e_time e < cfg_length cfg
          ∧ s' = dispatch cfg (e_time e) (e_event e) (set_heap h' s).
Proof.
  unfold loop_body. destruct (heappop (heap s)) as [[e h']|]; [|done].
  case_bool_decide; [done|]. intros [= <-]. exists e, h'. split_and!; [done|lia|done].
Qed.

Lemma iterate_inv cfg (P : State → Prop) :
  (∀ s s', P s → loop_body cfg s = Some s' → P s') →
  ∀ n s, P s → P (iterate cfg n s).
Proof.
  intros Hstep. induction n as [|n IH]; intros s Hs; simpl; [done|].
  destruct (loop_body cfg s) as [s'|] eqn:E; [|done]. eauto.
Qed.

Lemma loop_iterate cfg fuel st st' :
  loop cfg fuel st = Some st' → st' = iterate cfg fuel st ∧ loop_body cfg st' = None.
Proof.
  revert st. induction fuel as [|fuel IH]; intros st; simpl; [done|].
  destruct (loop_body cfg st) as [s1|] eqn:E; [by apply IH|].
  by intros [= <-].
Qed.

(** The result of the loop does not depend on the fuel. *)
Lemma loop_fuel_irrelevant cfg f1 f2 st a b :
  loop cfg f1 st = Some a → loop cfg f2 st = Some b → a = b.
Proof.
  revert f2 st. induction f1 as [|f1 IH]; intros [|f2] st; simpl; try done.
  destruct (loop_body cfg st) as [s1|]; [apply IH|congruence].
Qed.

(* ===================================================================== *)
(** ** Horizon exclusivity *)
(* ===================================================================== *)

Lemma body_line_sent_alert cfg t dev to d :
  t < cfg_length cfg → body_line cfg (line_sent_alert t dev to d).
Proof. intros. by exists t, dev, ("SENT ALERT TO #" +:+ pystr to +:+ ": " +:+ d). Qed.

Lemma body_line_sent_cancel cfg t dev to d :
  t < cfg_length cfg → body_line cfg (line_sent_cancel t dev to d).
Proof. intros. by exists t, dev, ("SENT CANCELLATION TO #" +:+ pystr to +:+ ": " +:+ d). Qed.

Lemma body_line_recv_alert cfg t dev from d :
  t < cfg_length cfg → body_line cfg (line_recv_alert t dev from d).
Proof. intros. by exists t, dev, ("RECEIVED ALERT FROM #" +:+ pystr_opt from +:+ ": " +:+ d). Qed.

Lemma body_line_recv_cancel cfg t dev from d :
  t < cfg_length cfg → body_line cfg (line_recv_cancel t dev from d).
Proof. intros. by exists t, dev, ("RECEIVED CANCELLATION FROM #" +:+ pystr_opt from +:+ ": " +:+ d). Qed.

Lemma body_lines_sent cfg fmt t ev edges :
  (∀ to, body_line cfg (fmt t (device ev) to (desc ev))) →
  Forall (body_line cfg) (sent_lines fmt t ev edges).
Proof. intros H. unfold sent_lines. apply Forall_fmap, Forall_forall. intros e _. apply H. Qed.

Lemma dispatch_body_lines cfg t ev st :
  t < cfg_length cfg → Forall (body_line cfg) (out st) →
  Forall (body_line cfg) (out (dispatch cfg t ev st)).
Proof.
  intros Ht Hout.
  dispatch_cases; rewrite ?Forall_app, ?Forall_singleton; split_and?;
    auto using body_lines_sent, body_line_sent_alert, body_line_sent_cancel,
      body_line_recv_alert, body_line_recv_cancel.
Qed.

Lemma body_lines_invariant cfg n :
  Forall (body_line cfg) (out (iterate cfg n (init_state cfg))).
Proof.
  apply iterate_inv.
  - intros s s' Hs (e & h' & _ & Ht & ->)%loop_body_Some.
    by apply dispatch_body_lines.
  - rewrite init_state_spec. simpl. constructor.
Qed.

Lemma body_line_timestamp cfg l :
  body_line cfg l → ∃ t, timestamp l = Some t ∧ t < cfg_length cfg.
Proof.
  intros (t & dev & r & -> & Ht). exists t. split; [|done].
  apply (timestamp_header t (" #" +:+ pystr dev +:+ String " " r)).
Qed.

Lemma body_line_not_end cfg l : body_line cfg l → l ≠ line_end (cfg_length cfg).
Proof.
  intros (t & dev & r & -> & Ht). unfold line_end. simpl. intros [= E].
  apply append_cut in E as [_ E]; [done | by apply pystr_no_char ..].
Qed.

(* ===================================================================== *)
(** ** Flood-once forwarding of cancellations *)
(* ===================================================================== *)

Lemma sent_cancel_inj t dev to d t' dev' to' d' :
  line_sent_cancel t dev to d = line_sent_cancel t' dev' to' d' →
  t = t' ∧ dev = dev' ∧ to = to' ∧ d = d'.
Proof.
  intros E.
  apply (header_inj t t' dev dev' ("SENT CANCELLATION TO #" +:+ pystr to +:+ ": " +:+ d)
           ("SENT CANCELLATION TO #" +:+ pystr to' +:+ ": " +:+ d')) in E
    as (-> & -> & E).
  simpl in E. injection E as E.
  apply append_cut in E as [E1 E2]; [| by apply pystr_no_char ..].
  apply pystr_inj in E1. by injection E2 as ->.
Qed.

Lemma sent_cancel_not_sent_alert t dev to d t' dev' to' d' :
  line_sent_cancel t dev to d ≠ line_sent_alert t' dev' to' d'.
Proof.
  intros E.
  apply (header_inj t t' dev dev' ("SENT CANCELLATION TO #" +:+ pystr to +:+ ": " +:+ d)
           ("SENT ALERT TO #" +:+ pystr to' +:+ ": " +:+ d')) in E as (_ & _ & E).
  simpl in E. discriminate.
Qed.

Lemma sent_cancel_not_recv_alert t dev to d t' dev' from d' :
  line_sent_cancel t dev to d ≠ line_recv_alert t' dev' from d'.
Proof.
  intros E.
  apply (header_inj t t' dev dev' ("SENT CANCELLATION TO #" +:+ pystr to +:+ ": " +:+ d)
           ("RECEIVED ALERT FROM #" +:+ pystr_opt from +:+ ": " +:+ d')) in E as (_ & _ & E).
  simpl in E. discriminate.
Qed.

Lemma sent_cancel_not_recv_cancel t dev to d t' dev' from d' :
  line_sent_cancel t dev to d ≠ line_recv_cancel t' dev' from d'.
Proof.
  intros E.
  apply (header_inj t t' dev dev' ("SENT CANCELLATION TO #" +:+ pystr to +:+ ": " +:+ d)
           ("RECEIVED CANCELLATION FROM #" +:+ pystr_opt from +:+ ": " +:+ d')) in E as (_ & _ & E).
  simpl in E. discriminate.
Qed.

Lemma elem_of_sent_lines fmt t ev edges l :
  l ∈ sent_lines fmt t ev edges → ∃ e, e ∈ edges ∧ l = fmt t (device ev) e.1 (desc ev).
Proof. unfold sent_lines. intros (e & -> & He)%list_elem_of_fmap. eauto. Qed.

Lemma elem_of_new_entries k t ev n edges x :
  x ∈ new_entries k t ev n edges →
  ∃ e, e ∈ edges ∧ e_time x = t + e.2 ∧ device (e_event x) = e.1
       ∧ (n ≤ e_seq x < n + List.length edges)%nat.
Proof.
  revert n. induction edges as [|e r IH]; intros n; simpl; [by intros ?%elem_of_nil|].
  intros [->|Hx]%elem_of_cons.
  - exists e. unfold e_seq. split_and!; [left | done | done | simpl; lia | simpl; lia].
  - destruct (IH _ Hx) as (e' & He' & Ht & Hd & Hs). exists e'.
    split_and!; [by right | done | done | lia | lia].
Qed.

Lemma out_edges_nonneg cfg dev e : delays_nonneg cfg → e ∈ out_edges cfg dev → 0 ≤ e.2.
Proof.
  unfold delays_nonneg, out_edges. intros Hnn He.
  destruct (propagate cfg !! dev) as [edges|] eqn:E; simpl in He; [|by apply elem_of_nil in He].
  apply Hnn in E. rewrite Forall_forall in E. by apply E.
Qed.

(** Recording at a time that is not earlier than anything recorded leaves
    the recorded values as they are. *)
Lemma record_cancel_late ct dev d t dev' d' p :
  (∀ q, ledger_get ct dev d = Some q → q ≤ t) →
  ledger_get ct dev' d' = Some p →
  ledger_get (record_cancel ct dev d t) dev' d' = Some p.
Proof.
  intros Hle Hp. rewrite ledger_get_record. case_decide as Hd; [|done].
  destruct Hd as [-> ->]. rewrite Hp. f_equal. specialize (Hle _ Hp). lia.
Qed.

Lemma record_cancel_bound ct dev d t dev' d' p :
  (∀ dev d q, ledger_get ct dev d = Some q → q ≤ t) →
  ledger_get (record_cancel ct dev d t) dev' d' = Some p → p ≤ t.
Proof.
  intros Hle. rewrite ledger_get_record. case_decide; [|by apply Hle].
  destruct (ledger_get ct dev d); intros [= <-]; lia.
Qed.

(** After a record at [t], "not cancelled before [t]" means that exactly
    [t] is stored. *)
Lemma record_cancel_not_before ct dev d t :
  cancelled_before (record_cancel ct dev d t) dev d t = false →
  ledger_get (record_cancel ct dev d t) dev d = Some t.
Proof.
  unfold cancelled_before. rewrite ledger_get_record.
  rewrite decide_True by done. intros H%bool_decide_eq_false.
  f_equal. destruct (ledger_get ct dev d); lia.
Qed.

Lemma record_cancel_first ct dev d t :
  cancelled_before ct dev d t = false →
  ledger_get (record_cancel ct dev d t) dev d = Some t.
Proof.
  unfold cancelled_before. rewrite ledger_get_record, decide_True by done.
  destruct (ledger_get ct dev d) as [q|]; [|done].
  intros H%bool_decide_eq_false. f_equal. lia.
Qed.

(** What one dispatch can add to the heap, do to the ledger and append to
    the transcript. *)
Lemma dispatch_heap_cases cfg t ev st x :
  x ∈ heap (dispatch cfg t ev st) →
  x ∈ heap st ∨ ∃ k, x ∈ new_entries k t ev (seq st) (out_edges cfg (device ev)).
Proof.
  dispatch_cases; rewrite ?elem_of_app; intros H; try (by left); destruct H; eauto.
Qed.

Lemma dispatch_seq cfg t ev st :
  (seq st ≤ seq (dispatch cfg t ev st) ≤ seq st + List.length (out_edges cfg (device ev)))%nat.
Proof. dispatch_cases; lia. Qed.

Lemma dispatch_ledger_cases cfg t ev st :
  cancel_time (dispatch cfg t ev st) = cancel_time st
  ∨ (cancel_time (dispatch cfg t ev st) = record_cancel (cancel_time st) (device ev) (desc ev) t
     ∧ (kind ev = RAISE_CANCEL ∨ kind ev = RECV_CANCEL)).
Proof. dispatch_cases; auto. Qed.

Lemma dispatch_out_cases cfg t ev st l :
  l ∈ out (dispatch cfg t ev st) →
  l ∈ out st
  ∨ l = line_recv_alert t (device ev) (src ev) (desc ev)
  ∨ l = line_recv_cancel t (device ev) (src ev) (desc ev)
  ∨ (∃ to, l = line_sent_alert t (device ev) to (desc ev))
  ∨ ((∃ to, l = line_sent_cancel t (device ev) to (desc ev))
     ∧ ledger_get (cancel_time (dispatch cfg t ev st)) (device ev) (desc ev) = Some t).
Proof.
  dispatch_cases; rewrite ?elem_of_app, ?list_elem_of_singleton; intros H;
    repeat match type of H with _ ∨ _ => destruct H as [H | H] end; auto;
    apply elem_of_sent_lines in H as ([to delay] & _ & ->); simpl; eauto 6;
    do 4 right; (split; [eauto|]);
    auto using record_cancel_not_before, record_cancel_first.
Qed.

Lemma flood_step cfg s s' :
  delays_nonneg cfg → loop_body cfg s = Some s' →
  ledger_le_heap s ∧ sent_cancel_recorded s →
  ledger_le_heap s' ∧ sent_cancel_recorded s'.
Proof.
  intros Hnn (e & h' & Hpop & Ht & ->)%loop_body_Some [Hle Hrec].
  apply heappop_Some in Hpop as [Hperm Hmin].
  assert (∀ x, x ∈ h' → e_time e ≤ e_time x) as F1.
  { intros x Hx. assert (x ∈ heap s) as Hx' by (rewrite Hperm; by right).
    apply Hmin, entry_lt_false in Hx'. lia. }
  assert (∀ dev d q, ledger_get (cancel_time s) dev d = Some q → q ≤ e_time e) as F2.
  { intros dev d q Hq. eapply Hle; [|done]. rewrite Hperm. by left. }
  assert (∀ dev d q,
    ledger_get (cancel_time (dispatch cfg (e_time e) (e_event e) (set_heap h' s))) dev d = Some q →
    q ≤ e_time e) as F3.
  { intros dev d q.
    destruct (dispatch_ledger_cases cfg (e_time e) (e_event e) (set_heap h' s)) as [-> | [-> _]];
      simpl; [apply F2|]. by apply record_cancel_bound. }
  split.
  - intros x dev d p Hx Hp. apply F3 in Hp.
    apply dispatch_heap_cases in Hx as [Hx | [k Hx]]; simpl in Hx.
    + apply F1 in Hx. lia.
    + apply elem_of_new_entries in Hx as (edge & Hedge & -> & _ & _).
      apply (out_edges_nonneg cfg) in Hedge; [lia|done].
  - intros t dev to d Hl.
    apply dispatch_out_cases in Hl as [Hl | [Hl | [Hl | [[to' Hl] | [[to' Hl] Hled]]]]].
    + simpl in Hl. apply Hrec in Hl.
      destruct (dispatch_ledger_cases cfg (e_time e) (e_event e) (set_heap h' s)) as [-> | [-> _]];
        simpl; [done|]. apply record_cancel_late; [|done]. apply F2.
    + by apply sent_cancel_not_recv_alert in Hl.
    + by apply sent_cancel_not_recv_cancel in Hl.
    + by apply sent_cancel_not_sent_alert in Hl.
    + apply sent_cancel_inj in Hl as (-> & -> & _ & ->). done.
Qed.

Lemma flood_invariant cfg n :
  delays_nonneg cfg →
  ledger_le_heap (iterate cfg n (init_state cfg))
  ∧ sent_cancel_recorded (iterate cfg n (init_state cfg)).
Proof.
  intros Hnn.
  apply (iterate_inv cfg (λ s, ledger_le_heap s ∧ sent_cancel_recorded s)).
  - intros s s' Hs Hstep. by apply (flood_step cfg s s').
  - rewrite init_state_spec. split.
    + intros e dev d p _. unfold ledger_get. simpl. by rewrite lookup_empty.
    + intros t dev to d []%elem_of_nil.
Qed.

(* ===================================================================== *)
(** ** Sequence numbers and the order of pops *)
(* ===================================================================== *)

Lemma new_entries_seqs k t ev n edges :
  e_seq <$> new_entries k t ev n edges = List.seq n (List.length edges).
Proof. revert n. induction edges as [|e r IH]; intros n; simpl; [done|]. by rewrite IH. Qed.

Lemma initial_entries_seqs n evs :
  e_seq <$> initial_entries n evs = List.seq n (List.length evs).
Proof. revert n. induction evs as [|e r IH]; intros n; simpl; [done|]. by rewrite IH. Qed.

(** A dispatch leaves the heap as it is or adds the entries of one
    propagation loop. *)
Lemma dispatch_heap_shape cfg t ev st :
  ∃ added,
    heap (dispatch cfg t ev st) = heap st ++ added
    ∧ seq (dispatch cfg t ev st) = (seq st + List.length added)%nat
    ∧ (added = [] ∨ ∃ k, added = new_entries k t ev (seq st) (out_edges cfg (device ev))).
Proof.
  dispatch_cases;
    first [ exists []; rewrite app_nil_r; simpl; split_and!; [done | lia | by left]
          | eexists; split_and!; [done | | right; eauto];
            by rewrite <- (length_fmap e_seq), new_entries_seqs, length_seq ].
Qed.

Lemma seq_fresh_init cfg : seq_fresh (init_state cfg).
Proof.
  rewrite init_state_spec. split; simpl.
  - intros e He. apply (list_elem_of_fmap_2 e_seq) in He.
    rewrite initial_entries_seqs in He. apply elem_of_seq in He. lia.
  - rewrite initial_entries_seqs. apply NoDup_seq.
Qed.

Lemma seq_fresh_step cfg s s' :
  seq_fresh s → loop_body cfg s = Some s' → seq_fresh s'.
Proof.
  intros [Hlt Hnd] (e & h' & Hpop & _ & ->)%loop_body_Some.
  apply heappop_Some in Hpop as [Hperm _].
  destruct (dispatch_heap_shape cfg (e_time e) (e_event e) (set_heap h' s))
    as (added & Hh & Hs & Hadd).
  simpl in Hh, Hs.
  assert (e_seq <$> added = List.seq (seq s) (List.length added)) as Hseqs.
  { destruct Hadd as [-> | [k ->]]; [done|].
    by rewrite new_entries_seqs, <- (length_fmap e_seq), new_entries_seqs, length_seq. }
  assert (∀ x, x ∈ h' → (e_seq x < seq s)%nat) as Hh'.
  { intros x Hx. apply Hlt. rewrite Hperm. by right. }
  split; rewrite Hh, ?Hs.
  - intros x [Hx | Hx]%elem_of_app.
    + apply Hh' in Hx. lia.
    + apply (list_elem_of_fmap_2 e_seq) in Hx. rewrite Hseqs in Hx.
      apply elem_of_seq in Hx. lia.
  - rewrite fmap_app. apply NoDup_app. split_and!.
    + rewrite Hperm in Hnd. simpl in Hnd. by apply NoDup_cons in Hnd as [_ ?].
    + intros n (x & -> & Hx)%list_elem_of_fmap. rewrite Hseqs, elem_of_seq.
      apply Hh' in Hx. lia.
    + rewrite Hseqs. apply NoDup_seq.
Qed.

(** Entries popped from a state were in its heap or were pushed later, and
    among entries with the same time the one with the smaller sequence
    number is popped first. *)
Lemma pops_sorted cfg n st :
  seq_fresh st →
  (∀ a, a ∈ pops cfg n st → a ∈ heap st ∨ (seq st ≤ e_seq a)%nat)
  ∧ (∀ i j a b,
       pops cfg n st !! i = Some a → pops cfg n st !! j = Some b →
       (i < j)%nat → e_time a = e_time b → (e_seq a < e_seq b)%nat).
Proof.
  revert st. induction n as [|n IH]; intros st Hfresh; simpl.
  { split; [by intros a ?%elem_of_nil | by intros [|i] j a b]. }
  destruct (heappop (heap st)) as [[e h']|] eqn:Hpop.
  2: { split; [by intros a ?%elem_of_nil | by intros [|i] j a b]. }
  pose proof (heappop_Some _ _ _ Hpop) as [Hperm Hmin].
  assert (e ∈ heap st) as He by (rewrite Hperm; by left).
  destruct (loop_body cfg st) as [st'|] eqn:Hbody.
  2: { split.
       - intros a ->%list_elem_of_singleton. by left.
       - intros i j a b _ Hb%lookup_lt_Some Hij. simpl in Hb. lia. }
  pose proof (seq_fresh_step _ _ _ Hfresh Hbody) as Hfresh'.
  destruct (IH st' Hfresh') as [IHa IHb].
  apply loop_body_Some in Hbody as (e2 & h2 & Hpop2 & _ & ->).
  rewrite Hpop in Hpop2. injection Hpop2 as <- <-.
  set (st1 := dispatch cfg (e_time e) (e_event e) (set_heap h' st)) in *.
  assert (∀ b, b ∈ pops cfg n st1 → b ∈ h' ∨ (seq st ≤ e_seq b)%nat) as Hlater.
  { intros b Hb. apply IHa in Hb as [Hb | Hb].
    - apply dispatch_heap_cases in Hb as [Hb | [k Hb]]; simpl in Hb; [by left|].
      apply elem_of_new_entries in Hb as (_ & _ & _ & _ & Hs). right. lia.
    - right. pose proof (dispatch_seq cfg (e_time e) (e_event e) (set_heap h' st)) as Hs.
      simpl in Hs. fold st1 in Hs. lia. }
  split.
  - intros a [-> | Ha]%elem_of_cons; [by left|].
    apply Hlater in Ha as [Ha | Ha]; [left | by right]. rewrite Hperm. by right.
  - intros [|i] [|j] a b; simpl; try lia.
    + intros [= <-] Hb _ Ht.
      apply list_elem_of_lookup_2, Hlater in Hb as [Hb | Hb].
      * assert (b ∈ heap st) as Hb' by (rewrite Hperm; by right).
        apply Hmin, entry_lt_false in Hb'.
        destruct Hfresh as [_ Hnd]. rewrite Hperm in Hnd. simpl in Hnd.
        apply NoDup_cons in Hnd as [Hnotin _].
        assert (e_seq e ≠ e_seq b) as Hne.
        { intros Heq. apply Hnotin. rewrite Heq. by apply list_elem_of_fmap_2. }
        lia.
      * destruct Hfresh as [Hlt _]. apply Hlt in He. lia.
    + intros Ha Hb Hij. apply (IHb i j); [done | done | lia].
Qed.

Lemma seq_fresh_inj st a b :
  seq_fresh st → a ∈ heap st → b ∈ heap st → e_seq a = e_seq b → a = b.
Proof.
  intros [_ Hnd]. revert Hnd. generalize (heap st) as h.
  induction h as [|x h IH]; intros Hnd Ha Hb Heq; [by apply elem_of_nil in Ha|].
  rewrite fmap_cons in Hnd. apply NoDup_cons in Hnd as [Hx Hnd].
  apply elem_of_cons in Ha as [-> | Ha]; apply elem_of_cons in Hb as [-> | Hb]; auto.
  - exfalso. apply Hx. rewrite Heq. by apply list_elem_of_fmap_2.
  - exfalso. apply Hx. rewrite <- Heq. by apply list_elem_of_fmap_2.
Qed.

(** The entries pending after some iterations were pending before or were
    pushed in between. *)
Lemma heap_iterate_origin cfg n st a :
  a ∈ heap (iterate cfg n st) → a ∈ heap st ∨ (seq st ≤ e_seq a)%nat.
Proof.
  revert st. induction n as [|n IH]; intros st; simpl; [by left|].
  destruct (loop_body cfg st) as [st'|] eqn:Hbody; [|by left].
  intros Ha. apply loop_body_Some in Hbody as (e & h' & Hpop & _ & ->).
  apply heappop_Some in Hpop as [Hperm _].
  pose proof (dispatch_seq cfg (e_time e) (e_event e) (set_heap h' st)) as Hs. simpl in Hs.
  apply IH in Ha as [Ha | Ha]; [|right; lia].
  apply dispatch_heap_cases in Ha as [Ha | [k Ha]]; simpl in Ha.
  - left. rewrite Hperm. by right.
  - apply elem_of_new_entries in Ha as (_ & _ & _ & _ & Hn). right. lia.
Qed.

(** An entry that was popped was pushed before every entry of the same time
    that is still pending. *)
Lemma pops_before_pending cfg n st a b :
  seq_fresh st →
  b ∈ pops cfg n st → a ∈ heap (iterate cfg n st) →
  e_time a = e_time b → a ≠ b → (e_seq b < e_seq a)%nat.
Proof.
  revert st. induction n as [|n IH]; intros st Hfresh; simpl; [by intros ?%elem_of_nil|].
  destruct (heappop (heap st)) as [[e h']|] eqn:Hpop; [|by intros ?%elem_of_nil].
  pose proof (heappop_Some _ _ _ Hpop) as [Hperm Hmin].
  assert (e ∈ heap st) as He by (rewrite Hperm; by left).
  assert (∀ x, x ∈ heap st → e_time x = e_time e → x ≠ e → (e_seq e < e_seq x)%nat) as Hfirst.
  { intros x Hx Ht Hne. pose proof (Hmin x Hx) as Hle. apply entry_lt_false in Hle.
    assert (e_seq x ≠ e_seq e) by (intros Heq; by apply Hne, (seq_fresh_inj st)).
    lia. }
  destruct (loop_body cfg st) as [st'|] eqn:Hbody.
  2: { intros ->%list_elem_of_singleton Ha Ht Hne. by apply Hfirst. }
  pose proof (seq_fresh_step _ _ _ Hfresh Hbody) as Hfresh'.
  intros [-> | Hb]%elem_of_cons Ha Ht Hne; [|by apply (IH st')].
  apply heap_iterate_origin in Ha.
  apply loop_body_Some in Hbody as (e2 & h2 & Hpop2 & _ & ->).
  rewrite Hpop in Hpop2. injection Hpop2 as <- <-.
  pose proof (dispatch_seq cfg (e_time e) (e_event e) (set_heap h' st)) as Hs. simpl in Hs.
  destruct Hfresh as [Hlt _]. pose proof (Hlt e He) as Hse.
  destruct Ha as [Ha | Ha]; [|lia].
  apply dispatch_heap_cases in Ha as [Ha | [k Ha]]; simpl in Ha.
  - apply Hfirst; [rewrite Hperm; by right | done | done].
  - apply elem_of_new_entries in Ha as (_ & _ & _ & _ & Hn). lia.
Qed.

(* ===================================================================== *)
(** ** Termination *)
(* ===================================================================== *)

Lemma weight_mono deg k k' : (k ≤ k')%nat → (weight deg k ≤ weight deg k')%nat.
Proof.
  assert (∀ k, (weight deg k ≤ weight deg (S k))%nat) as Hstep.
  { induction k0 as [|k0 IH]; simpl in *; [lia|]. apply le_n_S, Nat.mul_le_mono_l, IH. }
  induction 1 as [|k' _ IH]; [done|]. etrans; [apply IH | apply Hstep].
Qed.

Lemma out_degree_le cfg dev : (List.length (out_edges cfg dev) ≤ max_out_degree cfg)%nat.
Proof.
  unfold out_edges, max_out_degree.
  destruct (propagate cfg !! dev) as [edges|] eqn:E; simpl; [|lia].
  apply max_list_elem_of_le.
  apply (list_elem_of_fmap_2 (λ kv : Z * list (Z * Z), List.length kv.2) _ (dev, edges)).
  by apply elem_of_map_to_list.
Qed.

Lemma sum_list_bound {A} (f : A → nat) (c : nat) (l : list A) :
  (∀ x, x ∈ l → (f x ≤ c)%nat) → (sum_list_with f l ≤ List.length l * c)%nat.
Proof.
  induction l as [|x l IH]; intros H; csimpl; [lia|].
  assert (f x ≤ c)%nat by (apply H; by left).
  assert (sum_list_with f l ≤ List.length l * c)%nat by (apply IH; intros; apply H; by right).
  lia.
Qed.

Lemma new_entries_length k t ev n edges :
  List.length (new_entries k t ev n edges) = List.length edges.
Proof. by rewrite <- (length_fmap e_seq), new_entries_seqs, length_seq. Qed.

(** Positive delays leave no zero-delay edge at all. *)
Lemma delays_pos_no_zero_delay_cycle cfg : delays_pos cfg → no_zero_delay_cycle cfg.
Proof.
  intros Hpos. exists (λ _, 0%nat), 0%nat. split; [done|].
  intros dev e He Hz. exfalso. unfold delays_pos, out_edges in *.
  destruct (propagate cfg !! dev) as [edges|] eqn:E; simpl in He; [|by apply elem_of_nil in He].
  apply Hpos in E. rewrite Forall_forall in E. apply E in He. lia.
Qed.

Lemma delays_pos_nonneg cfg : delays_pos cfg → delays_nonneg cfg.
Proof.
  unfold delays_pos, delays_nonneg. intros Hpos dev edges Hdev.
  eapply Forall_impl; [by apply (Hpos dev)|]. intros e. simpl. lia.
Qed.

(** Without a zero-delay cycle every iteration that stays in the loop
    lowers the measure. *)
Lemma measure_step cfg rank bound s s' :
  delays_nonneg cfg → zero_delay_ranked cfg rank bound →
  loop_body cfg s = Some s' →
  (measure cfg rank bound s' < measure cfg rank bound s)%nat.
Proof.
  intros Hnn [Hbound Hrank] (e & h' & Hpop & Ht & ->)%loop_body_Some.
  apply heappop_Some in Hpop as [Hperm _].
  destruct (dispatch_heap_shape cfg (e_time e) (e_event e) (set_heap h' s))
    as (added & Hh & _ & Hadd).
  unfold measure. rewrite Hh, Hperm. simpl. rewrite sum_list_with_app.
  enough (sum_list_with (entry_weight cfg rank bound) added < entry_weight cfg rank bound e)%nat
    by lia.
  unfold entry_weight at 2.
  destruct (Z.to_nat (cfg_length cfg - e_time e)) as [|k0] eqn:Hk; [lia|].
  assert (entry_index cfg rank bound e
          = S (k0 * S bound + bound + rank (device (e_event e)))) as ->
    by (unfold entry_index; rewrite Hk; lia).
  set (i0 := (k0 * S bound + bound + rank (device (e_event e)))%nat).
  simpl.
  enough (sum_list_with (entry_weight cfg rank bound) added
          ≤ max_out_degree cfg * weight (max_out_degree cfg) i0)%nat by lia.
  destruct Hadd as [-> | [k ->]]; [simpl; lia|].
  etrans; [apply (sum_list_bound _ (weight (max_out_degree cfg) i0))|].
  - intros x (edge & Hedge & Hx & Hdev & _)%elem_of_new_entries.
    unfold entry_weight. apply weight_mono. unfold entry_index. rewrite Hx, Hdev.
    pose proof (out_edges_nonneg cfg _ _ Hnn Hedge) as Hd.
    pose proof (Hbound edge.1) as Hb.
    destruct (decide (edge.2 = 0)) as [Hz | Hnz].
    + pose proof (Hrank _ _ Hedge Hz) as Hr.
      rewrite Hz, Z.add_0_r, Hk. unfold i0. lia.
    + assert (Z.to_nat (cfg_length cfg - (e_time e + edge.2)) ≤ k0)%nat as Hle by lia.
      apply (Nat.mul_le_mono_r _ _ (S bound)) in Hle. unfold i0. lia.
  - rewrite new_entries_length. apply Nat.mul_le_mono_r, out_degree_le.
Qed.

Lemma loop_terminates cfg rank bound :
  delays_nonneg cfg → zero_delay_ranked cfg rank bound →
  ∀ fuel st, (measure cfg rank bound st < fuel)%nat → ∃ st', loop cfg fuel st = Some st'.
Proof.
  intros Hnn Hrank. induction fuel as [|fuel IH]; intros st Hm; [lia|]. simpl.
  destruct (loop_body cfg st) as [s1|] eqn:E; [|eauto].
  apply IH. apply (measure_step cfg rank bound) in E; [lia | done | done].
Qed.

(** On the zero-delay self loop every iteration re-creates the state it
    started from, up to the counter and the transcript. *)
Lemma zero_delay_loop_spins fuel n m o :
  loop zero_delay_loop fuel
    (mkState [(0, n, mkEvent 0 RECV_ALERT 1 "x" (Some 1))] m ∅ o) = None.
Proof.
  revert n m o. induction fuel as [|fuel IH]; intros n m o; [done|].
  cbn [loop]. unfold loop_body. cbn [heap heappop entry_lt].
  rewrite bool_decide_eq_false_2 by (vm_compute; congruence).
  unfold dispatch. cbn [e_event e_time kind fst snd set_heap emit cancel_time].
  unfold cancelled_before, ledger_get. rewrite lookup_empty. simpl.
  rewrite fan_out_spec. unfold out_edges. simpl.
  rewrite lookup_singleton_eq. simpl. apply IH.
Qed.

(* ===================================================================== *)
(** ** Facts about the parser *)
(* ===================================================================== *)

Ltac bind_cases :=
  repeat match goal with
         | |- context [bind ?m _] => destruct m eqn:?; cbn [bind]
         end.

Lemma parse_line_inr st raw st' :
  parse_line st raw = inr st' →
  (line_tag raw = None ∨ ∃ tag, line_tag raw = Some tag ∧ tag ∈ known_tags)
  ∧ (line_tag raw ≠ Some "LENGTH"%string → p_length st' = p_length st).
Proof.
  unfold parse_line, line_tag.
  destruct (String.eqb (strip raw) EmptyString || starts_with_hash (strip raw)).
  { intros [= <-]. auto. }
  unfold part at 1. rewrite <- head_lookup.
  destruct (head (split (strip raw))) as [tag|]; cbn [bind]; [|done].
  destruct (String.eqb tag "LENGTH") eqn:E1.
  { apply String.eqb_eq in E1 as ->. bind_cases; try done. intros _. split; [|done].
    right. eexists. split; [done|]. unfold known_tags. set_solver. }
  destruct (String.eqb tag "DEVICE") eqn:E2.
  { apply String.eqb_eq in E2 as ->. bind_cases; try done. intros [= <-]. split; [|done].
    right. eexists. split; [done|]. unfold known_tags. set_solver. }
  destruct (String.eqb tag "PROPAGATE") eqn:E3.
  { apply String.eqb_eq in E3 as ->. bind_cases; try done. intros [= <-]. split; [|done].
    right. eexists. split; [done|]. unfold known_tags. set_solver. }
  destruct (String.eqb tag "ALERT") eqn:E4.
  { apply String.eqb_eq in E4 as ->. bind_cases; try done. intros [= <-]. split; [|done].
    right. eexists. split; [done|]. unfold known_tags. set_solver. }
  destruct (String.eqb tag "CANCEL") eqn:E5; [|done].
  apply String.eqb_eq in E5 as ->. bind_cases; try done. intros [= <-]. split; [|done].
  right. eexists. split; [done|]. unfold known_tags. set_solver.
Qed.

Lemma parse_lines_inr st lines st' :
  parse_lines st lines = inr st' →
  ¬ has_unknown_tag lines ∧ (has_no_length lines → p_length st' = p_length st).
Proof.
  revert st. induction lines as [|raw rest IH]; intros st; simpl.
  - intros [= <-]. split; [|done]. intros (r & tag & Hr & _). by apply elem_of_nil in Hr.
  - destruct (parse_line st raw) as [e|st1] eqn:E; cbn [bind]; [done|].
    intros Hrest. apply parse_line_inr in E as [Htag Hlen].
    apply IH in Hrest as [Hunk Hlen'].
    split.
    + intros (r & tag & [-> | Hr]%elem_of_cons & Ht & Hk).
      * destruct Htag as [Htag | (tag' & Htag & Hk')]; congruence.
      * apply Hunk. exists r, tag. done.
    + intros Hno. rewrite Hlen', Hlen; [done | | ].
      * apply Hno. by left.
      * intros r Hr. apply Hno. by right.
Qed.

(* ===================================================================== *)
(** ** More facts about the dispatch *)
(* ===================================================================== *)

Lemma cancelled_before_record ct dev d t :
  cancelled_before ct dev d t = false →
  cancelled_before (record_cancel ct dev d t) dev d t = false.
Proof.
  intros H. unfold cancelled_before. rewrite (record_cancel_first _ _ _ _ H).
  apply bool_decide_eq_false. lia.
Qed.

Lemma cancelled_before_stored ct dev d t :
  ledger_get ct dev d = Some t → cancelled_before ct dev d t = false.
Proof. unfold cancelled_before. intros ->. apply bool_decide_eq_false. lia. Qed.

(** An alert event at [t] that is not cancelled before [t] is forwarded
    along every outgoing edge. *)
Lemma dispatch_alert_forwarded cfg t ev st :
  is_cancel (kind ev) = false →
  cancelled_before (cancel_time st) (device ev) (desc ev) t = false →
  dispatch cfg t ev st =
  mkState (heap st ++ new_entries RECV_ALERT t ev (seq st) (out_edges cfg (device ev)))
          (seq st + List.length (out_edges cfg (device ev)))
          (cancel_time st)
          (out st ++ recv_prefix t ev ++ sent_lines line_sent_alert t ev (out_edges cfg (device ev))).
Proof.
  intros Hk Hc. unfold dispatch, recv_prefix.
  destruct (kind ev); try discriminate; cbn zeta; cbn [emit cancel_time]; rewrite Hc,
    fan_out_spec; cbn [heap seq cancel_time out emit app]; by rewrite <- ?app_assoc.
Qed.

(** A cancellation event at [t] that is not cancelled before [t] is
    forwarded along every outgoing edge, and [t] is stored afterwards. *)
Lemma dispatch_cancel_forwarded cfg t ev st :
  is_cancel (kind ev) = true →
  cancelled_before (cancel_time st) (device ev) (desc ev) t = false →
  dispatch cfg t ev st =
  mkState (heap st ++ new_entries RECV_CANCEL t ev (seq st) (out_edges cfg (device ev)))
          (seq st + List.length (out_edges cfg (device ev)))
          (record_cancel (cancel_time st) (device ev) (desc ev) t)
          (out st ++ recv_prefix t ev ++ sent_lines line_sent_cancel t ev (out_edges cfg (device ev))).
Proof.
  intros Hk Hc. unfold dispatch, recv_prefix.
  destruct (kind ev); try discriminate; cbn zeta; cbn [emit do_record cancel_time];
    rewrite ?Hc, ?(cancelled_before_record _ _ _ _ Hc), fan_out_spec;
    cbn [heap seq cancel_time out emit do_record app]; by rewrite <- ?app_assoc.
Qed.

Lemma dispatch_cancel_ledger cfg t ev st :
  is_cancel (kind ev) = true →
  cancel_time (dispatch cfg t ev st) = record_cancel (cancel_time st) (device ev) (desc ev) t.
Proof. intros Hk. revert Hk. dispatch_cases; done. Qed.

Lemma ledger_step_mono cfg s s' dev d p :
  loop_body cfg s = Some s' →
  (∃ q, ledger_get (cancel_time s) dev d = Some q ∧ q ≤ p) →
  ∃ q, ledger_get (cancel_time s') dev d = Some q ∧ q ≤ p.
Proof.
  intros (e & h' & _ & _ & ->)%loop_body_Some (q & Hq & Hle).
  destruct (dispatch_ledger_cases cfg (e_time e) (e_event e) (set_heap h' s)) as [-> | [-> _]];
    simpl; [eauto|].
  rewrite ledger_get_record. case_decide as Hd; [|eauto].
  destruct Hd as [-> ->]. rewrite Hq. eexists. split; [done|]. lia.
Qed.

Lemma loop_fuel_mono cfg f1 f2 st a :
  loop cfg f1 st = Some a → (f1 ≤ f2)%nat → loop cfg f2 st = Some a.
Proof.
  revert f2 st. induction f1 as [|f1 IH]; intros f2 st; simpl; [done|].
  intros H Hle. destruct f2 as [|f2]; [lia|]. simpl.
  destruct (loop_body cfg st) as [s1|]; [|done]. apply IH; [done|lia].
Qed.

Lemma run_simulation_Some fuel cfg tr :
  _run_simulation fuel cfg = Some tr →
  ∃ st, loop cfg fuel (init_state cfg) = Some st
        ∧ tr = out st ++ [line_end (cfg_length cfg)]
        ∧ st = iterate cfg fuel (init_state cfg).
Proof.
  unfold _run_simulation. destruct (loop cfg fuel (init_state cfg)) as [st|] eqn:E; [|done].
  intros [= <-]. exists st. split_and!; [done | done |]. by apply loop_iterate in E as [-> _].
Qed.

Lemma sent_cancel_not_end t dev to d h : line_sent_cancel t dev to d ≠ line_end h.
Proof.
  unfold line_sent_cancel, line_end. simpl. intros [= E].
  apply append_cut in E as [_ E]; [done | by apply pystr_no_char ..].
Qed.

Lemma delays_nonneg_same_time_cancels : delays_nonneg same_time_cancels.
Proof.
  unfold delays_nonneg, same_time_cancels. simpl. apply map_Forall_singleton.
  repeat constructor; simpl; lia.
Defined.

(* ===================================================================== *)
(** ** The properties of the specification *)
(* ===================================================================== *)

(** C1, as stated, fails: with the zero-delay self loop [1 -> 1] the horizon
    and the delays are non-negative, yet no amount of fuel lets the loop
    finish: every [RECV_ALERT] at time 0 enqueues another one at time 0. *)
Lemma C1_zero_delay_loop_never_returns :
  0 ≤ cfg_length zero_delay_loop ∧ delays_nonneg zero_delay_loop
  ∧ ∀ fuel, _run_simulation fuel zero_delay_loop = None.
Proof.
  split_and!.
  - simpl. lia.
  - unfold delays_nonneg, zero_delay_loop. simpl. apply map_Forall_singleton.
    repeat constructor; simpl; lia.
  - intros [|fuel]; [done|]. unfold _run_simulation. cbn [loop].
    assert (loop_body zero_delay_loop (init_state zero_delay_loop)
            = Some (mkState [(0, 1%nat, mkEvent 0 RECV_ALERT 1 "x" (Some 1))] 2 ∅
                      ["@0: #1 SENT ALERT TO #1: x"%string])) as ->
      by (vm_compute; reflexivity).
    by rewrite zero_delay_loop_spins.
Qed.

(** C1 (amended): for every configuration with a non-negative horizon and
    non-negative propagation delays whose zero-delay edges form no cycle (in
    particular when every delay is positive) the loop of [_run_simulation]
    terminates, by queue exhaustion or by popping an entry whose time is at
    or after the horizon, and the transcript returned ends with the line
    [@{horizon}: END], which occurs nowhere else in it. *)
Theorem C1_terminates_without_zero_delay_cycle cfg :
  0 ≤ cfg_length cfg → delays_nonneg cfg → no_zero_delay_cycle cfg →
  ∃ fuel st,
    loop cfg fuel (init_state cfg) = Some st
    ∧ (heap st = [] ∨ ∃ e h', heappop (heap st) = Some (e, h') ∧ cfg_length cfg ≤ e_time e)
    ∧ _run_simulation fuel cfg = Some (out st ++ [line_end (cfg_length cfg)])
    ∧ line_end (cfg_length cfg) ∉ out st.
Proof.
  intros _ Hnn (rank & bound & Hrank).
  set (fuel := S (measure cfg rank bound (init_state cfg))).
  destruct (loop_terminates cfg rank bound Hnn Hrank fuel (init_state cfg))
    as [st Hst]; [unfold fuel; lia|].
  exists fuel, st. split_and!.
  - done.
  - apply loop_iterate in Hst as [_ Hend]. unfold loop_body in Hend.
    destruct (heappop (heap st)) as [[e h']|] eqn:E.
    + right. exists e, h'. split; [done|]. by case_bool_decide.
    + left. by apply heappop_None.
  - unfold _run_simulation. by rewrite Hst.
  - apply loop_iterate in Hst as [-> _]. intros Hin.
    pose proof (body_lines_invariant cfg fuel) as Hall.
    rewrite Forall_forall in Hall. by apply Hall, body_line_not_end in Hin.
Qed.

Lemma delays_nonneg_zero_delay_edge : delays_nonneg zero_delay_edge.
Proof.
  unfold delays_nonneg, zero_delay_edge. simpl.
  apply map_Forall_insert_2; [|apply map_Forall_singleton]; repeat constructor; simpl; lia.
Defined.

Lemma no_cycle_zero_delay_edge : no_zero_delay_cycle zero_delay_edge.
Proof.
  exists rank_1_over_2, 1%nat. split.
  - intros dev. unfold rank_1_over_2. case_bool_decide; lia.
  - intros dev e. unfold out_edges, zero_delay_edge. simpl.
    destruct (decide (dev = 1)) as [-> | H1].
    + rewrite lookup_insert_eq. simpl. intros ->%list_elem_of_singleton _. vm_compute. lia.
    + rewrite lookup_insert_ne by done.
      destruct (decide (dev = 2)) as [-> | H2].
      * rewrite lookup_singleton_eq. simpl. by intros ->%list_elem_of_singleton.
      * rewrite lookup_singleton_ne by done. simpl. by intros ?%elem_of_nil.
Defined.

Lemma C1_terminates_witness :
  0 ≤ cfg_length zero_delay_edge ∧ delays_nonneg zero_delay_edge
  ∧ no_zero_delay_cycle zero_delay_edge
  ∧ ∃ fuel st,
      loop zero_delay_edge fuel (init_state zero_delay_edge) = Some st
      ∧ (heap st = []
         ∨ ∃ e h', heappop (heap st) = Some (e, h') ∧ cfg_length zero_delay_edge ≤ e_time e)
      ∧ _run_simulation fuel zero_delay_edge
        = Some (out st ++ [line_end (cfg_length zero_delay_edge)])
      ∧ line_end (cfg_length zero_delay_edge) ∉ out st.
Proof.
  assert (0 ≤ cfg_length zero_delay_edge) as H0 by (simpl; lia).
  split_and!; [exact H0 | apply delays_nonneg_zero_delay_edge | apply no_cycle_zero_delay_edge |].
  apply (C1_terminates_without_zero_delay_cycle zero_delay_edge H0
           delays_nonneg_zero_delay_edge no_cycle_zero_delay_edge).
Defined.

(** The run of [zero_delay_edge] ends at the horizon 7. *)
Example zero_delay_edge_transcript :
  _run_simulation 8 zero_delay_edge =
  Some [ "@0: #1 SENT ALERT TO #2: x"; "@0: #2 RECEIVED ALERT FROM #1: x";
         "@0: #2 SENT ALERT TO #1: x"; "@3: #1 RECEIVED ALERT FROM #2: x";
         "@3: #1 SENT ALERT TO #2: x"; "@3: #2 RECEIVED ALERT FROM #1: x";
         "@3: #2 SENT ALERT TO #1: x"; "@6: #1 RECEIVED ALERT FROM #2: x";
         "@6: #1 SENT ALERT TO #2: x"; "@6: #2 RECEIVED ALERT FROM #1: x";
         "@6: #2 SENT ALERT TO #1: x"; "@7: END" ]%string.
Proof. vm_compute. reflexivity. Qed.

(** In particular the loop terminates when every delay is positive. *)
Corollary terminates_with_positive_delays cfg :
  delays_pos cfg → ∃ fuel tr, _run_simulation fuel cfg = Some tr.
Proof.
  intros Hpos.
  destruct (delays_pos_no_zero_delay_cycle cfg Hpos) as (rank & bound & Hrank).
  destruct (loop_terminates cfg rank bound (delays_pos_nonneg cfg Hpos) Hrank
              (S (measure cfg rank bound (init_state cfg))) (init_state cfg)) as [st Hst]; [lia|].
  eexists _, _. unfold _run_simulation. by rewrite Hst.
Qed.

(** C2: every line the loop produces, after any number of iterations,
    carries a timestamp below the horizon; and in every transcript
    [_run_simulation] returns these lines are followed by the terminal line
    alone, whose timestamp is the horizon. *)
Theorem C2_horizon_exclusive cfg :
  (∀ n, Forall (λ l, ∃ t, timestamp l = Some t ∧ t < cfg_length cfg)
          (out (iterate cfg n (init_state cfg))))
  ∧ (∀ fuel tr,
       _run_simulation fuel cfg = Some tr →
       ∃ body,
         tr = body ++ [line_end (cfg_length cfg)]
         ∧ Forall (λ l, ∃ t, timestamp l = Some t ∧ t < cfg_length cfg) body
         ∧ timestamp (line_end (cfg_length cfg)) = Some (cfg_length cfg)).
Proof.
  assert (∀ n, Forall (λ l, ∃ t, timestamp l = Some t ∧ t < cfg_length cfg)
                 (out (iterate cfg n (init_state cfg)))) as Hbody.
  { intros n. eapply Forall_impl; [apply body_lines_invariant|].
    intros l Hl. by apply (body_line_timestamp cfg). }
  split; [done|].
  intros fuel tr (st & _ & -> & ->)%run_simulation_Some.
  eexists. split_and!; [done | apply Hbody |].
  apply (timestamp_header _ " END").
Qed.

Lemma C2_horizon_exclusive_witness :
  _run_simulation 5 scenario2 =
    Some [ "@0: #1 SENT ALERT TO #2: fire"; "@1: #1 SENT CANCELLATION TO #2: fire";
           "@3: #2 RECEIVED ALERT FROM #1: fire";
           "@4: #2 RECEIVED CANCELLATION FROM #1: fire"; "@100: END" ]%string
  ∧ ∃ body,
      [ "@0: #1 SENT ALERT TO #2: fire"; "@1: #1 SENT CANCELLATION TO #2: fire";
        "@3: #2 RECEIVED ALERT FROM #1: fire"; "@4: #2 RECEIVED CANCELLATION FROM #1: fire";
        "@100: END" ]%string = body ++ [line_end (cfg_length scenario2)]
      ∧ Forall (λ l, ∃ t, timestamp l = Some t ∧ t < cfg_length scenario2) body
      ∧ timestamp (line_end (cfg_length scenario2)) = Some (cfg_length scenario2).
Proof.
  assert (_run_simulation 5 scenario2 =
    Some [ "@0: #1 SENT ALERT TO #2: fire"; "@1: #1 SENT CANCELLATION TO #2: fire";
           "@3: #2 RECEIVED ALERT FROM #1: fire";
           "@4: #2 RECEIVED CANCELLATION FROM #1: fire"; "@100: END" ]%string) as Hrun
    by (vm_compute; reflexivity).
  split; [exact Hrun|].
  apply (proj2 (C2_horizon_exclusive scenario2) 5%nat _ Hrun).
Defined.

(** The timestamps of the lines of that transcript. *)
Example scenario2_timestamps :
  timestamp <$> [ "@0: #1 SENT ALERT TO #2: fire"; "@1: #1 SENT CANCELLATION TO #2: fire";
                  "@3: #2 RECEIVED ALERT FROM #1: fire";
                  "@4: #2 RECEIVED CANCELLATION FROM #1: fire"; "@100: END" ]%string
  = [ Some 0; Some 1; Some 3; Some 4; Some 100 ].
Proof. vm_compute. reflexivity. Qed.

(** C3 (amended): for a configuration without negative delays, all the
    SENT CANCELLATION lines of one device for one description carry the same
    timestamp, after any number of iterations and in the transcript
    returned: the set of times at which the device forwards that
    cancellation has at most one element. *)
Theorem C3_cancellation_sent_at_one_time cfg dev d t1 to1 t2 to2 :
  delays_nonneg cfg →
  (∀ n,
     line_sent_cancel t1 dev to1 d ∈ out (iterate cfg n (init_state cfg)) →
     line_sent_cancel t2 dev to2 d ∈ out (iterate cfg n (init_state cfg)) →
     t1 = t2)
  ∧ (∀ fuel tr,
       _run_simulation fuel cfg = Some tr →
       line_sent_cancel t1 dev to1 d ∈ tr →
       line_sent_cancel t2 dev to2 d ∈ tr →
       t1 = t2).
Proof.
  intros Hnn.
  assert (∀ n,
     line_sent_cancel t1 dev to1 d ∈ out (iterate cfg n (init_state cfg)) →
     line_sent_cancel t2 dev to2 d ∈ out (iterate cfg n (init_state cfg)) →
     t1 = t2) as Hiter.
  { intros n H1 H2. destruct (flood_invariant cfg n Hnn) as [_ Hrec].
    apply Hrec in H1, H2. congruence. }
  split; [done|].
  intros fuel tr (st & _ & -> & ->)%run_simulation_Some H1 H2.
  apply elem_of_app in H1 as [H1 | H1%list_elem_of_singleton];
    [|by apply sent_cancel_not_end in H1].
  apply elem_of_app in H2 as [H2 | H2%list_elem_of_singleton];
    [|by apply sent_cancel_not_end in H2].
  by apply (Hiter fuel).
Qed.

Lemma C3_cancellation_sent_at_one_time_witness :
  delays_nonneg same_time_cancels
  ∧ _run_simulation 5 same_time_cancels =
      Some [ "@0: #1 SENT CANCELLATION TO #2: x"; "@0: #1 SENT CANCELLATION TO #2: x";
             "@3: #2 RECEIVED CANCELLATION FROM #1: x";
             "@3: #2 RECEIVED CANCELLATION FROM #1: x"; "@100: END" ]%string
  ∧ 0 = 0.
Proof.
  assert (_run_simulation 5 same_time_cancels =
      Some [ "@0: #1 SENT CANCELLATION TO #2: x"; "@0: #1 SENT CANCELLATION TO #2: x";
             "@3: #2 RECEIVED CANCELLATION FROM #1: x";
             "@3: #2 RECEIVED CANCELLATION FROM #1: x"; "@100: END" ]%string) as Hrun
    by (vm_compute; reflexivity).
  split_and!; [apply delays_nonneg_same_time_cancels | exact Hrun |].
  apply (proj2 (C3_cancellation_sent_at_one_time same_time_cancels 1 "x" 0 2 0 2
                  delays_nonneg_same_time_cancels) 5%nat _ Hrun).
  - apply (list_elem_of_lookup_2 _ 0%nat). vm_compute. reflexivity.
  - apply (list_elem_of_lookup_2 _ 1%nat). vm_compute. reflexivity.
Defined.

(** C3, as stated for every configuration, fails: with the negative delay
    of [negative_delay] events are not handled in time order, and device 1
    sends the cancellation of ["m"] at time 5 and again at time 4. *)
Lemma C3_negative_delay_sends_at_two_times :
  ∃ tr, _run_simulation 6 negative_delay = Some tr
        ∧ line_sent_cancel 5 1 2 "m" ∈ tr ∧ line_sent_cancel 4 1 2 "m" ∈ tr ∧ 5 ≠ 4.
Proof.
  eexists. split; [vm_compute; reflexivity|]. split_and!.
  - apply (list_elem_of_lookup_2 _ 0%nat). vm_compute. reflexivity.
  - apply (list_elem_of_lookup_2 _ 3%nat). vm_compute. reflexivity.
  - lia.
Qed.

Example negative_delay_transcript :
  _run_simulation 6 negative_delay =
  Some [ "@5: #1 SENT CANCELLATION TO #2: m"; "@6: #3 SENT CANCELLATION TO #1: m";
         "@4: #1 RECEIVED CANCELLATION FROM #3: m"; "@4: #1 SENT CANCELLATION TO #2: m";
         "@5: #2 RECEIVED CANCELLATION FROM #1: m"; "@6: #2 RECEIVED CANCELLATION FROM #1: m";
         "@100: END" ]%string.
Proof. vm_compute. reflexivity. Qed.

(** C4: the ledger query is true exactly when a time is stored for the pair
    and that time is strictly less than [t]; hence an alert event handled at
    [t] by a device for which exactly [t] is stored is forwarded along every
    outgoing edge. *)
Theorem C4_strict_ledger_query cfg st t ev :
  (∀ ct dev d,
     cancelled_before ct dev d t = true ↔ ∃ prev, ledger_get ct dev d = Some prev ∧ prev < t)
  ∧ (is_cancel (kind ev) = false →
     ledger_get (cancel_time st) (device ev) (desc ev) = Some t →
     out (dispatch cfg t ev st)
       = out st ++ recv_prefix t ev
           ++ sent_lines line_sent_alert t ev (out_edges cfg (device ev))
     ∧ heap (dispatch cfg t ev st)
       = heap st ++ new_entries RECV_ALERT t ev (seq st) (out_edges cfg (device ev))).
Proof.
  split; [intros; apply cancelled_before_true|].
  intros Hk Hled. rewrite dispatch_alert_forwarded; [done | done |].
  by apply cancelled_before_stored.
Qed.

Lemma C4_strict_ledger_query_witness :
  ledger_get (cancel_time knows_fire_at_5) (device alert_fire_at_5) (desc alert_fire_at_5)
    = Some 5
  ∧ out (dispatch scenario2 5 alert_fire_at_5 knows_fire_at_5)
    = out knows_fire_at_5 ++ recv_prefix 5 alert_fire_at_5
        ++ sent_lines line_sent_alert 5 alert_fire_at_5
             (out_edges scenario2 (device alert_fire_at_5))
  ∧ heap (dispatch scenario2 5 alert_fire_at_5 knows_fire_at_5)
    = heap knows_fire_at_5
        ++ new_entries RECV_ALERT 5 alert_fire_at_5 (seq knows_fire_at_5)
             (out_edges scenario2 (device alert_fire_at_5)).
Proof.
  split; [reflexivity|].
  apply (C4_strict_ledger_query scenario2 knows_fire_at_5 5 alert_fire_at_5); reflexivity.
Defined.

(** The alert of the witness is sent although 5 is stored. *)
Example alert_at_recorded_time_is_sent :
  out (dispatch scenario2 5 alert_fire_at_5 knows_fire_at_5)
  = [ "@5: #1 SENT ALERT TO #2: fire"%string ].
Proof. vm_compute. reflexivity. Qed.

(** C5: [record_cancel] stores the minimum of the time stored before
    (infinity when there is none) and [t], and leaves every other pair as it
    is; hence the time stored for a pair never increases along the
    iterations of the loop. *)
Theorem C5_record_keeps_minimum cfg st n dev d t p :
  (∀ ct,
     ledger_get (record_cancel ct dev d t) dev d
       = Some (match ledger_get ct dev d with Some prev => Z.min prev t | None => t end)
     ∧ ∀ dev' d', ¬ (dev' = dev ∧ d' = d) →
         ledger_get (record_cancel ct dev d t) dev' d' = ledger_get ct dev' d')
  ∧ (ledger_get (cancel_time st) dev d = Some p →
     ∃ p', ledger_get (cancel_time (iterate cfg n st)) dev d = Some p' ∧ p' ≤ p).
Proof.
  split.
  - intros ct. split.
    + rewrite ledger_get_record. by rewrite decide_True.
    + intros dev' d' Hne. rewrite ledger_get_record. by rewrite decide_False.
  - intros Hp.
    apply (iterate_inv cfg (λ s, ∃ q, ledger_get (cancel_time s) dev d = Some q ∧ q ≤ p)).
    + intros s s' Hs Hstep. by apply (ledger_step_mono cfg s s').
    + exists p. split; [done|lia].
Qed.

Lemma C5_record_keeps_minimum_witness :
  ledger_get (cancel_time (iterate negative_delay 1 (init_state negative_delay))) 1 "m" = Some 5
  ∧ ledger_get
      (cancel_time (iterate negative_delay 2 (iterate negative_delay 1 (init_state negative_delay))))
      1 "m" = Some 4
  ∧ ∃ p',
      ledger_get
        (cancel_time
           (iterate negative_delay 2 (iterate negative_delay 1 (init_state negative_delay))))
        1 "m" = Some p'
      ∧ p' ≤ 5.
Proof.
  split; [vm_compute; reflexivity|]. split; [vm_compute; reflexivity|].
  apply (proj2 (C5_record_keeps_minimum negative_delay
                  (iterate negative_delay 1 (init_state negative_delay)) 2 1 "m" 0 5)).
  vm_compute. reflexivity.
Defined.

(** [record_cancel] on a ledger that holds 5: a later time leaves 5, an
    earlier time replaces it, and a pair without entry gets the time given. *)
Example record_cancel_examples :
  ledger_get (record_cancel (cancel_time knows_fire_at_5) 1 "fire" 9) 1 "fire" = Some 5
  ∧ ledger_get (record_cancel (cancel_time knows_fire_at_5) 1 "fire" 3) 1 "fire" = Some 3
  ∧ ledger_get (record_cancel (cancel_time knows_fire_at_5) 1 "smoke" 9) 1 "smoke" = Some 9
  ∧ ledger_get (record_cancel (cancel_time knows_fire_at_5) 2 "fire" 9) 1 "fire" = Some 5.
Proof. split_and!; vm_compute; reflexivity. Qed.

(** The ledger of device 1 for ["m"] along the run of [negative_delay]:
    nothing, then 5 (its own cancellation), then 4 (the cancellation of
    device 3, received at time 4 after time 5 was handled). *)
Example negative_delay_ledger :
  (λ n, ledger_get (cancel_time (iterate negative_delay n (init_state negative_delay))) 1 "m")
    <$> [ 0; 1; 2; 3; 4; 5 ]%nat
  = [ None; Some 5; Some 5; Some 4; Some 4; Some 4 ].
Proof. vm_compute. reflexivity. Qed.

(** C6: two entries of the same time are popped in the order of their
    sequence numbers, that is, in the order in which they were pushed (the
    counter numbers the pushes of the initial loading and of every dispatch
    branch alike: [init_state_spec], [fan_out_spec]); and an entry that has
    been popped was pushed before every entry of the same time that is still
    pending. *)
Theorem C6_same_time_popped_in_push_order cfg n :
  (∀ i j a b,
     pops cfg n (init_state cfg) !! i = Some a →
     pops cfg n (init_state cfg) !! j = Some b →
     e_time a = e_time b →
     ((i < j)%nat ↔ (e_seq a < e_seq b)%nat))
  ∧ (∀ a b,
       b ∈ pops cfg n (init_state cfg) →
       a ∈ heap (iterate cfg n (init_state cfg)) →
       e_time a = e_time b → a ≠ b →
       (e_seq b < e_seq a)%nat).
Proof.
  split.
  - intros i j a b Ha Hb Ht.
    destruct (pops_sorted cfg n (init_state cfg) (seq_fresh_init cfg)) as [_ Hsorted].
    split; [intros Hij; by apply (Hsorted i j)|].
    intros Hseq. destruct (decide (i < j)%nat) as [|Hnlt]; [done|].
    destruct (decide (i = j)) as [->|Hne].
    + rewrite Ha in Hb. injection Hb as ->. lia.
    + assert (e_seq b < e_seq a)%nat; [|lia]. apply (Hsorted j i); [done | done | lia | done].
  - intros a b. apply pops_before_pending, seq_fresh_init.
Qed.

Lemma C6_same_time_popped_in_push_order_witness :
  pops same_time_cancels 5 (init_state same_time_cancels) !! 2%nat
    = Some (3, 2%nat, mkEvent 3 RECV_CANCEL 2 "x" (Some 1))
  ∧ pops same_time_cancels 5 (init_state same_time_cancels) !! 3%nat
    = Some (3, 3%nat, mkEvent 3 RECV_CANCEL 2 "x" (Some 1))
  ∧ ((2 < 3)%nat ↔ (2 < 3)%nat).
Proof.
  assert (pops same_time_cancels 5 (init_state same_time_cancels) !! 2%nat
    = Some (3, 2%nat, mkEvent 3 RECV_CANCEL 2 "x" (Some 1))) as H2
    by (vm_compute; reflexivity).
  assert (pops same_time_cancels 5 (init_state same_time_cancels) !! 3%nat
    = Some (3, 3%nat, mkEvent 3 RECV_CANCEL 2 "x" (Some 1))) as H3
    by (vm_compute; reflexivity).
  split_and!; [exact H2 | exact H3 |].
  apply (proj1 (C6_same_time_popped_in_push_order same_time_cancels 5) 2%nat 3%nat _ _ H2 H3).
  reflexivity.
Defined.

(** The pops of [same_time_cancels]: the two originated cancellations, then
    the two receipts they caused, each pair in push order. *)
Example same_time_cancels_pops :
  pops same_time_cancels 5 (init_state same_time_cancels) =
  [ (0, 0%nat, cancel_x); (0, 1%nat, cancel_x);
    (3, 2%nat, mkEvent 3 RECV_CANCEL 2 "x" (Some 1));
    (3, 3%nat, mkEvent 3 RECV_CANCEL 2 "x" (Some 1)) ].
Proof. vm_compute. reflexivity. Qed.

(** C7: on the topology [{1: [(2, 3)]}] with horizon 100, an alert raised
    by device 1 at time 0 and its cancellation raised at time 1 give the
    five-line transcript of the scenario. *)
Theorem C7_scenario2_transcript :
  _run_simulation 5 scenario2 =
  Some [ "@0: #1 SENT ALERT TO #2: fire";
         "@1: #1 SENT CANCELLATION TO #2: fire";
         "@3: #2 RECEIVED ALERT FROM #1: fire";
         "@4: #2 RECEIVED CANCELLATION FROM #1: fire";
         "@100: END" ]%string.
Proof. vm_compute. reflexivity. Qed.

(** C8: when some line has an unrecognized tag, or no line has the tag
    LENGTH, [_parse_input_lines] raises; when these are the lines of the
    file, [main] ends with that exception, whatever the engine is (also one
    that never returns), and has printed nothing. *)
Theorem C8_configuration_error lines :
  has_unknown_tag lines ∨ has_no_length lines →
  ∃ e,
    _parse_input_lines lines = inl e
    ∧ ∀ engine w path data text,
        w_input w = inr path → w_exists w path = inr true → w_read w path = inr data →
        read_text data = Some text → splitlines text = lines →
        main_with engine w = Some (mkMain [] (Some (FromParser e))).
Proof.
  intros H.
  assert (∃ e, _parse_input_lines lines = inl e) as [e He].
  { unfold _parse_input_lines.
    destruct (parse_lines (mkParse None ∅ ∅ []) lines) as [e|st] eqn:E; cbn [bind]; [eauto|].
    apply parse_lines_inr in E as [Hunk Hlen].
    destruct H as [H | H]; [done|]. rewrite (Hlen H). simpl. eauto. }
  exists e. split; [done|].
  intros engine w path data text Hin Hex Hrd Htxt Hlines.
  unfold main_with. by rewrite Hin, Hex, Hrd, Htxt, Hlines, He.
Qed.

Lemma C8_configuration_error_witness :
  has_unknown_tag [ "LENGTH 10"; "BOGUS 1 2" ]%string
  ∧ ∃ e,
      _parse_input_lines [ "LENGTH 10"; "BOGUS 1 2" ]%string = inl e
      ∧ ∀ engine w path data text,
          w_input w = inr path → w_exists w path = inr true → w_read w path = inr data →
          read_text data = Some text →
          splitlines text = [ "LENGTH 10"; "BOGUS 1 2" ]%string →
          main_with engine w = Some (mkMain [] (Some (FromParser e))).
Proof.
  assert (has_unknown_tag [ "LENGTH 10"; "BOGUS 1 2" ]%string) as H.
  { exists "BOGUS 1 2"%string, "BOGUS"%string. split_and!.
    - apply (list_elem_of_lookup_2 _ 1%nat). reflexivity.
    - vm_compute. reflexivity.
    - unfold known_tags. intros Hin.
      repeat (apply elem_of_cons in Hin as [Hin | Hin]; [discriminate|]).
      by apply elem_of_nil in Hin. }
  split; [exact H|]. apply C8_configuration_error. left. exact H.
Defined.

(** Both cases on files: an unknown tag behind a valid prefix, and a file
    without LENGTH; the engine given to [main_with] never returns. *)
Example configuration_error_files :
  main_with (λ _, None) (file_world (Some (unlines [ "LENGTH 10"; "BOGUS 1 2" ]%string)))
    = Some (mkMain [] (Some (FromParser (ValueError_unknown_line "BOGUS 1 2"))))
  ∧ main_with (λ _, None) (file_world (Some (unlines [ "DEVICE 1"; "ALERT 1 a 2" ]%string)))
    = Some (mkMain [] (Some (FromParser ValueError_missing_length))).
Proof. split; vm_compute; reflexivity. Qed.

(** White space is what [str.isspace] says: a line of U+00A0 or U+3000 is
    blank, and U+00A0 separates the tag from its argument, so these files
    have a LENGTH line and no unknown tag; it also splits a description in
    two. *)
Example unicode_space_lines :
  line_tag nbsp = None
  ∧ line_tag ideographic_space = None
  ∧ line_tag ("LENGTH" +:+ nbsp +:+ "5") = Some "LENGTH"%string
  ∧ _parse_input_lines [ "LENGTH" +:+ nbsp +:+ "5" ] = inr (mkConfig 5 ∅ [])
  ∧ _parse_input_lines [ "LENGTH 5"%string; nbsp ] = inr (mkConfig 5 ∅ [])
  ∧ _parse_input_lines [ "ALERT 1 a" +:+ nbsp +:+ "b 3" ] = inl (ValueError_int "b").
Proof. split_and!; vm_compute; reflexivity. Qed.

Lemma rearranged_refl s : rearranged s s.
Proof. by repeat split. Qed.

Lemma rearranged_sym s s' : rearranged s s' → rearranged s' s.
Proof. intros (H1 & H2 & H3 & H4). by repeat split. Qed.

Lemma rearranged_trans s1 s2 s3 : rearranged s1 s2 → rearranged s2 s3 → rearranged s1 s3.
Proof.
  intros (H1 & H2 & H3 & H4) (G1 & G2 & G3 & G4).
  split_and!; [by rewrite H1 | congruence..].
Qed.

Lemma dispatch_rearranged cfg t ev s s' :
  rearranged s s' → rearranged (dispatch cfg t ev s) (dispatch cfg t ev s').
Proof.
  destruct s as [h n ct o], s' as [h' n' ct' o']. intros (Hh & Hn & Hct & Ho).
  simpl in *. subst n' ct' o'. unfold dispatch.
  destruct (kind ev); simpl;
    repeat match goal with
           | |- context [if ?b then _ else _] => destruct b
           end;
    rewrite ?fan_out_spec; simpl; split_and!; try done; by apply Permutation_app.
Qed.

Lemma is_heappop_rearranged h1 h2 e h' : h1 ≡ₚ h2 → is_heappop h1 e h' → is_heappop h2 e h'.
Proof.
  intros Hp [Hperm Hmin]. split; [by rewrite <- Hp|].
  intros x Hx. apply Hmin. by rewrite Hp.
Qed.

(** With pairwise distinct sequence numbers the smallest entry is unique:
    every heap returns the entry the model returns. *)
Lemma is_heappop_heappop st h e h' m rest :
  seq_fresh st → h ≡ₚ heap st → is_heappop h e h' → heappop (heap st) = Some (m, rest) →
  e = m ∧ h' ≡ₚ rest.
Proof.
  intros Hfresh Hp [Hperm Hmin] [Hperm' Hmin']%heappop_Some.
  assert (e ∈ heap st) as He by (rewrite <- Hp, Hperm; left).
  assert (m ∈ heap st) as Hm by (rewrite Hperm'; left).
  assert (e = m) as ->.
  { apply (seq_fresh_inj st); [done..|].
    pose proof (Hmin' e He) as H1%entry_lt_false.
    assert (m ∈ h) as Hm' by by rewrite Hp.
    pose proof (Hmin m Hm') as H2%entry_lt_false. lia. }
  split; [done|]. apply (Permutation.Permutation_cons_inv (a := m)).
  by rewrite <- Hperm, Hp.
Qed.

(** Every run over every heap ends as the model does. *)
Lemma runs_loop cfg s tr :
  runs cfg s tr →
  ∀ sf, rearranged s sf → seq_fresh sf →
    ∃ fuel st, loop cfg fuel sf = Some st ∧ tr = out st ++ [line_end (cfg_length cfg)].
Proof.
  induction 1 as [s Hnil | s e h' Hpop Hle | s e h' s' tr Hpop Hlt Hre Hruns IH];
    intros sf Hsf Hfresh.
  - destruct Hsf as (Hh & _ & _ & Ho). rewrite Hnil in Hh.
    symmetry in Hh. apply Permutation_nil_r in Hh.
    exists 1%nat, sf. simpl. unfold loop_body. rewrite Hh. simpl. by rewrite Ho.
  - destruct Hsf as (Hh & _ & _ & Ho).
    destruct (heappop (heap sf)) as [[m rest]|] eqn:Hf.
    + destruct (is_heappop_heappop sf (heap s) e h' m rest Hfresh Hh Hpop Hf) as [-> _].
      exists 1%nat, sf. simpl. unfold loop_body. rewrite Hf.
      rewrite bool_decide_eq_true_2 by done. by rewrite Ho.
    + apply heappop_None in Hf. destruct Hpop as [Hperm _].
      rewrite Hf in Hh. rewrite Hperm in Hh. by apply Permutation_nil_r in Hh.
  - destruct (heappop (heap sf)) as [[m rest]|] eqn:Hf.
    + destruct Hsf as (Hh & Hn & Hct & Ho).
      destruct (is_heappop_heappop sf (heap s) e h' m rest Hfresh Hh Hpop Hf) as [-> Hrest].
      assert (loop_body cfg sf = Some (dispatch cfg (e_time m) (e_event m) (set_heap rest sf)))
        as Hbody.
      { unfold loop_body. rewrite Hf. by rewrite bool_decide_eq_false_2 by lia. }
      destruct (IH (dispatch cfg (e_time m) (e_event m) (set_heap rest sf)))
        as (fuel & st & Hloop & ->).
      * apply (rearranged_trans _ (dispatch cfg (e_time m) (e_event m) (set_heap h' s)));
          [by apply rearranged_sym|].
        apply dispatch_rearranged. by repeat split.
      * by apply (seq_fresh_step cfg sf).
      * exists (S fuel), st. simpl. by rewrite Hbody.
    + apply heappop_None in Hf. destruct Hsf as (Hh & _). destruct Hpop as [Hperm _].
      rewrite Hf in Hh. rewrite Hperm in Hh. by apply Permutation_nil_r in Hh.
Qed.

(** The model is one of the runs. *)
Lemma loop_runs cfg fuel s st :
  loop cfg fuel s = Some st → runs cfg s (out st ++ [line_end (cfg_length cfg)]).
Proof.
  revert s. induction fuel as [|fuel IH]; intros s; simpl; [done|].
  destruct (loop_body cfg s) as [s'|] eqn:Hbody.
  - intros Hloop. apply loop_body_Some in Hbody as (e & h' & Hpop & Hlt & ->).
    apply (runs_step cfg s e h' _ _ (heappop_Some _ _ _ Hpop) Hlt (rearranged_refl _)).
    by apply IH.
  - intros [= <-]. unfold loop_body in Hbody.
    destruct (heappop (heap s)) as [[e h']|] eqn:Hpop.
    + case_bool_decide as Hle; [|done].
      exact (runs_horizon cfg s e h' (heappop_Some _ _ _ Hpop) Hle).
    + apply heappop_None in Hpop. by apply runs_exhausted.
Qed.

Lemma run_simulation_may_return fuel cfg tr :
  _run_simulation fuel cfg = Some tr → may_return cfg tr.
Proof.
  intros (st & Hloop & -> & _)%run_simulation_Some.
  exists (init_state cfg). split; [apply rearranged_refl | by apply (loop_runs cfg fuel)].
Qed.

Lemma runs_rearranged cfg s s' tr : rearranged s s' → runs cfg s tr → runs cfg s' tr.
Proof.
  intros Hre Hruns. pose proof Hre as (Hh & Hn & Hct & Ho).
  destruct Hruns as [s Hnil | s e h' Hpop Hle | s e h' s1 tr Hpop Hlt Hre1 Hruns].
  - rewrite Ho. apply runs_exhausted. rewrite Hnil in Hh. symmetry in Hh.
    by apply Permutation_nil_r in Hh.
  - rewrite Ho. apply (runs_horizon cfg s' e h'); [|done].
    by apply (is_heappop_rearranged (heap s)).
  - apply (runs_step cfg s' e h' s1); [by apply (is_heappop_rearranged (heap s)) | done | | done].
    apply (rearranged_trans _ (dispatch cfg (e_time e) (e_event e) (set_heap h' s)));
      [|done].
    apply dispatch_rearranged. by repeat split.
Qed.

Lemma may_return_run_simulation cfg tr :
  may_return cfg tr → ∃ fuel, _run_simulation fuel cfg = Some tr.
Proof.
  intros (s & Hre & Hruns).
  destruct (runs_loop cfg s tr Hruns (init_state cfg) (rearranged_sym _ _ Hre)
              (seq_fresh_init cfg)) as (fuel & st & Hloop & ->).
  exists fuel. unfold _run_simulation. by rewrite Hloop.
Qed.

(** C9: the transcript is a function of the configuration alone.  Whatever
    arrangement the heap gives its entries, and whichever smallest entry a
    pop returns, two runs on equal configurations that return give the same
    transcript: the sequence numbers leave every pop one entry to return. *)
Theorem C9_deterministic cfg1 cfg2 tr1 tr2 :
  cfg1 = cfg2 → may_return cfg1 tr1 → may_return cfg2 tr2 → tr1 = tr2.
Proof.
  intros <- [f1 H1]%may_return_run_simulation [f2 H2]%may_return_run_simulation.
  apply run_simulation_Some in H1 as (st1 & H1 & -> & _).
  apply run_simulation_Some in H2 as (st2 & H2 & -> & _).
  by rewrite (loop_fuel_irrelevant _ _ _ _ _ _ H1 H2).
Qed.

(** Two runs of scenario 2: one over the heap of the model, one that
    starts from the two initial entries in the other order. *)
Lemma C9_deterministic_witness :
  may_return scenario2 scenario2_lines
  ∧ rearranged (init_state scenario2) (set_heap (reverse (heap (init_state scenario2)))
                                         (init_state scenario2))
  ∧ runs scenario2 (set_heap (reverse (heap (init_state scenario2))) (init_state scenario2))
      scenario2_lines
  ∧ scenario2_lines = scenario2_lines.
Proof.
  assert (may_return scenario2 scenario2_lines) as H1.
  { apply (run_simulation_may_return 5). vm_compute. reflexivity. }
  assert (rearranged (init_state scenario2)
            (set_heap (reverse (heap (init_state scenario2))) (init_state scenario2))) as Hre.
  { split_and!; [| done..]. simpl. by rewrite reverse_Permutation. }
  assert (runs scenario2
            (set_heap (reverse (heap (init_state scenario2))) (init_state scenario2))
            scenario2_lines) as H2.
  { apply (runs_rearranged scenario2 (init_state scenario2)); [exact Hre|].
    replace scenario2_lines
      with (out (iterate scenario2 5 (init_state scenario2))
              ++ [line_end (cfg_length scenario2)]) by (vm_compute; reflexivity).
    apply (loop_runs scenario2 5). vm_compute. reflexivity. }
  split_and!; [exact H1 | exact Hre | exact H2 |].
  apply (C9_deterministic scenario2 scenario2 scenario2_lines scenario2_lines eq_refl H1).
  eexists. split; [exact Hre | exact H2].
Defined.

(** Of two entries of the same time the one with the smaller sequence
    number is the only one a pop may return; were two entries to share time
    and sequence number, a pop could return either. *)
Example pop_needs_sequence_numbers :
  is_heappop [ (0, 1%nat, cancel_x); (0, 0%nat, cancel_x) ]
    (0, 0%nat, cancel_x) [ (0, 1%nat, cancel_x) ]
  ∧ ¬ is_heappop [ (0, 1%nat, cancel_x); (0, 0%nat, cancel_x) ]
        (0, 1%nat, cancel_x) [ (0, 0%nat, cancel_x) ]
  ∧ is_heappop [ (0, 0%nat, cancel_x); (0, 0%nat, alert_fire_at_5) ]
      (0, 0%nat, cancel_x) [ (0, 0%nat, alert_fire_at_5) ]
  ∧ is_heappop [ (0, 0%nat, cancel_x); (0, 0%nat, alert_fire_at_5) ]
      (0, 0%nat, alert_fire_at_5) [ (0, 0%nat, cancel_x) ].
Proof.
  split_and!.
  - split; [apply Permutation_swap|].
    intros x Hx. repeat (apply elem_of_cons in Hx as [-> | Hx]; [by vm_compute|]).
    by apply elem_of_nil in Hx.
  - intros [_ Hmin]. specialize (Hmin (0, 0%nat, cancel_x)).
    assert ((0, 0%nat, cancel_x) ∈ [ (0, 1%nat, cancel_x); (0, 0%nat, cancel_x) ]) as Hin
      by (right; left).
    apply Hmin in Hin. vm_compute in Hin. discriminate.
  - split; [done|].
    intros x Hx. repeat (apply elem_of_cons in Hx as [-> | Hx]; [by vm_compute|]).
    by apply elem_of_nil in Hx.
  - split; [apply Permutation_swap|].
    intros x Hx. repeat (apply elem_of_cons in Hx as [-> | Hx]; [by vm_compute|]).
    by apply elem_of_nil in Hx.
Qed.

Lemma iterate_stuck cfg n st : loop_body cfg st = None → iterate cfg n st = st.
Proof. intros H. destruct n; simpl; [done|]. by rewrite H. Qed.

Lemma iterate_add cfg n m st : iterate cfg (n + m) st = iterate cfg m (iterate cfg n st).
Proof.
  revert st. induction n as [|n IH]; intros st; simpl; [done|].
  destruct (loop_body cfg st) as [st'|] eqn:Hb; [apply IH|].
  by rewrite iterate_stuck.
Qed.

Lemma state_at_S cfg n e h' :
  heappop (heap (state_at cfg n)) = Some (e, h') → e_time e < cfg_length cfg →
  state_at cfg (S n) = dispatch cfg (e_time e) (e_event e) (set_heap h' (state_at cfg n)).
Proof.
  unfold state_at. intros Hpop Ht. replace (S n) with (n + 1)%nat by lia.
  rewrite iterate_add. simpl. unfold loop_body. rewrite Hpop.
  rewrite bool_decide_eq_false_2 by lia. done.
Qed.

(** Once an entry of time [t] has been popped and the delays are not
    negative, nothing earlier than [t] is pending, and a time [t] stored in
    the ledger stays as it is. *)
Lemma same_time_step cfg s s' t dev d :
  delays_nonneg cfg → loop_body cfg s = Some s' →
  (∀ x, x ∈ heap s → t ≤ e_time x) ∧ ledger_get (cancel_time s) dev d = Some t →
  (∀ x, x ∈ heap s' → t ≤ e_time x) ∧ ledger_get (cancel_time s') dev d = Some t.
Proof.
  intros Hnn (e & h' & Hpop & _ & ->)%loop_body_Some [Hheap Hled].
  apply heappop_Some in Hpop as [Hperm Hmin].
  assert (t ≤ e_time e) as Hte.
  { apply Hheap. rewrite Hperm. left. }
  split.
  - intros x [Hx | [k Hx]]%dispatch_heap_cases.
    + simpl in Hx. apply Hheap. rewrite Hperm. by right.
    + apply elem_of_new_entries in Hx as (edge & Hedge & -> & _).
      pose proof (out_edges_nonneg cfg _ _ Hnn Hedge). lia.
  - destruct (dispatch_ledger_cases cfg (e_time e) (e_event e) (set_heap h' s)) as [-> | [-> _]];
      simpl; [done|].
    rewrite ledger_get_record. case_decide as Hd; [|done].
    destruct Hd as [-> ->]. rewrite Hled. f_equal. lia.
Qed.

(** C10, with what it needs: in a configuration without negative delays,
    when two cancellation events of the same device for the same description
    are handled at the same time [t], and the device has learned of no
    cancellation of that description before [t] when the first of them is
    handled, both are forwarded: each iteration appends a SENT CANCELLATION
    line for every outgoing edge of the device, because the first event
    records exactly [t], which is still what is stored when the second is
    handled. *)
Theorem C10_same_time_cancel_not_suppressed cfg i j e1 e2 dev d :
  delays_nonneg cfg →
  (i < j)%nat → handles cfg i e1 → handles cfg j e2 → e_time e2 = e_time e1 →
  cancels e1 dev d → cancels e2 dev d →
  cancelled_before (cancel_time (state_at cfg i)) dev d (e_time e1) = false →
  forwards_cancel cfg i e1
  ∧ ledger_get (cancel_time (state_at cfg (S i))) dev d = Some (e_time e1)
  ∧ ledger_get (cancel_time (state_at cfg j)) dev d = Some (e_time e1)
  ∧ forwards_cancel cfg j e2.
Proof.
  intros Hnn Hij (h1 & Hpop1 & Ht1) (h2 & Hpop2 & Ht2) Htime (Hk1 & Hd1 & Hm1)
    (Hk2 & Hd2 & Hm2) Hfresh.
  pose proof (state_at_S cfg i e1 h1 Hpop1 Ht1) as HS1.
  assert (cancelled_before (cancel_time (set_heap h1 (state_at cfg i)))
            (device (e_event e1)) (desc (e_event e1)) (e_time e1) = false) as Hfresh1.
  { simpl. by rewrite Hd1, Hm1. }
  rewrite (dispatch_cancel_forwarded cfg _ _ _ Hk1 Hfresh1) in HS1.
  assert (ledger_get (cancel_time (state_at cfg (S i))) dev d = Some (e_time e1)) as Hled1.
  { rewrite HS1. simpl. rewrite <- Hd1, <- Hm1. apply record_cancel_first.
    by rewrite Hd1, Hm1. }
  assert ((∀ x, x ∈ heap (state_at cfg j) → e_time e1 ≤ e_time x)
          ∧ ledger_get (cancel_time (state_at cfg j)) dev d = Some (e_time e1)) as [_ Hled2].
  { replace j with (S i + (j - S i))%nat by lia. unfold state_at. rewrite iterate_add.
    apply (iterate_inv cfg
             (λ s, (∀ x, x ∈ heap s → e_time e1 ≤ e_time x)
                   ∧ ledger_get (cancel_time s) dev d = Some (e_time e1))).
    - intros s s' Hs Hstep. by apply (same_time_step cfg s s').
    - split; [|exact Hled1]. fold (state_at cfg (S i)). rewrite HS1. simpl.
      apply heappop_Some in Hpop1 as [Hperm Hmin].
      intros x [Hx | Hx]%elem_of_app.
      + assert (x ∈ heap (state_at cfg i)) as Hin by (rewrite Hperm; by right).
        apply Hmin, entry_lt_false in Hin. lia.
      + apply elem_of_new_entries in Hx as (edge & Hedge & -> & _).
        pose proof (out_edges_nonneg cfg _ _ Hnn Hedge). lia. }
  split_and!; [| exact Hled1 | exact Hled2 |].
  - unfold forwards_cancel. by rewrite HS1.
  - unfold forwards_cancel. rewrite (state_at_S cfg j e2 h2 Hpop2 Ht2).
    rewrite dispatch_cancel_forwarded; [done | done |]. simpl.
    rewrite Hd2, Hm2, Htime. by apply cancelled_before_stored.
Qed.

Lemma C10_same_time_cancel_not_suppressed_witness :
  handles same_time_cancels 0 (0, 0%nat, cancel_x)
  ∧ handles same_time_cancels 1 (0, 1%nat, cancel_x)
  ∧ cancelled_before (cancel_time (state_at same_time_cancels 0)) 1 "x" 0 = false
  ∧ out (state_at same_time_cancels 2)
    = [ "@0: #1 SENT CANCELLATION TO #2: x"; "@0: #1 SENT CANCELLATION TO #2: x" ]%string
  ∧ forwards_cancel same_time_cancels 0 (0, 0%nat, cancel_x)
  ∧ ledger_get (cancel_time (state_at same_time_cancels 1)) 1 "x" = Some 0
  ∧ ledger_get (cancel_time (state_at same_time_cancels 1)) 1 "x" = Some 0
  ∧ forwards_cancel same_time_cancels 1 (0, 1%nat, cancel_x).
Proof.
  assert (handles same_time_cancels 0 (0, 0%nat, cancel_x)) as H1.
  { eexists. split; [vm_compute; reflexivity | vm_compute; reflexivity]. }
  assert (handles same_time_cancels 1 (0, 1%nat, cancel_x)) as H2.
  { eexists. split; [vm_compute; reflexivity | vm_compute; reflexivity]. }
  split_and!; [exact H1 | exact H2 | vm_compute; reflexivity | vm_compute; reflexivity |..];
    apply (C10_same_time_cancel_not_suppressed same_time_cancels 0 1
             (0, 0%nat, cancel_x) (0, 1%nat, cancel_x) 1 "x"
             delays_nonneg_same_time_cancels);
    first [ exact H1 | exact H2 | lia | vm_compute; reflexivity | by repeat split ].
Defined.

(** C10, as stated, fails: in [earlier_cancel] device 1 has learned at time
    0 that ["x"] is cancelled, so of its two cancellation events handled at
    time 5 (iterations 2 and 3) neither is forwarded; the transcript has no
    line of time 5. *)
Lemma C10_earlier_cancel_suppresses_both :
  handles earlier_cancel 2 (5, 1%nat, mkEvent 5 RAISE_CANCEL 1 "x" None)
  ∧ handles earlier_cancel 3 (5, 2%nat, mkEvent 5 RAISE_CANCEL 1 "x" None)
  ∧ cancels (5, 1%nat, mkEvent 5 RAISE_CANCEL 1 "x" None) 1 "x"
  ∧ cancels (5, 2%nat, mkEvent 5 RAISE_CANCEL 1 "x" None) 1 "x"
  ∧ out_edges earlier_cancel 1 = [(2, 3)]
  ∧ ¬ forwards_cancel earlier_cancel 2 (5, 1%nat, mkEvent 5 RAISE_CANCEL 1 "x" None)
  ∧ ¬ forwards_cancel earlier_cancel 3 (5, 2%nat, mkEvent 5 RAISE_CANCEL 1 "x" None)
  ∧ _run_simulation 5 earlier_cancel
    = Some [ "@0: #1 SENT CANCELLATION TO #2: x";
             "@3: #2 RECEIVED CANCELLATION FROM #1: x"; "@100: END" ]%string.
Proof.
  split_and!.
  - eexists. split; vm_compute; reflexivity.
  - eexists. split; vm_compute; reflexivity.
  - by repeat split.
  - by repeat split.
  - vm_compute. reflexivity.
  - unfold forwards_cancel. vm_compute. discriminate.
  - unfold forwards_cancel. vm_compute. discriminate.
  - vm_compute. reflexivity.
Qed.

(** Without negative delays being excluded the amended statement fails
    too: in [negative_delay] nothing is known to device 1 when its own
    cancellation is handled at time 5, but the ledger holds 4 two iterations
    later. *)
Example negative_delay_lowers_ledger :
  cancelled_before (cancel_time (state_at negative_delay 0)) 1 "m" 5 = false
  ∧ ledger_get (cancel_time (state_at negative_delay 1)) 1 "m" = Some 5
  ∧ ledger_get (cancel_time (state_at negative_delay 3)) 1 "m" = Some 4.
Proof. split_and!; vm_compute; reflexivity. Qed.

(** The run of [same_time_cancels]: both cancellations are sent. *)
Example same_time_cancels_transcript :
  _run_simulation 5 same_time_cancels =
    Some [ "@0: #1 SENT CANCELLATION TO #2: x"; "@0: #1 SENT CANCELLATION TO #2: x";
           "@3: #2 RECEIVED CANCELLATION FROM #1: x";
           "@3: #2 RECEIVED CANCELLATION FROM #1: x"; "@100: END" ]%string.
Proof. vm_compute. reflexivity. Qed.

(* ===================================================================== *)
(** ** Worked examples *)
(* ===================================================================== *)

Example scenario2_more_fuel :
  _run_simulation 9 scenario2 =
  Some [ "@0: #1 SENT ALERT TO #2: fire";
         "@1: #1 SENT CANCELLATION TO #2: fire";
         "@3: #2 RECEIVED ALERT FROM #1: fire";
         "@4: #2 RECEIVED CANCELLATION FROM #1: fire";
         "@100: END" ]%string.
Proof. vm_compute. reflexivity. Qed.

Example parse_sample :
  main 5 (file_world (Some (unlines
            [ "# sample"; "LENGTH 100"; "DEVICE 1"; "DEVICE 2"; "";
              "PROPAGATE 1 2 3"; "ALERT 1 fire 0"; "  CANCEL 1 fire 1 " ]%string)))
  = Some (mkMain [ "@0: #1 SENT ALERT TO #2: fire";
         "@1: #1 SENT CANCELLATION TO #2: fire";
         "@3: #2 RECEIVED ALERT FROM #1: fire";
         "@4: #2 RECEIVED CANCELLATION FROM #1: fire";
         "@100: END" ]%string None).
Proof. vm_compute. reflexivity. Qed.

Example parse_bad :
  main 5 (file_world (Some (unlines [ "LENGTH 100"; "DEVICE x1"; "BOGUS" ]%string)))
  = Some (mkMain [] (Some (FromParser (ValueError_int "x1")))).
Proof. vm_compute. reflexivity. Qed.

(** The other ways [main] ends: no file, no input, a directory, bytes that
    are not UTF-8, and a [print] that fails on the second line. *)
Example main_endings :
  main 5 (file_world None) = Some (mkMain [ "FILE NOT FOUND"%string ] None)
  ∧ main 5 (mkWorld (inl "EOFError"%string) (λ _, inr true) (λ _, inr EmptyString) (λ _ _, None))
    = Some (mkMain [] (Some (FromInput "EOFError")))
  ∧ main 5 (mkWorld (inr "."%string) (λ _, inr true) (λ _, inl "IsADirectoryError"%string)
              (λ _ _, None))
    = Some (mkMain [] (Some (FromRead "IsADirectoryError")))
  ∧ main 5 (file_world (Some ("LENGTH 5" +:+ String "160" EmptyString)))
    = Some (mkMain [] (Some UnicodeDecodeError))
  ∧ main 5 broken_pipe_world
    = Some (mkMain [ "@0: #1 SENT ALERT TO #2: a"%string ] (Some (FromPrint "BrokenPipeError"))).
Proof. split_and!; vm_compute; reflexivity. Qed.

(** The two configurations on which C1 and C3 fail as stated are what the
    parser returns for these input files. *)
Example zero_delay_loop_parsed :
  _parse_input_lines [ "LENGTH 1"; "PROPAGATE 1 1 0"; "ALERT 1 x 0" ]%string
  = inr zero_delay_loop.
Proof. vm_compute. reflexivity. Qed.

Example negative_delay_parsed :
  _parse_input_lines [ "LENGTH 100"; "PROPAGATE 1 2 1"; "PROPAGATE 3 1 -2";
                       "CANCEL 1 m 5"; "CANCEL 3 m 6" ]%string
  = inr negative_delay.
Proof. vm_compute. reflexivity. Qed.

(* ===================================================================== *)
(** ** The n-queens board: facts *)
(* ===================================================================== *)

Example queens_tests :
  queen_count board8 = 0%nat
  ∧ with_queens_added board8 [(0, 0); (1, 1)] = inr board8_two
  ∧ queen_count board8_two = 2%nat
  ∧ with_queens_added board8_two [(0, 0)] = inl (DuplicateQueenError (0, 0))
  ∧ with_queens_removed board8_two [(1, 1)] = inr (mkQueensState 8 8 {[ (0, 0) ]})
  ∧ with_queens_removed board8_two [(2, 2)] = inl (MissingQueenError (2, 2))
  ∧ any_queens_unsafe board8_two = true
  ∧ any_queens_unsafe (mkQueensState 8 8 {[ (0, 0); (1, 2); (2, 4) ]}) = false.
Proof. vm_compute. done. Qed.

Lemma add_loop_inr old new_queens positions r :
  add_loop old new_queens positions = inr r ↔
  Forall (λ p, p ∉ old) positions ∧ r = new_queens ∪ list_to_set positions.
Proof.
  revert new_queens. induction positions as [|p rest IH]; intros new_queens; simpl.
  - split.
    + intros [= <-]. split; [constructor | set_solver].
    + intros [_ ->]. f_equal. set_solver.
  - case_bool_decide as Hp.
    + split; [done|]. intros [Hall _]. apply Forall_cons in Hall as [? _]. done.
    + rewrite IH, Forall_cons. split.
      * intros [Hall ->]. split; [done|]. set_solver.
      * intros [[_ Hall] ->]. split; [done|]. set_solver.
Qed.

Lemma add_loop_app old new_queens pre rest :
  Forall (λ p, p ∉ old) pre →
  add_loop old new_queens (pre ++ rest) = add_loop old (new_queens ∪ list_to_set pre) rest.
Proof.
  revert new_queens. induction pre as [|p pre IH]; intros new_queens Hall; simpl.
  - f_equal. set_solver.
  - apply Forall_cons in Hall as [Hp Hall]. rewrite bool_decide_eq_false_2 by done.
    rewrite IH by done. f_equal. set_solver.
Qed.

Lemma remove_loop_inr old new_queens positions r :
  remove_loop old new_queens positions = inr r ↔
  Forall (λ p, p ∈ old) positions ∧ Forall (λ p, p ∈ new_queens) positions
  ∧ NoDup positions ∧ r = new_queens ∖ list_to_set positions.
Proof.
  revert new_queens. induction positions as [|p rest IH]; intros new_queens; simpl.
  - split.
    + intros [= <-]. split_and!; [constructor | constructor | constructor | set_solver].
    + intros (_ & _ & _ & ->). f_equal. set_solver.
  - rewrite !Forall_cons, NoDup_cons. case_bool_decide as Hold.
    { split; [done|]. by intros ([? _] & _). }
    case_bool_decide as Hnew.
    2: { split; [done|]. by intros (_ & [? _] & _). }
    rewrite IH. split.
    + intros (Ho & Hn & Hnd & ->). split_and!; try done.
      * eapply Forall_impl; [exact Hn|]. set_solver.
      * intros Hin. rewrite Forall_forall in Hn. apply Hn in Hin. set_solver.
      * set_solver.
    + intros ([_ Ho] & [_ Hn] & [Hnotin Hnd] & ->). split_and!; try done.
      * rewrite Forall_forall in Hn |- *. intros x Hx.
        apply elem_of_difference. split; [by apply Hn|].
        intros ->%elem_of_singleton. done.
      * set_solver.
Qed.

Lemma remove_loop_app old new_queens pre rest :
  Forall (λ p, p ∈ old) pre → Forall (λ p, p ∈ new_queens) pre → NoDup pre →
  remove_loop old new_queens (pre ++ rest)
  = remove_loop old (new_queens ∖ list_to_set pre) rest.
Proof.
  revert new_queens. induction pre as [|p pre IH]; intros new_queens Ho Hn Hnd; simpl.
  - f_equal. set_solver.
  - apply Forall_cons in Ho as [Hp Ho]. apply Forall_cons in Hn as [Hpn Hn].
    apply NoDup_cons in Hnd as [Hnotin Hnd].
    rewrite bool_decide_eq_false_2 by (by intros ?).
    rewrite bool_decide_eq_true_2 by done.
    rewrite IH; [f_equal; set_solver | done | | done].
    rewrite Forall_forall in Hn |- *. intros x Hx.
    apply elem_of_difference. split; [by apply Hn|].
    intros ->%elem_of_singleton. done.
Qed.

Lemma conflict_sym q1 q2 : conflict q1 q2 = conflict q2 q1.
Proof.
  unfold conflict. cbn zeta. f_equal; [f_equal|]; apply bool_decide_ext; lia.
Qed.

Lemma unsafe_pairs_true qs :
  unsafe_pairs qs = true ↔
  ∃ i j q1 q2, (i < j)%nat ∧ qs !! i = Some q1 ∧ qs !! j = Some q2 ∧ conflict q1 q2 = true.
Proof.
  unfold unsafe_pairs. rewrite existsb_exists. split.
  - intros ([i q1] & Hin & Hex). apply list_elem_of_In, elem_of_lookup_imap in Hin
      as (i' & q' & [= <- <-] & Hi).
    apply lookup_take_Some in Hi as [Hi _].
    simpl in Hex. apply existsb_exists in Hex as (q2 & Hq2 & Hc).
    apply list_elem_of_In, list_elem_of_lookup in Hq2 as [k Hk].
    rewrite lookup_drop in Hk.
    exists i, (S i + k)%nat, q1, q2. split_and!; [lia | done | done | done].
  - intros (i & j & q1 & q2 & Hij & Hi & Hj & Hc).
    pose proof (lookup_lt_Some _ _ _ Hj) as Hlen.
    exists (i, q1). split.
    + apply list_elem_of_In, elem_of_lookup_imap. exists i, q1. split; [done|].
      apply lookup_take_Some. split; [done|lia].
    + simpl. apply existsb_exists. exists q2. split; [|done].
      apply list_elem_of_In, list_elem_of_lookup. exists (j - S i)%nat.
      rewrite lookup_drop. by replace (S i + (j - S i))%nat with j by lia.
Qed.

Lemma with_queens_added_spec st positions st' :
  with_queens_added st positions = inr st' ↔
  Forall (λ p, p ∉ _queens st) positions
  ∧ st' = mkQueensState (_rows st) (_columns st) (_queens st ∪ list_to_set positions).
Proof.
  unfold with_queens_added.
  destruct (add_loop (_queens st) (_queens st) positions) as [e|r] eqn:E.
  - split; [done|]. intros [Hall _].
    pose proof (proj2 (add_loop_inr (_queens st) (_queens st) positions _)
                  (conj Hall eq_refl)) as H.
    congruence.
  - apply add_loop_inr in E as [Hall ->]. split.
    + by intros [= <-].
    + by intros [_ ->].
Qed.

(** X1: [with_queens_added] returns a state exactly when none of the given
    positions holds a queen already; the state has the same sizes and the
    given positions added.  A position given twice is added once and does not
    raise. *)
Theorem with_queens_added_inr st positions st' :
  with_queens_added st positions = inr st' ↔
  Forall (λ p, p ∉ _queens st) positions
  ∧ st' = mkQueensState (_rows st) (_columns st) (_queens st ∪ list_to_set positions).
Proof. exact (with_queens_added_spec st positions st'). Qed.

Lemma with_queens_added_inr_witness :
  with_queens_added board8 [(0, 0); (1, 1); (0, 0)] = inr board8_two
  ∧ Forall (λ p, p ∉ _queens board8) [(0, 0); (1, 1); (0, 0)]
  ∧ board8_two
    = mkQueensState (_rows board8) (_columns board8)
        (_queens board8 ∪ list_to_set [(0, 0); (1, 1); (0, 0)]).
Proof.
  assert (with_queens_added board8 [(0, 0); (1, 1); (0, 0)] = inr board8_two) as H
    by (vm_compute; reflexivity).
  split; [exact H|].
  exact (proj1 (with_queens_added_inr board8 [(0, 0); (1, 1); (0, 0)] board8_two) H).
Defined.

(** X2: when some given position holds a queen already, [with_queens_added]
    raises [DuplicateQueenError] for the first such position of the list. *)
Theorem with_queens_added_first_duplicate st pre p post :
  Forall (λ q, q ∉ _queens st) pre → p ∈ _queens st →
  with_queens_added st (pre ++ p :: post) = inl (DuplicateQueenError p).
Proof.
  intros Hpre Hp. unfold with_queens_added. rewrite add_loop_app by done. simpl.
  by rewrite bool_decide_eq_true_2.
Qed.

Lemma with_queens_added_first_duplicate_witness :
  with_queens_added board8_two ([(2, 2)] ++ (1, 1) :: [(0, 0)])
  = inl (DuplicateQueenError (1, 1)).
Proof.
  apply (with_queens_added_first_duplicate board8_two [(2, 2)] (1, 1) [(0, 0)]).
  - repeat constructor; unfold board8_two; simpl; set_solver.
  - unfold board8_two. simpl. set_solver.
Defined.

Lemma with_queens_removed_spec st positions st' :
  with_queens_removed st positions = inr st' ↔
  Forall (λ p, p ∈ _queens st) positions ∧ NoDup positions
  ∧ st' = mkQueensState (_rows st) (_columns st) (_queens st ∖ list_to_set positions).
Proof.
  unfold with_queens_removed.
  destruct (remove_loop (_queens st) (_queens st) positions) as [e|r] eqn:E.
  - split; [done|]. intros (Hall & Hnd & _).
    pose proof (proj2 (remove_loop_inr (_queens st) (_queens st) positions _)
                  (conj Hall (conj Hall (conj Hnd eq_refl)))) as H.
    congruence.
  - apply remove_loop_inr in E as (Hall & _ & Hnd & ->). split.
    + by intros [= <-].
    + by intros (_ & _ & ->).
Qed.

(** X3: [with_queens_removed] returns a state exactly when every given
    position holds a queen and no position is given twice; the state has the
    same sizes and the given positions removed. *)
Theorem with_queens_removed_inr st positions st' :
  with_queens_removed st positions = inr st' ↔
  Forall (λ p, p ∈ _queens st) positions ∧ NoDup positions
  ∧ st' = mkQueensState (_rows st) (_columns st) (_queens st ∖ list_to_set positions).
Proof. exact (with_queens_removed_spec st positions st'). Qed.

Lemma with_queens_removed_inr_witness :
  with_queens_removed board8_two [(1, 1); (0, 0)] = inr board8
  ∧ Forall (λ p, p ∈ _queens board8_two) [(1, 1); (0, 0)] ∧ NoDup [(1, 1); (0, 0)]
  ∧ board8
    = mkQueensState (_rows board8_two) (_columns board8_two)
        (_queens board8_two ∖ list_to_set [(1, 1); (0, 0)]).
Proof.
  assert (with_queens_removed board8_two [(1, 1); (0, 0)] = inr board8) as H
    by (vm_compute; reflexivity).
  split; [exact H|].
  exact (proj1 (with_queens_removed_inr board8_two [(1, 1); (0, 0)] board8) H).
Defined.

(** X4: when the first position that cannot be removed holds no queen,
    [with_queens_removed] raises [MissingQueenError] for it. *)
Theorem with_queens_removed_missing st pre p post :
  Forall (λ q, q ∈ _queens st) pre → NoDup pre → p ∉ _queens st →
  with_queens_removed st (pre ++ p :: post) = inl (MissingQueenError p).
Proof.
  intros Hpre Hnd Hp. unfold with_queens_removed. rewrite remove_loop_app by done. simpl.
  by rewrite bool_decide_eq_true_2.
Qed.

Lemma with_queens_removed_missing_witness :
  with_queens_removed board8_two ([(0, 0)] ++ (2, 2) :: [])
  = inl (MissingQueenError (2, 2)).
Proof.
  apply (with_queens_removed_missing board8_two [(0, 0)] (2, 2) []).
  - repeat constructor; unfold board8_two; simpl; set_solver.
  - repeat constructor; set_solver.
  - unfold board8_two. simpl. set_solver.
Defined.

(** X5: a position that holds a queen but is given a second time in one
    call is not reported as a [MissingQueenError]: the membership test looks
    at the unchanged set of the state, and [set.remove] then raises
    [KeyError]. *)
Theorem with_queens_removed_twice st pre p post :
  Forall (λ q, q ∈ _queens st) pre → NoDup pre → p ∈ pre →
  with_queens_removed st (pre ++ p :: post) = inl (KeyError p).
Proof.
  intros Hpre Hnd Hp. unfold with_queens_removed. rewrite remove_loop_app by done. simpl.
  rewrite Forall_forall in Hpre.
  rewrite bool_decide_eq_false_2 by (intros Hn; by apply Hn, Hpre).
  rewrite bool_decide_eq_false_2; [done|]. set_solver.
Qed.

Lemma with_queens_removed_twice_witness :
  with_queens_removed board8_two ([(0, 0)] ++ (0, 0) :: []) = inl (KeyError (0, 0)).
Proof.
  apply (with_queens_removed_twice board8_two [(0, 0)] (0, 0) []).
  - repeat constructor; unfold board8_two; simpl; set_solver.
  - repeat constructor; set_solver.
  - apply (list_elem_of_lookup_2 _ 0%nat). reflexivity.
Defined.

(** X6: removing the positions that were just added gives the state back:
    for distinct positions none of which holds a queen, [with_queens_added]
    followed by [with_queens_removed] with the same list returns the state it
    started from. *)
Theorem queens_added_then_removed st positions :
  Forall (λ p, p ∉ _queens st) positions → NoDup positions →
  ∃ st1, with_queens_added st positions = inr st1
         ∧ with_queens_removed st1 positions = inr st.
Proof.
  intros Hall Hnd. eexists. split; [by apply with_queens_added_spec|].
  apply with_queens_removed_spec. simpl. split_and!; [| done |].
  - apply Forall_forall. intros p Hp. set_solver.
  - destruct st as [r c q]. simpl in *. f_equal.
    rewrite Forall_forall in Hall. set_solver.
Qed.

Lemma queens_added_then_removed_witness :
  ∃ st1, with_queens_added board8 [(0, 0); (1, 1)] = inr st1
         ∧ with_queens_removed st1 [(0, 0); (1, 1)] = inr board8.
Proof.
  apply (queens_added_then_removed board8 [(0, 0); (1, 1)]).
  - repeat constructor; unfold board8, QueensState_init; simpl; set_solver.
  - repeat constructor; set_solver.
Defined.

(** X7: and adding the positions that were just removed gives the state
    back as well, for distinct positions that all hold a queen. *)
Theorem queens_removed_then_added st positions :
  Forall (λ p, p ∈ _queens st) positions → NoDup positions →
  ∃ st1, with_queens_removed st positions = inr st1
         ∧ with_queens_added st1 positions = inr st.
Proof.
  intros Hall Hnd. eexists. split; [by apply with_queens_removed_spec|].
  apply with_queens_added_spec. simpl. split.
  - apply Forall_forall. intros p Hp. set_solver.
  - destruct st as [r c q]. simpl in *. f_equal.
    rewrite Forall_forall in Hall.
    assert (list_to_set positions ⊆ q) as Hsub by set_solver.
    rewrite (union_difference_L _ _ Hsub) at 1. set_solver.
Qed.

Lemma queens_removed_then_added_witness :
  ∃ st1, with_queens_removed board8_two [(1, 1); (0, 0)] = inr st1
         ∧ with_queens_added st1 [(1, 1); (0, 0)] = inr board8_two.
Proof.
  apply (queens_removed_then_added board8_two [(1, 1); (0, 0)]).
  - repeat constructor; unfold board8_two; simpl; set_solver.
  - repeat constructor; set_solver.
Defined.

(** X8: [queen_count] after a successful call: adding distinct positions
    raises it by their number, removing positions lowers it by their
    number. *)
Theorem queen_count_after st positions st' :
  (with_queens_added st positions = inr st' → NoDup positions →
   queen_count st' = (queen_count st + List.length positions)%nat)
  ∧ (with_queens_removed st positions = inr st' →
     (queen_count st' + List.length positions)%nat = queen_count st).
Proof.
  unfold queen_count. split.
  - intros [Hall ->]%with_queens_added_spec Hnd. simpl.
    rewrite size_union, size_list_to_set; [done | done |].
    rewrite Forall_forall in Hall. set_solver.
  - intros (Hall & Hnd & ->)%with_queens_removed_spec. simpl.
    rewrite Forall_forall in Hall.
    assert (list_to_set positions ⊆ _queens st) as Hsub by set_solver.
    assert (size (_queens st)
            = size (list_to_set positions ∪ _queens st ∖ list_to_set positions)) as ->
      by (by rewrite <- union_difference_L).
    rewrite (size_union (list_to_set positions) (_queens st ∖ list_to_set positions))
      by set_solver.
    rewrite size_list_to_set by done. lia.
Qed.

Lemma queen_count_after_witness :
  with_queens_added board8 [(0, 0); (1, 1)] = inr board8_two
  ∧ queen_count board8_two = (queen_count board8 + 2)%nat
  ∧ with_queens_removed board8_two [(1, 1); (0, 0)] = inr board8
  ∧ (queen_count board8 + 2)%nat = queen_count board8_two.
Proof.
  assert (with_queens_added board8 [(0, 0); (1, 1)] = inr board8_two) as Ha
    by (vm_compute; reflexivity).
  assert (with_queens_removed board8_two [(1, 1); (0, 0)] = inr board8) as Hr
    by (vm_compute; reflexivity).
  split_and!; [exact Ha | | exact Hr |].
  - apply (proj1 (queen_count_after board8 [(0, 0); (1, 1)] board8_two) Ha).
    repeat constructor; set_solver.
  - apply (proj2 (queen_count_after board8_two [(1, 1); (0, 0)] board8) Hr).
Defined.

Lemma any_queens_unsafe_spec st :
  any_queens_unsafe st = true ↔
  ∃ q1 q2, q1 ∈ _queens st ∧ q2 ∈ _queens st ∧ q1 ≠ q2 ∧ conflict q1 q2 = true.
Proof.
  unfold any_queens_unsafe.
  pose proof (NoDup_elements (_queens st)) as Hnd.
  assert (size (_queens st) = List.length (elements (_queens st))) as Hsize by done.
  split.
  - case_bool_decide; [done|]. intros (i & j & q1 & q2 & Hij & Hi & Hj & Hc)%unsafe_pairs_true.
    exists q1, q2. split_and!; [| | | done].
    + apply elem_of_elements. by eapply list_elem_of_lookup_2.
    + apply elem_of_elements. by eapply list_elem_of_lookup_2.
    + intros ->. pose proof (NoDup_lookup _ _ _ _ Hnd Hi Hj). lia.
  - intros (q1 & q2 & H1 & H2 & Hne & Hc).
    apply elem_of_elements, list_elem_of_lookup in H1 as [i Hi].
    apply elem_of_elements, list_elem_of_lookup in H2 as [j Hj].
    pose proof (lookup_lt_Some _ _ _ Hi). pose proof (lookup_lt_Some _ _ _ Hj).
    assert (i ≠ j) by (intros ->; congruence).
    rewrite bool_decide_eq_false_2 by lia.
    apply unsafe_pairs_true.
    destruct (decide (i < j)%nat).
    + exists i, j, q1, q2. done.
    + exists j, i, q2, q1. rewrite conflict_sym. split_and!; [lia | done | done | done].
Qed.

(** X9: [any_queens_unsafe] is true exactly when two different queens of
    the board share a row, a column or a diagonal, whatever the order in
    which the set yields its elements. *)
Theorem any_queens_unsafe_iff st :
  any_queens_unsafe st = true ↔
  ∃ q1 q2, q1 ∈ _queens st ∧ q2 ∈ _queens st ∧ q1 ≠ q2 ∧ conflict q1 q2 = true.
Proof. exact (any_queens_unsafe_spec st). Qed.

(** X10: adding queens never makes an unsafe board safe, and removing
    queens never makes a safe board unsafe. *)
Theorem any_queens_unsafe_monotone st positions st' :
  (with_queens_added st positions = inr st' →
   any_queens_unsafe st = true → any_queens_unsafe st' = true)
  ∧ (with_queens_removed st positions = inr st' →
     any_queens_unsafe st = false → any_queens_unsafe st' = false).
Proof.
  split.
  - intros [_ ->]%with_queens_added_spec (q1 & q2 & H1 & H2 & Hne & Hc)%any_queens_unsafe_spec.
    apply any_queens_unsafe_spec. exists q1, q2. simpl. set_solver.
  - intros (_ & _ & ->)%with_queens_removed_spec Hsafe.
    apply not_true_iff_false. intros (q1 & q2 & H1 & H2 & Hne & Hc)%any_queens_unsafe_spec.
    apply not_true_iff_false in Hsafe. apply Hsafe, any_queens_unsafe_spec.
    exists q1, q2. simpl in *. set_solver.
Qed.

Lemma any_queens_unsafe_monotone_witness :
  with_queens_added board8_two [(5, 2)]
    = inr (mkQueensState 8 8 {[ (0, 0); (1, 1); (5, 2) ]})
  ∧ any_queens_unsafe board8_two = true
  ∧ any_queens_unsafe (mkQueensState 8 8 {[ (0, 0); (1, 1); (5, 2) ]}) = true.
Proof.
  assert (with_queens_added board8_two [(5, 2)]
    = inr (mkQueensState 8 8 {[ (0, 0); (1, 1); (5, 2) ]})) as Ha
    by (vm_compute; reflexivity).
  assert (any_queens_unsafe board8_two = true) as Hu by (vm_compute; reflexivity).
  split_and!; [exact Ha | exact Hu |].
  exact (proj1 (any_queens_unsafe_monotone board8_two [(5, 2)] _) Ha Hu).
Defined.

(** X11: two successful additions in a row give the state that one addition
    of both lists gives.  (The converse fails: a position in both lists makes
    the second of the two calls raise, while the single call adds it once.) *)
Theorem with_queens_added_twice st ps1 st1 ps2 st2 :
  with_queens_added st ps1 = inr st1 → with_queens_added st1 ps2 = inr st2 →
  with_queens_added st (ps1 ++ ps2) = inr st2.
Proof.
  intros [H1 ->]%with_queens_added_spec [H2 ->]%with_queens_added_spec.
  apply with_queens_added_spec. simpl in *. split.
  - apply Forall_app. split; [done|]. eapply Forall_impl; [exact H2|]. set_solver.
  - f_equal. rewrite list_to_set_app_L. set_solver.
Qed.

Lemma with_queens_added_twice_witness :
  with_queens_added board8 [(0, 0)] = inr (mkQueensState 8 8 {[ (0, 0) ]})
  ∧ with_queens_added (mkQueensState 8 8 {[ (0, 0) ]}) [(1, 1)] = inr board8_two
  ∧ with_queens_added board8 ([(0, 0)] ++ [(1, 1)]) = inr board8_two.
Proof.
  assert (with_queens_added board8 [(0, 0)] = inr (mkQueensState 8 8 {[ (0, 0) ]})) as H1
    by (vm_compute; reflexivity).
  assert (with_queens_added (mkQueensState 8 8 {[ (0, 0) ]}) [(1, 1)] = inr board8_two) as H2
    by (vm_compute; reflexivity).
  split_and!; [exact H1 | exact H2 |].
  exact (with_queens_added_twice board8 [(0, 0)] _ [(1, 1)] _ H1 H2).
Defined.

Example with_queens_added_twice_converse_fails :
  with_queens_added board8 ([(0, 0)] ++ [(0, 0)]) = inr (mkQueensState 8 8 {[ (0, 0) ]})
  ∧ with_queens_added (mkQueensState 8 8 {[ (0, 0) ]}) [(0, 0)]
    = inl (DuplicateQueenError (0, 0)).
Proof. vm_compute. done. Qed.

(** X12: the messages of the two exception classes identify the class and
    the position: two messages are equal only for the same class and the
    same row and column. *)
Theorem queens_error_messages_injective p q :
  (DuplicateQueenError_str p = DuplicateQueenError_str q → p = q)
  ∧ (MissingQueenError_str p = MissingQueenError_str q → p = q)
  ∧ DuplicateQueenError_str p ≠ MissingQueenError_str q.
Proof.
  destruct p as [r c], q as [r' c']. unfold DuplicateQueenError_str, MissingQueenError_str.
  simpl. split_and!.
  - intros [= E]. apply append_cut in E as [Hr E]; [| by apply pystr_no_char ..].
    injection E as E. apply pystr_inj in Hr, E. by subst.
  - intros [= E]. apply append_cut in E as [Hr E]; [| by apply pystr_no_char ..].
    injection E as E. apply pystr_inj in Hr, E. by subst.
  - discriminate.
Qed.

Example queens_error_messages :
  DuplicateQueenError_str (0, 0) = "duplicate queen in row 0 column 0"%string
  ∧ MissingQueenError_str (1, 1) = "missing queen in row 1 column 1"%string.
Proof. vm_compute. done. Qed.

(* ===================================================================== *)
(** ** The engine: more facts about lines and the dispatch *)
(* ===================================================================== *)

Lemma sent_fmt_generic c t dev to d :
  sent_fmt c t dev to d = generic_line (sent_kind c) t dev (pystr to) d.
Proof. by destruct c. Qed.

Lemma recv_fmt_generic c t dev from d :
  recv_fmt c t dev from d = generic_line (recv_line_kind c) t dev (pystr_opt from) d.
Proof. by destruct c. Qed.

Lemma pystr_opt_no_colon o : has_char ":" (pystr_opt o) = false.
Proof. destruct o; [by apply pystr_no_char | done]. Qed.

Lemma pystr_opt_inj a b : pystr_opt a = pystr_opt b → a = b.
Proof.
  destruct a as [a|], b as [b|]; simpl; intros E; [by apply pystr_inj in E as -> | | | done].
  - assert (has_char "N" (pystr a) = false) as H by (by apply pystr_no_char).
    by rewrite E in H.
  - assert (has_char "N" (pystr b) = false) as H by (by apply pystr_no_char).
    by rewrite <- E in H.
Qed.

(** A line determines its shape and its four fields. *)
Lemma generic_line_inj k t dev o d k' t' dev' o' d' :
  has_char ":" o = false → has_char ":" o' = false →
  generic_line k t dev o d = generic_line k' t' dev' o' d' →
  k = k' ∧ t = t' ∧ dev = dev' ∧ o = o' ∧ d = d'.
Proof.
  intros Ho Ho' E.
  apply (header_inj t t' dev dev' (verb k +:+ " #" +:+ o +:+ ": " +:+ d)
           (verb k' +:+ " #" +:+ o' +:+ ": " +:+ d')) in E as (-> & -> & E).
  destruct k, k'; simpl in E; try discriminate; injection E as E;
    (apply append_cut in E as [-> E]; [| done ..]); by injection E as ->.
Qed.

Lemma generic_line_timestamp k t dev o d : timestamp (generic_line k t dev o d) = Some t.
Proof. apply (timestamp_header t (" #" +:+ pystr dev +:+ " " +:+ verb k +:+ " #" +:+ o +:+ ": " +:+ d)). Qed.

Lemma generic_line_not_end k t dev o d h : generic_line k t dev o d ≠ line_end h.
Proof.
  unfold generic_line, line_end. simpl. intros [= E].
  apply append_cut in E as [_ E]; [done | by apply pystr_no_char ..].
Qed.

Lemma cancelled_before_record_same ct dev d t :
  cancelled_before (record_cancel ct dev d t) dev d t = cancelled_before ct dev d t.
Proof.
  unfold cancelled_before. rewrite ledger_get_record, decide_True by done.
  destruct (ledger_get ct dev d) as [p|]; [apply bool_decide_ext; lia|].
  apply bool_decide_eq_false. lia.
Qed.

Lemma recv_prefix_kind t ev :
  recv_prefix t ev =
  match kind ev with
  | RAISE_ALERT | RAISE_CANCEL => []
  | _ => [recv_fmt (is_cancel (kind ev)) t (device ev) (src ev) (desc ev)]
  end.
Proof. unfold recv_prefix. by destruct (kind ev). Qed.

(** The dispatch in one equation: the receipt line, the record of a
    cancellation, and the propagation unless the cancellation is known from
    before [t]. *)
Lemma dispatch_eq cfg t ev st :
  dispatch cfg t ev st =
  let c := is_cancel (kind ev) in
  let ct' := if c then record_cancel (cancel_time st) (device ev) (desc ev) t
             else cancel_time st in
  if cancelled_before (cancel_time st) (device ev) (desc ev) t
  then mkState (heap st) (seq st) ct' (out st ++ recv_prefix t ev)
  else mkState (heap st ++ new_entries (recv_kind c) t ev (seq st) (out_edges cfg (device ev)))
               (seq st + List.length (out_edges cfg (device ev))) ct'
               (out st ++ recv_prefix t ev
                  ++ sent_lines (sent_fmt c) t ev (out_edges cfg (device ev))).
Proof.
  cbn zeta.
  destruct (cancelled_before (cancel_time st) (device ev) (desc ev) t) eqn:Hc.
  - unfold dispatch, recv_prefix.
    destruct (kind ev); cbn zeta; cbn [emit do_record cancel_time is_cancel];
      rewrite ?cancelled_before_record_same, Hc; rewrite ?app_nil_r;
      by destruct st.
  - destruct (is_cancel (kind ev)) eqn:Hk.
    + by rewrite dispatch_cancel_forwarded.
    + by rewrite dispatch_alert_forwarded.
Qed.

Lemma elem_of_new_entries_shape k t ev n edges x :
  x ∈ new_entries k t ev n edges →
  ∃ e m, e ∈ edges
         ∧ x = (t + e.2, m, mkEvent (t + e.2) k e.1 (desc ev) (Some (device ev))).
Proof.
  revert n. induction edges as [|e r IH]; intros n; simpl; [by intros ?%elem_of_nil|].
  intros [->|Hx]%elem_of_cons.
  - exists e, n. split; [by left | done].
  - destruct (IH _ Hx) as (e' & m & He' & ->). exists e', m. split; [by right | done].
Qed.

Lemma new_entries_complete k t ev n edges e :
  e ∈ edges →
  ∃ m, (t + e.2, m, mkEvent (t + e.2) k e.1 (desc ev) (Some (device ev)))
       ∈ new_entries k t ev n edges.
Proof.
  revert n. induction edges as [|e' r IH]; intros n; [by intros ?%elem_of_nil|].
  intros [->|He]%elem_of_cons; simpl.
  - exists n. by left.
  - destruct (IH (S n) He) as [m Hm]. exists m. by right.
Qed.

(** X13: an event handled at [t] by a device that knows from before [t]
    that the description is cancelled is not propagated: nothing is pushed,
    the counter stays, only the receipt line (if the event is a receipt) is
    appended, and no stored cancellation time changes. *)
Theorem dispatch_suppressed cfg t ev st :
  cancelled_before (cancel_time st) (device ev) (desc ev) t = true →
  heap (dispatch cfg t ev st) = heap st
  ∧ seq (dispatch cfg t ev st) = seq st
  ∧ out (dispatch cfg t ev st) = out st ++ recv_prefix t ev
  ∧ ∀ dev d, ledger_get (cancel_time (dispatch cfg t ev st)) dev d
             = ledger_get (cancel_time st) dev d.
Proof.
  intros Hc. rewrite dispatch_eq. cbn zeta. rewrite Hc. cbn [heap seq out cancel_time].
  split_and!; try done. intros dev d.
  destruct (is_cancel (kind ev)); [|done].
  apply cancelled_before_true in Hc as (p & Hp & Hlt).
  rewrite ledger_get_record. case_decide as Hd; [|done].
  destruct Hd as [-> ->]. rewrite Hp. f_equal. lia.
Qed.

Lemma dispatch_suppressed_witness :
  heap (dispatch scenario2 9 (mkEvent 9 RECV_ALERT 1 "fire" (Some 2)) knows_fire_at_5)
    = heap knows_fire_at_5
  ∧ seq (dispatch scenario2 9 (mkEvent 9 RECV_ALERT 1 "fire" (Some 2)) knows_fire_at_5)
    = seq knows_fire_at_5
  ∧ out (dispatch scenario2 9 (mkEvent 9 RECV_ALERT 1 "fire" (Some 2)) knows_fire_at_5)
    = out knows_fire_at_5 ++ recv_prefix 9 (mkEvent 9 RECV_ALERT 1 "fire" (Some 2))
  ∧ ∀ dev d,
      ledger_get
        (cancel_time (dispatch scenario2 9 (mkEvent 9 RECV_ALERT 1 "fire" (Some 2))
                        knows_fire_at_5)) dev d
      = ledger_get (cancel_time knows_fire_at_5) dev d.
Proof.
  apply (dispatch_suppressed scenario2 9 (mkEvent 9 RECV_ALERT 1 "fire" (Some 2))
           knows_fire_at_5).
  reflexivity.
Defined.

(* ===================================================================== *)
(** ** The engine: every receipt has its sending, every sending its receipts *)
(* ===================================================================== *)

Lemma sent_not_recv c t dev to d c' t' dev' from d' :
  sent_fmt c t dev to d ≠ recv_fmt c' t' dev' from d'.
Proof.
  rewrite sent_fmt_generic, recv_fmt_generic. intros E.
  apply generic_line_inj in E as (E & _); [| by apply pystr_no_char | apply pystr_opt_no_colon].
  by destruct c, c'.
Qed.

Lemma sent_fmt_inj c t dev to d c' t' dev' to' d' :
  sent_fmt c t dev to d = sent_fmt c' t' dev' to' d' →
  c = c' ∧ t = t' ∧ dev = dev' ∧ to = to' ∧ d = d'.
Proof.
  rewrite !sent_fmt_generic. intros E.
  apply generic_line_inj in E as (Hk & -> & -> & Ho & ->); [| by apply pystr_no_char ..].
  apply pystr_inj in Ho as ->. by destruct c, c'.
Qed.

Lemma recv_fmt_inj c t dev from d c' t' dev' from' d' :
  recv_fmt c t dev from d = recv_fmt c' t' dev' from' d' →
  c = c' ∧ t = t' ∧ dev = dev' ∧ from = from' ∧ d = d'.
Proof.
  rewrite !recv_fmt_generic. intros E.
  apply generic_line_inj in E as (Hk & -> & -> & Ho & ->); [| apply pystr_opt_no_colon ..].
  apply pystr_opt_inj in Ho as ->. by destruct c, c'.
Qed.

Lemma recv_kind_is_cancel c k : k = recv_kind c → is_cancel k = c.
Proof. intros ->. by destruct c. Qed.

Lemma recv_prefix_recv c t ev :
  kind ev = recv_kind c →
  recv_prefix t ev = [recv_fmt c t (device ev) (src ev) (desc ev)].
Proof. intros Hk. unfold recv_prefix. rewrite Hk. by destruct c. Qed.

Lemma elem_of_recv_prefix t ev l :
  l ∈ recv_prefix t ev →
  ∃ c, kind ev = recv_kind c ∧ l = recv_fmt c t (device ev) (src ev) (desc ev).
Proof.
  unfold recv_prefix. destruct (kind ev); try (by intros ?%elem_of_nil);
    intros ->%list_elem_of_singleton; [by exists false | by exists true].
Qed.

Lemma soundness_step cfg s s' :
  loop_body cfg s = Some s' →
  pending_was_sent cfg s ∧ received_was_sent cfg (out s) →
  pending_was_sent cfg s' ∧ received_was_sent cfg (out s').
Proof.
  intros (e & h' & Hpop & _ & ->)%loop_body_Some [Hpend Hrecv].
  apply heappop_Some in Hpop as [Hperm _].
  assert (e ∈ heap s) as He by (rewrite Hperm; by left).
  set (t := e_time e). set (ev := e_event e).
  assert (∃ Y X,
    heap (dispatch cfg t ev (set_heap h' s)) = h' ++ Y
    ∧ out (dispatch cfg t ev (set_heap h' s)) = out s ++ recv_prefix t ev ++ X
    ∧ (∀ x, x ∈ Y → ∃ edge m,
         edge ∈ out_edges cfg (device ev)
         ∧ x = (t + edge.2, m,
                mkEvent (t + edge.2) (recv_kind (is_cancel (kind ev))) edge.1 (desc ev)
                  (Some (device ev)))
         ∧ sent_fmt (is_cancel (kind ev)) t (device ev) edge.1 (desc ev) ∈ X)
    ∧ (∀ l, l ∈ X → ∃ c t' dev to d, l = sent_fmt c t' dev to d)) as (Y & X & HhY & HoX & HY & HX).
  { rewrite dispatch_eq. cbn zeta. cbn [heap seq out cancel_time set_heap].
    destruct (cancelled_before (cancel_time s) (device ev) (desc ev) t).
    - exists [], []. cbn [heap out]. rewrite !app_nil_r.
      split_and!; [done | done | by intros x ?%elem_of_nil | by intros l ?%elem_of_nil].
    - eexists _, _. cbn [heap out]. split_and!; [done | done | |].
      + intros x (edge & m & Hedge & ->)%elem_of_new_entries_shape.
        exists edge, m. split_and!; [done | done |].
        unfold sent_lines. by apply (list_elem_of_fmap_2 (λ e0, _ e0.1 _)).
      + intros l (edge & _ & ->)%elem_of_sent_lines. eauto 6. }
  unfold pending_was_sent, received_was_sent. rewrite HhY, HoX. clear HhY HoX.
  split.
  - intros x c [Hx | Hx]%elem_of_app Hk.
    + assert (x ∈ heap s) as Hx' by (rewrite Hperm; by right).
      destruct (Hpend x c Hx' Hk) as (src0 & delay & Hsrc & Hedge & Hsent).
      exists src0, delay. split_and!; [done | done |]. apply elem_of_app. by left.
    + destruct (HY x Hx) as ([to delay] & m & Hedge & -> & Hsent). simpl in *.
      unfold e_event, e_time in *. simpl in *.
      assert (is_cancel (kind ev) = c) as <- by (by destruct (is_cancel (kind ev)), c).
      exists (device ev), delay. split_and!; [done | done |].
      replace (t + delay - delay) with t by lia.
      rewrite !elem_of_app. auto.
  - intros i c t0 d from m Hi.
    apply lookup_app_Some in Hi as [Hi | [Hlen Hi]].
    { destruct (Hrecv _ _ _ _ _ _ Hi) as (src0 & delay & j & -> & Hedge & Hj & Hsent).
      exists src0, delay, j. split_and!; [done | done | done |]. by apply lookup_app_l_Some. }
    apply list_elem_of_lookup_2, elem_of_app in Hi as Hin. destruct Hin as [Hin | Hin].
    2: { apply HX in Hin as (c' & t' & dev & to & d' & Heq).
         symmetry in Heq. by apply sent_not_recv in Heq. }
    apply elem_of_recv_prefix in Hin as (c' & Hk & Heq).
    apply recv_fmt_inj in Heq as (-> & -> & -> & -> & ->).
    destruct (Hpend e c' He Hk) as (src0 & delay & Hsrc & Hedge & Hsent).
    apply list_elem_of_lookup in Hsent as [j Hj].
    exists src0, delay, j. split_and!; [done | done | | by apply lookup_app_l_Some].
    apply lookup_lt_Some in Hj. lia.
Qed.

Lemma elem_of_initial_entries n evs x :
  x ∈ initial_entries n evs → ∃ ev, ev ∈ evs ∧ e_event x = ev ∧ e_time x = time ev.
Proof.
  revert n. induction evs as [|ev r IH]; intros n; simpl; [by intros ?%elem_of_nil|].
  intros [->|Hx]%elem_of_cons.
  - exists ev. split; [by left | done].
  - destruct (IH _ Hx) as (ev' & He' & H1 & H2). exists ev'. split; [by right | done].
Qed.

(** X14: when the initial events are all raised by their devices, every
    RECEIVED line of a transcript is preceded by the SENT line of the sender
    it names, for the same description and the same message class, and the
    two timestamps differ by the delay of an edge from the sender to the
    receiver. *)
Theorem received_after_sent cfg fuel tr i c t d from m :
  Forall originated (initial_events cfg) →
  _run_simulation fuel cfg = Some tr →
  tr !! i = Some (recv_fmt c t d from m) →
  ∃ s delay j,
    from = Some s ∧ (d, delay) ∈ out_edges cfg s ∧ (j < i)%nat
    ∧ tr !! j = Some (sent_fmt c (t - delay) s d m).
Proof.
  intros Hinit (st & _ & -> & ->)%run_simulation_Some Hi.
  assert (pending_was_sent cfg (iterate cfg fuel (init_state cfg))
          ∧ received_was_sent cfg (out (iterate cfg fuel (init_state cfg)))) as [_ Hrecv].
  { apply (iterate_inv cfg (λ s, pending_was_sent cfg s ∧ received_was_sent cfg (out s))).
    - intros s s' Hs Hstep. by apply (soundness_step cfg s s').
    - rewrite init_state_spec. split.
      + intros x c0 (ev & Hev & Hx & _)%elem_of_initial_entries Hk. simpl in *.
        rewrite Forall_forall in Hinit. apply Hinit in Hev as [Hev | Hev];
          rewrite Hx, Hev in Hk; by destruct c0.
      + intros j c0 t0 d0 f0 m0. simpl. by rewrite lookup_nil. }
  apply lookup_app_Some in Hi as [Hi | [_ Hi]].
  - destruct (Hrecv _ _ _ _ _ _ Hi) as (s & delay & j & -> & Hedge & Hj & Hsent).
    exists s, delay, j. split_and!; [done | done | done |]. by apply lookup_app_l_Some.
  - apply list_elem_of_lookup_2, list_elem_of_singleton in Hi.
    rewrite recv_fmt_generic in Hi. by apply generic_line_not_end in Hi.
Qed.

Lemma received_after_sent_witness :
  Forall originated (initial_events scenario2)
  ∧ ∃ s delay j,
      Some 1 = Some s ∧ (2, delay) ∈ out_edges scenario2 s ∧ (j < 3)%nat
      ∧ [ "@0: #1 SENT ALERT TO #2: fire"; "@1: #1 SENT CANCELLATION TO #2: fire";
          "@3: #2 RECEIVED ALERT FROM #1: fire"; "@4: #2 RECEIVED CANCELLATION FROM #1: fire";
          "@100: END" ]%string !! j
        = Some (sent_fmt true (4 - delay) s 2 "fire").
Proof.
  assert (Forall originated (initial_events scenario2)) as H.
  { apply Forall_cons. split; [by left|]. apply Forall_cons. split; [by right|]. constructor. }
  split; [exact H|].
  apply (received_after_sent scenario2 5 _ 3 true 4 2 (Some 1) "fire" H);
    vm_compute; reflexivity.
Defined.

Lemma completeness_step cfg s s' :
  loop_body cfg s = Some s' →
  sent_is_pending_or_received cfg s → sent_is_pending_or_received cfg s'.
Proof.
  intros (e & h' & Hpop & _ & ->)%loop_body_Some Hinv.
  apply heappop_Some in Hpop as [Hperm _].
  set (t := e_time e). set (ev := e_event e).
  unfold sent_is_pending_or_received. rewrite dispatch_eq. cbn zeta.
  cbn [heap seq out cancel_time set_heap].
  intros c t0 s0 to m edge Hsent Hedge.
  assert (sent_fmt c t0 s0 to m ∈ out s
          ∨ (cancelled_before (cancel_time s) (device ev) (desc ev) t = false
             ∧ c = is_cancel (kind ev) ∧ t0 = t ∧ s0 = device ev ∧ m = desc ev)) as Hcase.
  { destruct (cancelled_before (cancel_time s) (device ev) (desc ev) t);
      cbn [out] in Hsent; rewrite ?elem_of_app in Hsent.
    - destruct Hsent as [? | (c' & _ & Heq)%elem_of_recv_prefix]; [by left|].
      by apply sent_not_recv in Heq.
    - destruct Hsent as [? | [(c' & _ & Heq)%elem_of_recv_prefix
                              | (e' & _ & Heq)%elem_of_sent_lines]]; [by left | |].
      + by apply sent_not_recv in Heq.
      + apply sent_fmt_inj in Heq as (-> & -> & -> & _ & ->). by right. }
  clear Hsent. destruct Hcase as [Hold | (Hc & -> & -> & -> & ->)].
  - destruct (Hinv _ _ _ _ _ _ Hold Hedge) as [[n Hn] | Hr].
    + rewrite Hperm in Hn. apply elem_of_cons in Hn as [Hn | Hn].
      * right. subst t ev. rewrite <- Hn. unfold e_time, e_event. simpl.
        assert (recv_prefix (t0 + edge.2)
                  (mkEvent (t0 + edge.2) (recv_kind c) edge.1 m (Some s0))
                = [recv_fmt c (t0 + edge.2) edge.1 (Some s0) m]) as Hpre
          by (by apply recv_prefix_recv).
        destruct (cancelled_before _ _ _ _); cbn [out]; rewrite Hpre, !elem_of_app;
          rewrite list_elem_of_singleton; auto.
      * left. exists n.
        destruct (cancelled_before _ _ _ _); cbn [heap]; rewrite ?elem_of_app; auto.
    + right. destruct (cancelled_before _ _ _ _); cbn [out]; rewrite !elem_of_app; auto.
  - left. rewrite Hc. cbn [heap].
    destruct (new_entries_complete (recv_kind (is_cancel (kind ev))) t ev (seq s)
                (out_edges cfg (device ev)) edge Hedge) as [n Hn].
    exists n. rewrite elem_of_app. by right.
Qed.

(** X15: no message is lost before the horizon: when a transcript holds a
    SENT line of a device at time [t], then for every outgoing edge of that
    device whose delay leads to a time before the horizon, the transcript
    holds the RECEIVED line of the destination at [t + delay]. *)
Theorem sent_is_received cfg fuel tr c t s to m e :
  _run_simulation fuel cfg = Some tr →
  sent_fmt c t s to m ∈ tr →
  e ∈ out_edges cfg s → t + e.2 < cfg_length cfg →
  recv_fmt c (t + e.2) e.1 (Some s) m ∈ tr.
Proof.
  intros (st & Hloop & -> & Hst)%run_simulation_Some Hsent Hedge Hbefore.
  apply loop_iterate in Hloop as [_ Hend].
  assert (sent_is_pending_or_received cfg st) as Hinv.
  { rewrite Hst. apply iterate_inv.
    - intros s1 s2 Hs Hstep. by apply (completeness_step cfg s1 s2).
    - rewrite init_state_spec. intros c0 t0 s0 to0 m0 e0 Hin. simpl in Hin.
      by apply elem_of_nil in Hin. }
  apply elem_of_app in Hsent as [Hsent | Hsent%list_elem_of_singleton].
  2: { rewrite sent_fmt_generic in Hsent. by apply generic_line_not_end in Hsent. }
  apply elem_of_app. left.
  destruct (Hinv _ _ _ _ _ _ Hsent Hedge) as [[n Hn] | Hr]; [|done].
  exfalso. unfold loop_body in Hend.
  destruct (heappop (heap st)) as [[e0 h']|] eqn:Hpop.
  - case_bool_decide as Hge; [|done].
    apply heappop_Some in Hpop as [_ Hmin].
    apply Hmin, entry_lt_false in Hn. unfold e_time in *. simpl in *. lia.
  - apply heappop_None in Hpop. rewrite Hpop in Hn. by apply elem_of_nil in Hn.
Qed.

Lemma sent_is_received_witness :
  _run_simulation 5 scenario2 =
    Some [ "@0: #1 SENT ALERT TO #2: fire"; "@1: #1 SENT CANCELLATION TO #2: fire";
           "@3: #2 RECEIVED ALERT FROM #1: fire";
           "@4: #2 RECEIVED CANCELLATION FROM #1: fire"; "@100: END" ]%string
  ∧ recv_fmt false (0 + 3) 2 (Some 1) "fire"
    ∈ [ "@0: #1 SENT ALERT TO #2: fire"; "@1: #1 SENT CANCELLATION TO #2: fire";
        "@3: #2 RECEIVED ALERT FROM #1: fire";
        "@4: #2 RECEIVED CANCELLATION FROM #1: fire"; "@100: END" ]%string.
Proof.
  assert (_run_simulation 5 scenario2 =
    Some [ "@0: #1 SENT ALERT TO #2: fire"; "@1: #1 SENT CANCELLATION TO #2: fire";
           "@3: #2 RECEIVED ALERT FROM #1: fire";
           "@4: #2 RECEIVED CANCELLATION FROM #1: fire"; "@100: END" ]%string) as Hrun
    by (vm_compute; reflexivity).
  split; [exact Hrun|].
  apply (sent_is_received scenario2 5 _ false 0 1 2 "fire" (2, 3) Hrun).
  - apply (list_elem_of_lookup_2 _ 0%nat). vm_compute. reflexivity.
  - apply (list_elem_of_lookup_2 _ 0%nat). vm_compute. reflexivity.
  - simpl. lia.
Defined.

(* ===================================================================== *)
(** ** The engine: time order *)
(* ===================================================================== *)

Lemma sent_fmt_timestamp c t dev to d : timestamp (sent_fmt c t dev to d) = Some t.
Proof. rewrite sent_fmt_generic. apply generic_line_timestamp. Qed.

Lemma recv_fmt_timestamp c t dev from d : timestamp (recv_fmt c t dev from d) = Some t.
Proof. rewrite recv_fmt_generic. apply generic_line_timestamp. Qed.

(** What one dispatch appends carries the time of the popped entry. *)
Lemma dispatch_new_lines cfg t ev st :
  ∃ new, out (dispatch cfg t ev st) = out st ++ new
         ∧ Forall (λ l, timestamp l = Some t) new.
Proof.
  rewrite dispatch_eq. cbn zeta.
  assert (Forall (λ l, timestamp l = Some t) (recv_prefix t ev)) as Hpre.
  { apply Forall_forall. intros l (c & _ & ->)%elem_of_recv_prefix. apply recv_fmt_timestamp. }
  destruct (cancelled_before (cancel_time st) (device ev) (desc ev) t); cbn [out].
  - eauto.
  - eexists. split; [done|]. apply Forall_app. split; [done|].
    apply Forall_forall. intros l (e & _ & ->)%elem_of_sent_lines. apply sent_fmt_timestamp.
Qed.

Lemma time_order_step cfg s s' :
  delays_nonneg cfg → loop_body cfg s = Some s' →
  lines_before_pending s ∧ times_sorted (out s) →
  lines_before_pending s' ∧ times_sorted (out s').
Proof.
  intros Hnn (e & h' & Hpop & _ & ->)%loop_body_Some [Hbefore Hsorted].
  apply heappop_Some in Hpop as [Hperm Hmin].
  assert (e ∈ heap s) as He by (rewrite Hperm; by left).
  destruct (dispatch_new_lines cfg (e_time e) (e_event e) (set_heap h' s))
    as (new & Hout & Hnew).
  simpl in Hout. rewrite Forall_forall in Hnew.
  assert (∀ x, x ∈ heap (dispatch cfg (e_time e) (e_event e) (set_heap h' s)) →
               e_time e ≤ e_time x) as Hheap.
  { intros x [Hx | [k Hx]]%dispatch_heap_cases; simpl in Hx.
    - assert (x ∈ heap s) as Hx' by (rewrite Hperm; by right).
      apply Hmin, entry_lt_false in Hx'. lia.
    - apply elem_of_new_entries in Hx as (edge & Hedge & -> & _ & _).
      apply (out_edges_nonneg cfg) in Hedge; [lia|done]. }
  unfold lines_before_pending, times_sorted. rewrite Hout. split.
  - intros l t x [Hl | Hl]%elem_of_app Ht Hx; apply Hheap in Hx.
    + pose proof (Hbefore l t e Hl Ht He). lia.
    + apply Hnew in Hl. assert (t = e_time e) by congruence. lia.
  - intros i j a b ta tb Hij Ha Hb Hta Htb.
    apply lookup_app_Some in Ha as [Ha | [Hi Ha]];
      apply lookup_app_Some in Hb as [Hb | [Hj Hb]].
    + by apply (Hsorted i j a b).
    + apply list_elem_of_lookup_2 in Ha, Hb. apply Hnew in Hb.
      pose proof (Hbefore a ta e Ha Hta He). assert (tb = e_time e) by congruence. lia.
    + apply lookup_lt_Some in Hb. lia.
    + apply list_elem_of_lookup_2 in Ha, Hb. apply Hnew in Ha, Hb.
      assert (ta = tb) by congruence. lia.
Qed.

Lemma time_order_invariant cfg n :
  delays_nonneg cfg →
  lines_before_pending (iterate cfg n (init_state cfg))
  ∧ times_sorted (out (iterate cfg n (init_state cfg))).
Proof.
  intros Hnn.
  apply (iterate_inv cfg (λ s, lines_before_pending s ∧ times_sorted (out s))).
  - intros s s' Hs Hstep. by apply (time_order_step cfg s s').
  - rewrite init_state_spec. split.
    + intros l t e Hl. by apply elem_of_nil in Hl.
    + intros i j a b ta tb _ Ha. simpl in Ha. by rewrite lookup_nil in Ha.
Qed.

(** X16: for a configuration without negative delays the transcript is in
    time order: the timestamps of its lines never decrease from one line to
    a later one, the terminal line included. *)
Theorem transcript_in_time_order cfg fuel tr i j a b ta tb :
  delays_nonneg cfg →
  _run_simulation fuel cfg = Some tr →
  (i ≤ j)%nat → tr !! i = Some a → tr !! j = Some b →
  timestamp a = Some ta → timestamp b = Some tb →
  ta ≤ tb.
Proof.
  intros Hnn (st & _ & -> & ->)%run_simulation_Some Hij Ha Hb Hta Htb.
  destruct (time_order_invariant cfg fuel Hnn) as [_ Hsorted].
  pose proof (body_lines_invariant cfg fuel) as Hbody. rewrite Forall_forall in Hbody.
  apply lookup_app_Some in Ha as [Ha | [Hi Ha]];
    apply lookup_app_Some in Hb as [Hb | [Hj Hb]].
  - by apply (Hsorted i j a b).
  - apply list_elem_of_lookup_2, Hbody, body_line_timestamp in Ha as (t & Ht & Hlt).
    apply list_elem_of_lookup_2, list_elem_of_singleton in Hb. subst b.
    assert (timestamp (line_end (cfg_length cfg)) = Some (cfg_length cfg)) as Hend
      by apply (timestamp_header _ " END").
    rewrite Hend in Htb. simplify_eq. lia.
  - apply lookup_lt_Some in Hb. lia.
  - apply list_elem_of_lookup_2, list_elem_of_singleton in Ha, Hb. subst a b.
    assert (ta = tb) by congruence. lia.
Qed.

Lemma transcript_in_time_order_witness :
  delays_nonneg same_time_cancels
  ∧ _run_simulation 5 same_time_cancels =
      Some [ "@0: #1 SENT CANCELLATION TO #2: x"; "@0: #1 SENT CANCELLATION TO #2: x";
             "@3: #2 RECEIVED CANCELLATION FROM #1: x";
             "@3: #2 RECEIVED CANCELLATION FROM #1: x"; "@100: END" ]%string
  ∧ 0 ≤ 3.
Proof.
  assert (_run_simulation 5 same_time_cancels =
      Some [ "@0: #1 SENT CANCELLATION TO #2: x"; "@0: #1 SENT CANCELLATION TO #2: x";
             "@3: #2 RECEIVED CANCELLATION FROM #1: x";
             "@3: #2 RECEIVED CANCELLATION FROM #1: x"; "@100: END" ]%string) as Hrun
    by (vm_compute; reflexivity).
  split_and!; [apply delays_nonneg_same_time_cancels | exact Hrun |].
  apply (transcript_in_time_order same_time_cancels 5 _ 1 2
           "@0: #1 SENT CANCELLATION TO #2: x" "@3: #2 RECEIVED CANCELLATION FROM #1: x" 0 3
           delays_nonneg_same_time_cancels Hrun); [lia | | | |]; vm_compute; reflexivity.
Defined.

(** With the negative delay of [negative_delay] the transcript is not in
    time order: the line of time 4 follows lines of times 5 and 6. *)
Example negative_delay_out_of_order :
  timestamp <$> [ "@5: #1 SENT CANCELLATION TO #2: m"; "@6: #3 SENT CANCELLATION TO #1: m";
                  "@4: #1 RECEIVED CANCELLATION FROM #3: m" ]%string
  = [ Some 5; Some 6; Some 4 ].
Proof. vm_compute. reflexivity. Qed.

Lemma alert_step cfg s s' :
  loop_body cfg s = Some s' →
  lines_before_pending s → alert_not_after_ledger s → alert_not_after_ledger s'.
Proof.
  intros (e & h' & Hpop & _ & ->)%loop_body_Some Hbefore Hinv.
  apply heappop_Some in Hpop as [Hperm _].
  assert (e ∈ heap s) as He by (rewrite Hperm; by left).
  set (t0 := e_time e). set (ev := e_event e).
  unfold alert_not_after_ledger. rewrite dispatch_eq. cbn zeta.
  cbn [heap seq out cancel_time set_heap].
  intros t dev to m p Hline Hled.
  assert (ledger_get (if is_cancel (kind ev)
                      then record_cancel (cancel_time s) (device ev) (desc ev) t0
                      else cancel_time s) dev m = Some p) as Hled'.
  { by destruct (cancelled_before (cancel_time s) (device ev) (desc ev) t0). }
  assert (line_sent_alert t dev to m ∈ out s
          ∨ (cancelled_before (cancel_time s) (device ev) (desc ev) t0 = false
             ∧ is_cancel (kind ev) = false ∧ t = t0 ∧ dev = device ev ∧ m = desc ev))
    as Hcase.
  { change (line_sent_alert t dev to m) with (sent_fmt false t dev to m) in *.
    destruct (cancelled_before (cancel_time s) (device ev) (desc ev) t0);
      cbn [out] in Hline; rewrite ?elem_of_app in Hline.
    - destruct Hline as [? | (c' & _ & Heq)%elem_of_recv_prefix]; [by left|].
      by apply sent_not_recv in Heq.
    - destruct Hline as [? | [(c' & _ & Heq)%elem_of_recv_prefix
                              | (e' & _ & Heq)%elem_of_sent_lines]]; [by left | |].
      + by apply sent_not_recv in Heq.
      + apply sent_fmt_inj in Heq as (Hc & -> & -> & _ & ->). by right. }
  clear Hline Hled. destruct Hcase as [Hold | (Hc & Hk & -> & -> & ->)].
  - assert (t ≤ t0) as Hle.
    { apply (Hbefore _ t e Hold); [|done].
      apply (sent_fmt_timestamp false). }
    destruct (is_cancel (kind ev)); [|by apply (Hinv t dev to m)].
    rewrite ledger_get_record in Hled'. case_decide as Hd; [|by apply (Hinv t dev to m)].
    destruct Hd as [-> ->].
    destruct (ledger_get (cancel_time s) (device ev) (desc ev)) as [q|] eqn:Hq;
      injection Hled' as <-; [|done].
    pose proof (Hinv t _ to _ q Hold Hq). lia.
  - rewrite Hk in Hled'. unfold cancelled_before in Hc. rewrite Hled' in Hc.
    apply bool_decide_eq_false in Hc. lia.
Qed.

(** X17: for a configuration without negative delays, a device that has
    forwarded the cancellation of a description at time [t] forwards no
    alert of that description at a later time: every SENT ALERT line of the
    device for the description has a timestamp of at most [t]. *)
Theorem no_alert_sent_after_cancellation cfg fuel tr dev m t to t' to' :
  delays_nonneg cfg →
  _run_simulation fuel cfg = Some tr →
  line_sent_cancel t dev to m ∈ tr →
  line_sent_alert t' dev to' m ∈ tr →
  t' ≤ t.
Proof.
  intros Hnn (st & _ & -> & ->)%run_simulation_Some Hc Ha.
  apply elem_of_app in Hc as [Hc | Hc%list_elem_of_singleton];
    [|by apply sent_cancel_not_end in Hc].
  apply elem_of_app in Ha as [Ha | Ha%list_elem_of_singleton].
  2: { change (line_sent_alert t' dev to' m) with (sent_fmt false t' dev to' m) in Ha.
       rewrite sent_fmt_generic in Ha. by apply generic_line_not_end in Ha. }
  destruct (flood_invariant cfg fuel Hnn) as [_ Hrec].
  assert (lines_before_pending (iterate cfg fuel (init_state cfg))
          ∧ times_sorted (out (iterate cfg fuel (init_state cfg)))
          ∧ alert_not_after_ledger (iterate cfg fuel (init_state cfg))) as (_ & _ & Hinv).
  { apply (iterate_inv cfg (λ s, lines_before_pending s ∧ times_sorted (out s)
                                  ∧ alert_not_after_ledger s)).
    - intros s s' (H1 & H2 & H3) Hstep.
      destruct (time_order_step cfg s s' Hnn Hstep (conj H1 H2)) as [H1' H2'].
      split_and!; [done | done |]. by apply (alert_step cfg s s').
    - destruct (time_order_invariant cfg 0 Hnn) as [H1 H2]. simpl in H1, H2.
      split_and!; [done | done |]. rewrite init_state_spec.
      intros t0 dev0 to0 m0 p Hl. by apply elem_of_nil in Hl. }
  apply (Hinv t' dev to' m t Ha). by apply (Hrec t dev to m).
Qed.

Lemma no_alert_sent_after_cancellation_witness :
  delays_nonneg scenario2
  ∧ _run_simulation 5 scenario2 =
      Some [ "@0: #1 SENT ALERT TO #2: fire"; "@1: #1 SENT CANCELLATION TO #2: fire";
             "@3: #2 RECEIVED ALERT FROM #1: fire";
             "@4: #2 RECEIVED CANCELLATION FROM #1: fire"; "@100: END" ]%string
  ∧ 0 ≤ 1.
Proof.
  assert (delays_nonneg scenario2) as Hnn by apply delays_nonneg_same_time_cancels.
  assert (_run_simulation 5 scenario2 =
      Some [ "@0: #1 SENT ALERT TO #2: fire"; "@1: #1 SENT CANCELLATION TO #2: fire";
             "@3: #2 RECEIVED ALERT FROM #1: fire";
             "@4: #2 RECEIVED CANCELLATION FROM #1: fire"; "@100: END" ]%string) as Hrun
    by (vm_compute; reflexivity).
  split_and!; [exact Hnn | exact Hrun |].
  apply (no_alert_sent_after_cancellation scenario2 5 _ 1 "fire" 1 2 0 2 Hnn Hrun).
  - apply (list_elem_of_lookup_2 _ 1%nat). vm_compute. reflexivity.
  - apply (list_elem_of_lookup_2 _ 0%nat). vm_compute. reflexivity.
Defined.

(* ===================================================================== *)
(** ** The engine: the horizon and the size of a run *)
(* ===================================================================== *)

(** X18: when no initial event lies before the horizon (in particular when
    there is no initial event), the first iteration leaves the loop and the
    transcript is the terminal line alone. *)
Theorem nothing_before_horizon cfg fuel :
  Forall (λ ev, cfg_length cfg ≤ time ev) (initial_events cfg) →
  _run_simulation (S fuel) cfg = Some [line_end (cfg_length cfg)].
Proof.
  intros Hlate. unfold _run_simulation. cbn [loop].
  assert (loop_body cfg (init_state cfg) = None) as ->.
  { unfold loop_body. destruct (heappop (heap (init_state cfg))) as [[e h']|] eqn:Hpop; [|done].
    apply heappop_Some in Hpop as [Hperm _].
    assert (e ∈ heap (init_state cfg)) as He by (rewrite Hperm; by left).
    rewrite init_state_spec in He. simpl in He.
    apply elem_of_initial_entries in He as (ev & Hev & _ & Ht).
    rewrite Forall_forall in Hlate. apply Hlate in Hev.
    rewrite bool_decide_eq_true_2; [done|lia]. }
  by rewrite init_state_spec.
Qed.

Lemma nothing_before_horizon_witness :
  _run_simulation 1 late_events = Some [line_end (cfg_length late_events)].
Proof.
  apply (nothing_before_horizon late_events 0).
  repeat constructor; simpl; lia.
Defined.

Lemma step_sizes cfg s s' :
  loop_body cfg s = Some s' →
  (seq s ≤ seq s' ≤ seq s + max_out_degree cfg)%nat
  ∧ (List.length (heap s') + seq s + 1 = List.length (heap s) + seq s')%nat
  ∧ (List.length (out s') ≤ List.length (out s) + S (max_out_degree cfg))%nat.
Proof.
  intros (e & h' & Hpop & _ & ->)%loop_body_Some.
  apply heappop_Some in Hpop as [Hperm _].
  apply Permutation_length in Hperm. simpl in Hperm.
  pose proof (out_degree_le cfg (device (e_event e))) as Hdeg.
  assert (List.length (recv_prefix (e_time e) (e_event e)) ≤ 1)%nat as Hpre.
  { unfold recv_prefix. destruct (kind (e_event e)); simpl; lia. }
  rewrite dispatch_eq. cbn zeta.
  destruct (cancelled_before _ _ _ _); cbn [heap seq out set_heap];
    rewrite ?length_app, ?new_entries_length; unfold sent_lines; rewrite ?length_fmap; lia.
Qed.

(** X19: the resources of a run are bounded by its length: after [n]
    iterations the counter has numbered at most the initial events plus [n]
    times the largest out-degree, the heap holds no more entries than were
    ever pushed, and at most [n * (1 + out-degree)] lines have been
    produced. *)
Theorem run_sizes_bounded cfg n :
  (seq (iterate cfg n (init_state cfg))
   ≤ List.length (initial_events cfg) + n * max_out_degree cfg)%nat
  ∧ (List.length (heap (iterate cfg n (init_state cfg)))
     ≤ seq (iterate cfg n (init_state cfg)))%nat
  ∧ (List.length (out (iterate cfg n (init_state cfg))) ≤ n * S (max_out_degree cfg))%nat.
Proof.
  assert (∀ st,
    (seq (iterate cfg n st) ≤ seq st + n * max_out_degree cfg)%nat
    ∧ (List.length (heap (iterate cfg n st)) + seq st
       ≤ List.length (heap st) + seq (iterate cfg n st))%nat
    ∧ (List.length (out (iterate cfg n st))
       ≤ List.length (out st) + n * S (max_out_degree cfg))%nat) as H.
  { induction n as [|n IH]; intros st; simpl; [lia|].
    destruct (loop_body cfg st) as [st'|] eqn:E; [|lia].
    apply step_sizes in E. specialize (IH st'). lia. }
  specialize (H (init_state cfg)).
  assert (seq (init_state cfg) = List.length (initial_events cfg)
          ∧ List.length (heap (init_state cfg)) = List.length (initial_events cfg)
          ∧ List.length (out (init_state cfg)) = 0%nat) as (Hs & Hh & Ho).
  { rewrite init_state_spec. simpl. split_and!; [done | | done].
    by rewrite <- (length_fmap e_seq), initial_entries_seqs, length_seq. }
  lia.
Qed.

(* ===================================================================== *)
(** ** The parser and [main]: more facts *)
(* ===================================================================== *)

Lemma parse_lines_app st l1 l2 :
  parse_lines st (l1 ++ l2) = bind (parse_lines st l1) (λ st', parse_lines st' l2).
Proof.
  revert st. induction l1 as [|raw l1 IH]; intros st; simpl; [done|].
  destruct (parse_line st raw); cbn [bind]; [done|]. apply IH.
Qed.

Lemma lstrip_spaces cs : forallb (char_in is_space) cs = true → lstrip cs = [].
Proof.
  induction cs as [|c r IH]; simpl; [done|].
  intros [Hc Hr]%andb_true_iff. rewrite Hc. by apply IH.
Qed.

(** A line of white space only, of any length and of any of the characters
    [str.isspace] knows, is one of the lines the parser skips. *)
Lemma blank_line_ignored raw :
  forallb (char_in is_space) (chars raw) = true → ignored_line raw = true.
Proof.
  intros H. unfold ignored_line, strip. by rewrite (lstrip_spaces _ H).
Qed.

(** X20: blank lines and lines that start with [#] are skipped wherever they
    stand: the parser returns, or raises, the same with and without such a
    line. *)
Theorem parser_skips_blank_and_comment l1 raw l2 :
  ignored_line raw = true →
  _parse_input_lines (l1 ++ raw :: l2) = _parse_input_lines (l1 ++ l2).
Proof.
  intros Hraw. unfold _parse_input_lines. rewrite !parse_lines_app.
  destruct (parse_lines _ l1) as [e|st]; cbn [bind]; [done|].
  simpl. unfold parse_line. unfold ignored_line in Hraw. by rewrite Hraw.
Qed.

Lemma parser_skips_blank_and_comment_witness :
  _parse_input_lines ([ "LENGTH 7"%string ]
                        ++ (nbsp +:+ "# DEVICE x" +:+ ideographic_space)
                        :: [ "ALERT 1 a 2"%string ])
  = _parse_input_lines ([ "LENGTH 7"%string ] ++ [ "ALERT 1 a 2"%string ]).
Proof.
  apply (parser_skips_blank_and_comment [ "LENGTH 7"%string ]
           (nbsp +:+ "# DEVICE x" +:+ ideographic_space) [ "ALERT 1 a 2"%string ]).
  vm_compute. reflexivity.
Defined.

(** Lines the parser skips, and lines it does not: U+FEFF, which a file may
    start with, is no white space, so a comment behind it is no comment. *)
Example ignored_lines :
  ignored_line <$> [ ""; "   "; "# c"; "  # c"; "#"; nbsp; ideographic_space +:+ nbsp;
                     String "009" (String "031" (String "012" EmptyString)) ]%string
    = [ true; true; true; true; true; true; true; true ]
  ∧ ignored_line <$> [ "x"; "x # c"; "LENGTH 5";
                       String "239" (String "187" (String "191" "# c")) ]%string
    = [ false; false; false; false ].
Proof. split; vm_compute; reflexivity. Qed.

Lemma parse_line_initial st raw st' (P : Event → Prop) :
  (∀ t dev d, P (mkEvent t RAISE_ALERT dev d None)) →
  (∀ t dev d, P (mkEvent t RAISE_CANCEL dev d None)) →
  parse_line st raw = inr st' → Forall P (p_initial st) → Forall P (p_initial st').
Proof.
  intros Ha Hc. unfold parse_line.
  destruct (String.eqb (strip raw) EmptyString || starts_with_hash (strip raw)).
  { by intros [= <-]. }
  destruct (part (split (strip raw)) 0) as [e|tag]; cbn [bind]; [done|].
  repeat (destruct (String.eqb tag _));
    bind_cases; try done; intros [= <-] Hall; simpl; try done;
    apply Forall_app; (split; [done|]); by repeat constructor.
Qed.

(** X21: the initial events of a parsed configuration are all raised by
    their devices: each has kind RAISE_ALERT or RAISE_CANCEL and no source. *)
Theorem parsed_events_are_originated lines cfg :
  _parse_input_lines lines = inr cfg →
  Forall (λ ev, originated ev ∧ src ev = None) (initial_events cfg).
Proof.
  unfold _parse_input_lines.
  destruct (parse_lines (mkParse None ∅ ∅ []) lines) as [e|st] eqn:E; cbn [bind]; [done|].
  destruct (p_length st); [|done]. intros [= <-]. simpl.
  assert (∀ ls s0 s1, parse_lines s0 ls = inr s1 →
            Forall (λ ev, originated ev ∧ src ev = None) (p_initial s0) →
            Forall (λ ev, originated ev ∧ src ev = None) (p_initial s1)) as H.
  { induction ls as [|raw ls IH]; intros s0 s1; simpl; [by intros [= <-]|].
    destruct (parse_line s0 raw) as [e|s'] eqn:E'; cbn [bind]; [done|].
    intros Hrest Hall. apply (IH _ _ Hrest).
    apply (parse_line_initial s0 raw s' _); [| | done | done]; intros; split; try done.
    - by left.
    - by right. }
  apply (H _ _ _ E). constructor.
Qed.

Lemma parsed_events_are_originated_witness :
  _parse_input_lines [ "LENGTH 100"; "PROPAGATE 1 2 3"; "ALERT 1 fire 0"; "CANCEL 1 fire 1" ]%string
    = inr scenario2
  ∧ Forall (λ ev, originated ev ∧ src ev = None) (initial_events scenario2).
Proof.
  assert (_parse_input_lines
            [ "LENGTH 100"; "PROPAGATE 1 2 3"; "ALERT 1 fire 0"; "CANCEL 1 fire 1" ]%string
          = inr scenario2) as H by (vm_compute; reflexivity).
  split; [exact H|].
  exact (parsed_events_are_originated _ _ H).
Defined.

Lemma parse_line_same_but_devices a b raw :
  same_but_devices a b →
  match parse_line a raw, parse_line b raw with
  | inl e, inl e' => e = e'
  | inr a', inr b' => same_but_devices a' b'
  | _, _ => False
  end.
Proof.
  destruct a as [la da pa ia], b as [lb db pb ib]. unfold same_but_devices. simpl.
  intros (-> & -> & ->). unfold parse_line. simpl.
  destruct (String.eqb (strip raw) EmptyString || starts_with_hash (strip raw)); [done|].
  destruct (part (split (strip raw)) 0) as [e|tag]; cbn [bind]; [done|].
  repeat (destruct (String.eqb tag _)); bind_cases; done.
Qed.

Lemma parse_lines_same_but_devices a b lines :
  same_but_devices a b →
  match parse_lines a lines, parse_lines b lines with
  | inl e, inl e' => e = e'
  | inr a', inr b' => same_but_devices a' b'
  | _, _ => False
  end.
Proof.
  revert a b. induction lines as [|raw rest IH]; intros a b Hab; simpl; [done|].
  pose proof (parse_line_same_but_devices a b raw Hab) as H.
  destruct (parse_line a raw) as [e|a'], (parse_line b raw) as [e'|b']; cbn [bind]; try done.
  by apply IH.
Qed.

Lemma parse_line_device st raw st' :
  line_tag raw = Some "DEVICE"%string → parse_line st raw = inr st' →
  same_but_devices st st'.
Proof.
  unfold line_tag, parse_line.
  destruct (String.eqb (strip raw) EmptyString || starts_with_hash (strip raw)); [done|].
  unfold part at 1. rewrite <- head_lookup. intros ->. cbn [bind]. simpl.
  bind_cases; [done | done |]. by intros [= <-].
Qed.

(** [setdefault] adds empty lists only: the edges of no device change. *)
Lemma set_fold_setdefault_edges (m : gmap Z (list (Z * Z))) (X : gset Z) d :
  default [] (set_fold setdefault_nil m X !! d) = default [] (m !! d).
Proof.
  apply (set_fold_ind_L (λ r _, default [] (r !! d) = default [] (m !! d))); [done|].
  intros x Y r _ IH. unfold setdefault_nil.
  destruct (r !! x) as [l|] eqn:Hx; [done|].
  destruct (decide (x = d)) as [->|Hne].
  - rewrite lookup_insert_eq. rewrite Hx in IH. done.
  - by rewrite lookup_insert_ne.
Qed.

(** The engine reads the topology through [out_edges] only. *)
Lemma run_same_engine_input cfg cfg' fuel :
  same_engine_input cfg cfg' → _run_simulation fuel cfg = _run_simulation fuel cfg'.
Proof.
  intros (Hlen & Hinit & Hedges).
  assert (∀ t ev st, dispatch cfg t ev st = dispatch cfg' t ev st) as Hd.
  { intros. rewrite !dispatch_eq. cbn zeta. by rewrite Hedges. }
  assert (∀ st, loop_body cfg st = loop_body cfg' st) as Hb.
  { intros st. unfold loop_body. destruct (heappop (heap st)) as [[e h']|]; [|done].
    by rewrite Hlen, Hd. }
  assert (∀ n st, loop cfg n st = loop cfg' n st) as Hl.
  { induction n as [|n IH]; intros st; simpl; [done|].
    rewrite Hb. destruct (loop_body cfg' st); [apply IH | done]. }
  unfold _run_simulation, init_state. by rewrite Hl, Hinit, Hlen.
Qed.

(** X22: DEVICE lines have no effect on the simulation: when a file
    parses, the file without one of its DEVICE lines parses too, to a
    configuration with the same horizon, initial events and outgoing edges,
    and the two configurations give the same transcript. *)
Theorem device_lines_do_not_matter l1 raw l2 cfg :
  line_tag raw = Some "DEVICE"%string →
  _parse_input_lines (l1 ++ raw :: l2) = inr cfg →
  ∃ cfg',
    _parse_input_lines (l1 ++ l2) = inr cfg'
    ∧ same_engine_input cfg cfg'
    ∧ ∀ fuel, _run_simulation fuel cfg = _run_simulation fuel cfg'.
Proof.
  intros Htag. unfold _parse_input_lines. rewrite !parse_lines_app.
  destruct (parse_lines _ l1) as [e|st1]; cbn [bind]; [done|]. simpl.
  destruct (parse_line st1 raw) as [e|st2] eqn:Hraw; cbn [bind]; [done|].
  apply (parse_line_device _ _ _ Htag) in Hraw.
  pose proof (parse_lines_same_but_devices st1 st2 l2 Hraw) as Hrest.
  destruct (parse_lines st2 l2) as [e|sf2]; cbn [bind]; [done|].
  destruct (parse_lines st1 l2) as [e|sf1]; [done|]. cbn [bind].
  destruct Hrest as (Hl & Hp & Hi). rewrite Hl.
  destruct (p_length sf2) as [len|]; [|done]. intros [= <-].
  assert (same_engine_input
            (mkConfig len (set_fold setdefault_nil (p_propagate sf2) (p_devices sf2))
               (p_initial sf2))
            (mkConfig len (set_fold setdefault_nil (p_propagate sf1) (p_devices sf1))
               (p_initial sf1))) as Hsame.
  { split_and!; [done | by simpl | ]. intros dev. unfold out_edges. simpl.
    by rewrite !set_fold_setdefault_edges, Hp. }
  eexists. split_and!; [done | done |]. intros fuel. by apply run_same_engine_input.
Qed.

Lemma device_lines_do_not_matter_witness :
  ∃ cfg',
    _parse_input_lines ([ "LENGTH 100"; "PROPAGATE 1 2 3" ]%string
                        ++ [ "ALERT 1 fire 0"; "CANCEL 1 fire 1" ]%string) = inr cfg'
    ∧ same_engine_input
        (mkConfig 100 {[ 1 := [(2, 3)]; 2 := [] ]}
           [ mkEvent 0 RAISE_ALERT 1 "fire" None; mkEvent 1 RAISE_CANCEL 1 "fire" None ]) cfg'
    ∧ ∀ fuel,
        _run_simulation fuel
          (mkConfig 100 {[ 1 := [(2, 3)]; 2 := [] ]}
             [ mkEvent 0 RAISE_ALERT 1 "fire" None; mkEvent 1 RAISE_CANCEL 1 "fire" None ])
        = _run_simulation fuel cfg'.
Proof.
  apply (device_lines_do_not_matter [ "LENGTH 100"; "PROPAGATE 1 2 3" ]%string
           "DEVICE 2"%string [ "ALERT 1 fire 0"; "CANCEL 1 fire 1" ]%string);
    vm_compute; reflexivity.
Defined.

Lemma transcript_starts_at fuel cfg tr :
  _run_simulation fuel cfg = Some tr → ∀ l, l ∈ tr → ∃ r, l = String "@" r.
Proof.
  intros (st & _ & -> & ->)%run_simulation_Some l [Hl | Hl%list_elem_of_singleton]%elem_of_app.
  - pose proof (body_lines_invariant cfg fuel) as Hall.
    rewrite Forall_forall in Hall. destruct (Hall l Hl) as (t & dev & r & -> & _).
    simpl. eauto.
  - subst l. unfold line_end. simpl. eauto.
Qed.

Lemma print_lines_spec w lines printed :
  ∃ k,
    stdout (print_lines w printed lines) = printed ++ take k lines
    ∧ (raised (print_lines w printed lines) = None →
       stdout (print_lines w printed lines) = printed ++ lines)
    ∧ (∀ e, raised (print_lines w printed lines) = Some e → ∃ name, e = FromPrint name).
Proof.
  revert printed. induction lines as [|l rest IH]; intros printed; simpl.
  - exists 0%nat. simpl. by rewrite app_nil_r.
  - destruct (w_print w printed l) as [name|].
    + exists 0%nat. simpl. rewrite app_nil_r. split_and!; [done | done |].
      intros e [= <-]. eauto.
    + destruct (IH (printed ++ [l])) as (k & Hk & Hnone & Hsome).
      exists (S k). split_and!; [| | done].
      * rewrite Hk, <- app_assoc. done.
      * intros Hr. by rewrite (Hnone Hr), <- app_assoc.
Qed.

(** X23: what [main] leaves behind tells its endings apart.  The single
    line FILE NOT FOUND is printed only when the file does not exist, and
    then no exception is raised.  When [main] ends with an exception that
    does not come from [print] ([input], [exists], [read_text], the decoding
    or the parser), nothing has been printed.  An exception of the parser
    means that the file was read and decoded and that its lines do not
    parse.  When the lines parse, what is printed is a prefix of the
    transcript of the parsed configuration, and all of it when no exception
    is raised. *)
Theorem main_outcomes fuel w r :
  main fuel w = Some r →
  (stdout r = [ "FILE NOT FOUND"%string ] →
     raised r = None ∧ ∃ path, w_input w = inr path ∧ w_exists w path = inr false)
  ∧ (∀ e, raised r = Some e → (∀ name, e ≠ FromPrint name) → stdout r = [])
  ∧ (∀ e, raised r = Some (FromParser e) →
       ∃ path data text,
         w_input w = inr path ∧ w_exists w path = inr true ∧ w_read w path = inr data
         ∧ read_text data = Some text ∧ _parse_input_lines (splitlines text) = inl e)
  ∧ (∀ path data text cfg,
       w_input w = inr path → w_exists w path = inr true → w_read w path = inr data →
       read_text data = Some text → _parse_input_lines (splitlines text) = inr cfg →
       ∃ tr, _run_simulation fuel cfg = Some tr
             ∧ stdout r `prefix_of` tr
             ∧ (raised r = None → stdout r = tr)).
Proof.
  unfold main, main_with.
  destruct (w_input w) as [name|path] eqn:Hin.
  { intros [= <-]. simpl. split_and!; try done. }
  destruct (w_exists w path) as [name|[|]] eqn:Hex.
  { intros [= <-]. simpl. split_and!; try done.
    intros path' data' text' cfg' [= <-]. by rewrite Hex. }
  - destruct (w_read w path) as [name|data] eqn:Hrd.
    { intros [= <-]. simpl. split_and!; try done.
      intros path' data' text' cfg' [= <-] _. by rewrite Hrd. }
    destruct (read_text data) as [text|] eqn:Htxt.
    2:{ intros [= <-]. simpl. split_and!; try done.
        intros path' data' text' cfg' [= <-] _. rewrite Hrd. intros [= <-]. by rewrite Htxt. }
    destruct (_parse_input_lines (splitlines text)) as [e|cfg] eqn:Hparse.
    { intros [= <-]. simpl. split_and!; try done.
      - intros e' [= <-]. by exists path, data, text.
      - intros path' data' text' cfg' [= <-] _. rewrite Hrd. intros [= <-].
        rewrite Htxt. intros [= <-]. by rewrite Hparse. }
    destruct (_run_simulation fuel cfg) as [tr|] eqn:Hrun; [|done].
    intros [= <-].
    destruct (print_lines_spec w tr []) as (k & Hk & Hnone & Hsome). simpl in Hk, Hnone.
    split_and!.
    + intros Hs. rewrite Hk in Hs.
      destruct tr as [|l tr'].
      { apply run_simulation_Some in Hrun as (st & _ & Heq & _).
        by destruct (out st). }
      destruct k as [|k]; [done|]. simpl in Hs. injection Hs as -> _.
      destruct (transcript_starts_at _ _ _ Hrun "FILE NOT FOUND"%string) as [r Hr];
        [left | discriminate].
    + intros e He Hne. destruct (Hsome e He) as [name ->]. by destruct (Hne name).
    + intros e He. by destruct (Hsome _ He).
    + intros path' data' text' cfg' [= <-] _. rewrite Hrd. intros [= <-].
      rewrite Htxt. intros [= <-]. rewrite Hparse. intros [= <-].
      exists tr. split_and!; [done | | done].
      rewrite Hk. apply prefix_take.
  - intros [= <-]. simpl. destruct (w_print w [] "FILE NOT FOUND"%string) as [name|]; simpl.
    + split_and!; try done.
      intros path' data' text' cfg' [= <-]. by rewrite Hex.
    + split_and!; try done.
      * intros _. split; [done|]. by exists path.
      * intros path' data' text' cfg' [= <-]. by rewrite Hex.
Qed.

Lemma main_outcomes_witness :
  (stdout (mkMain [ "@0: #1 SENT ALERT TO #2: a"%string ] (Some (FromPrint "BrokenPipeError")))
     = [ "FILE NOT FOUND"%string ] →
   raised (mkMain [ "@0: #1 SENT ALERT TO #2: a"%string ] (Some (FromPrint "BrokenPipeError")))
     = None
   ∧ ∃ path, w_input broken_pipe_world = inr path
             ∧ w_exists broken_pipe_world path = inr false)
  ∧ (∀ e, raised (mkMain [ "@0: #1 SENT ALERT TO #2: a"%string ]
                    (Some (FromPrint "BrokenPipeError"))) = Some e →
       (∀ name, e ≠ FromPrint name) →
       stdout (mkMain [ "@0: #1 SENT ALERT TO #2: a"%string ]
                 (Some (FromPrint "BrokenPipeError"))) = [])
  ∧ (∀ e, raised (mkMain [ "@0: #1 SENT ALERT TO #2: a"%string ]
                    (Some (FromPrint "BrokenPipeError"))) = Some (FromParser e) →
       ∃ path data text,
         w_input broken_pipe_world = inr path ∧ w_exists broken_pipe_world path = inr true
         ∧ w_read broken_pipe_world path = inr data
         ∧ read_text data = Some text ∧ _parse_input_lines (splitlines text) = inl e)
  ∧ (∀ path data text cfg,
       w_input broken_pipe_world = inr path → w_exists broken_pipe_world path = inr true →
       w_read broken_pipe_world path = inr data →
       read_text data = Some text → _parse_input_lines (splitlines text) = inr cfg →
       ∃ tr, _run_simulation 5 cfg = Some tr
             ∧ stdout (mkMain [ "@0: #1 SENT ALERT TO #2: a"%string ]
                         (Some (FromPrint "BrokenPipeError"))) `prefix_of` tr
             ∧ (raised (mkMain [ "@0: #1 SENT ALERT TO #2: a"%string ]
                          (Some (FromPrint "BrokenPipeError"))) = None →
                stdout (mkMain [ "@0: #1 SENT ALERT TO #2: a"%string ]
                          (Some (FromPrint "BrokenPipeError"))) = tr)).
Proof.
  apply (main_outcomes 5 broken_pipe_world). vm_compute. reflexivity.
Defined.

Lemma line_tag_Some raw tag :
  line_tag raw = Some tag →
  (String.eqb (strip raw) EmptyString || starts_with_hash (strip raw)) = false
  ∧ part (split (strip raw)) 0 = inr tag.
Proof.
  unfold line_tag.
  destruct (String.eqb (strip raw) EmptyString || starts_with_hash (strip raw)); [done|].
  rewrite head_lookup. unfold part. by intros ->.
Qed.

Lemma part_Some parts i p0 : parts !! i = Some p0 → part parts i = inr p0.
Proof. unfold part. by intros ->. Qed.

Lemma parse_line_propagate st raw a b c frm to delay :
  line_tag raw = Some "PROPAGATE"%string →
  split (strip raw) !! 1%nat = Some a → py_int a = inr frm →
  split (strip raw) !! 2%nat = Some b → py_int b = inr to →
  split (strip raw) !! 3%nat = Some c → py_int c = inr delay →
  parse_line st raw =
  inr (mkParse (p_length st) (p_devices st)
         (<[frm := default [] (p_propagate st !! frm) ++ [(to, delay)]]> (p_propagate st))
         (p_initial st)).
Proof.
  intros [Hig Htag]%line_tag_Some H1%part_Some Ha H2%part_Some Hb H3%part_Some Hc.
  unfold parse_line. rewrite Hig, Htag. cbn [bind]. simpl.
  by rewrite H1, H2, H3; cbn [bind]; rewrite Ha, Hb, Hc.
Qed.

Lemma parse_line_event st raw (cancel : bool) a d c dev t :
  line_tag raw = Some (if cancel then "CANCEL" else "ALERT")%string →
  split (strip raw) !! 1%nat = Some a → py_int a = inr dev →
  split (strip raw) !! 2%nat = Some d →
  split (strip raw) !! 3%nat = Some c → py_int c = inr t →
  parse_line st raw =
  inr (mkParse (p_length st) (p_devices st) (p_propagate st)
         (p_initial st
          ++ [mkEvent t (if cancel then RAISE_CANCEL else RAISE_ALERT) dev d None])).
Proof.
  intros [Hig Htag]%line_tag_Some H1%part_Some Ha H2%part_Some H3%part_Some Hc.
  unfold parse_line. rewrite Hig, Htag. cbn [bind].
  destruct cancel; simpl; by rewrite H1, H2, H3; cbn [bind]; rewrite Ha, Hc.
Qed.

Lemma parse_line_length st raw a n :
  line_tag raw = Some "LENGTH"%string →
  split (strip raw) !! 1%nat = Some a → py_int a = inr n →
  parse_line st raw = inr (mkParse (Some n) (p_devices st) (p_propagate st) (p_initial st)).
Proof.
  intros [Hig Htag]%line_tag_Some H1%part_Some Ha.
  unfold parse_line. rewrite Hig, Htag. cbn [bind]. simpl.
  by rewrite H1; cbn [bind]; rewrite Ha.
Qed.

Lemma parse_input_lines_snoc lines raw :
  _parse_input_lines (lines ++ [raw]) =
  bind (parse_lines (mkParse None ∅ ∅ []) lines) (λ st,
    bind (parse_line st raw) (λ st',
      match p_length st' with
      | None => inl ValueError_missing_length
      | Some len =>
          inr (mkConfig len (set_fold setdefault_nil (p_propagate st') (p_devices st'))
                 (p_initial st'))
      end)).
Proof.
  unfold _parse_input_lines. rewrite parse_lines_app.
  destruct (parse_lines _ lines) as [e|st]; cbn [bind]; [done|]. simpl.
  by destruct (parse_line st raw).
Qed.

Lemma parse_input_lines_inr lines cfg :
  _parse_input_lines lines = inr cfg →
  ∃ st, parse_lines (mkParse None ∅ ∅ []) lines = inr st
        ∧ p_length st = Some (cfg_length cfg)
        ∧ initial_events cfg = p_initial st
        ∧ propagate cfg = set_fold setdefault_nil (p_propagate st) (p_devices st).
Proof.
  unfold _parse_input_lines.
  destruct (parse_lines _ lines) as [e|st]; cbn [bind]; [done|].
  destruct (p_length st) as [len|] eqn:Hlen; [|done]. intros [= <-]. eauto.
Qed.

(** X24: a PROPAGATE line at the end of a file adds its edge behind the
    edges the source device has already, and changes nothing else: the
    outgoing edges of a device are in file order, repeated edges are kept. *)
Theorem propagate_line_appends_edge lines cfg raw a b c frm to delay :
  _parse_input_lines lines = inr cfg →
  line_tag raw = Some "PROPAGATE"%string →
  split (strip raw) !! 1%nat = Some a → py_int a = inr frm →
  split (strip raw) !! 2%nat = Some b → py_int b = inr to →
  split (strip raw) !! 3%nat = Some c → py_int c = inr delay →
  ∃ cfg',
    _parse_input_lines (lines ++ [raw]) = inr cfg'
    ∧ cfg_length cfg' = cfg_length cfg
    ∧ initial_events cfg' = initial_events cfg
    ∧ out_edges cfg' frm = out_edges cfg frm ++ [(to, delay)]
    ∧ ∀ dev, dev ≠ frm → out_edges cfg' dev = out_edges cfg dev.
Proof.
  intros (st & Hst & Hlen & Hinit & Hprop)%parse_input_lines_inr Htag H1 Ha H2 Hb H3 Hc.
  rewrite parse_input_lines_snoc, Hst. cbn [bind].
  rewrite (parse_line_propagate st raw a b c frm to delay) by done. cbn [bind]. simpl.
  rewrite Hlen. eexists. split; [done|]. simpl.
  unfold out_edges. simpl. rewrite Hprop, !set_fold_setdefault_edges.
  split_and!; [done | done | by rewrite lookup_insert_eq |].
  intros dev Hne. by rewrite !set_fold_setdefault_edges, lookup_insert_ne.
Qed.

Lemma propagate_line_appends_edge_witness :
  ∃ cfg',
    _parse_input_lines ([ "LENGTH 100"; "PROPAGATE 1 2 3" ]%string ++ [ "PROPAGATE 1 2 3"%string ])
      = inr cfg'
    ∧ cfg_length cfg' = cfg_length (mkConfig 100 {[ 1 := [(2, 3)] ]} [])
    ∧ initial_events cfg' = initial_events (mkConfig 100 {[ 1 := [(2, 3)] ]} [])
    ∧ out_edges cfg' 1 = out_edges (mkConfig 100 {[ 1 := [(2, 3)] ]} []) 1 ++ [(2, 3)]
    ∧ ∀ dev, dev ≠ 1 →
        out_edges cfg' dev = out_edges (mkConfig 100 {[ 1 := [(2, 3)] ]} []) dev.
Proof.
  apply (propagate_line_appends_edge [ "LENGTH 100"; "PROPAGATE 1 2 3" ]%string
           (mkConfig 100 {[ 1 := [(2, 3)] ]} []) "PROPAGATE 1 2 3"%string
           "1"%string "2"%string "3"%string 1 2 3);
    vm_compute; reflexivity.
Defined.

(** X25: an ALERT or CANCEL line at the end of a file adds its event behind
    the initial events read so far, with kind RAISE_ALERT or RAISE_CANCEL and
    no source, and changes nothing else: the initial events are in file
    order. *)
Theorem event_line_appends_event lines cfg raw (cancel : bool) a d c dev t :
  _parse_input_lines lines = inr cfg →
  line_tag raw = Some (if cancel then "CANCEL" else "ALERT")%string →
  split (strip raw) !! 1%nat = Some a → py_int a = inr dev →
  split (strip raw) !! 2%nat = Some d →
  split (strip raw) !! 3%nat = Some c → py_int c = inr t →
  _parse_input_lines (lines ++ [raw]) =
  inr (mkConfig (cfg_length cfg) (propagate cfg)
         (initial_events cfg
          ++ [mkEvent t (if cancel then RAISE_CANCEL else RAISE_ALERT) dev d None])).
Proof.
  intros (st & Hst & Hlen & Hinit & Hprop)%parse_input_lines_inr Htag H1 Ha H2 H3 Hc.
  rewrite parse_input_lines_snoc, Hst. cbn [bind].
  rewrite (parse_line_event st raw cancel a d c dev t) by done. cbn [bind]. simpl.
  by rewrite Hlen, Hinit, Hprop.
Qed.

Lemma event_line_appends_event_witness :
  _parse_input_lines ([ "LENGTH 100"; "PROPAGATE 1 2 3" ]%string ++ [ " CANCEL 1 fire 1 "%string ])
  = inr (mkConfig (cfg_length (mkConfig 100 {[ 1 := [(2, 3)] ]} []))
           (propagate (mkConfig 100 {[ 1 := [(2, 3)] ]} []))
           (initial_events (mkConfig 100 {[ 1 := [(2, 3)] ]} [])
            ++ [mkEvent 1 (if true then RAISE_CANCEL else RAISE_ALERT) 1 "fire" None])).
Proof.
  apply (event_line_appends_event [ "LENGTH 100"; "PROPAGATE 1 2 3" ]%string
           (mkConfig 100 {[ 1 := [(2, 3)] ]} []) " CANCEL 1 fire 1 "%string true
           "1"%string "fire"%string "1"%string 1 1);
    vm_compute; reflexivity.
Defined.

Lemma py_int_error s e : py_int s = inl e → e = ValueError_int s.
Proof.
  unfold py_int.
  match goal with |- match ?r with _ => _ end = _ → _ => destruct r end;
    [done | by intros [= <-]].
Qed.

Lemma part_error parts i e : part parts i = inl e → e = IndexError.
Proof. unfold part. destruct (parts !! i); [done | by intros [= <-]]. Qed.

(** The loop over the lines never raises "Missing LENGTH" itself. *)
Lemma parse_lines_not_missing st lines :
  parse_lines st lines ≠ inl ValueError_missing_length.
Proof.
  revert st. induction lines as [|raw rest IH]; intros st; simpl; [done|].
  destruct (parse_line st raw) as [e|st'] eqn:E; cbn [bind]; [|apply IH].
  intros [= ->]. revert E. unfold parse_line.
  destruct (String.eqb (strip raw) EmptyString || starts_with_hash (strip raw)); [done|].
  destruct (part (split (strip raw)) 0) as [e|tag] eqn:E0; cbn [bind];
    [by intros [= ->]; apply part_error in E0|].
  repeat (destruct (String.eqb tag _));
    repeat match goal with
           | |- context [bind ?m _] =>
               let E := fresh "E" in
               destruct m eqn:E; cbn [bind];
               [ first [apply py_int_error in E | apply part_error in E]; by intros [= ->] |]
           end; done.
Qed.

(** X26: the last LENGTH line wins: a LENGTH line at the end of a file,
    whether or not the file had one, sets the horizon and changes nothing
    else. *)
Theorem length_line_sets_horizon lines raw a n :
  line_tag raw = Some "LENGTH"%string →
  split (strip raw) !! 1%nat = Some a → py_int a = inr n →
  (∀ cfg, _parse_input_lines lines = inr cfg →
     _parse_input_lines (lines ++ [raw])
     = inr (mkConfig n (propagate cfg) (initial_events cfg)))
  ∧ (_parse_input_lines lines = inl ValueError_missing_length →
     ∃ cfg', _parse_input_lines (lines ++ [raw]) = inr cfg' ∧ cfg_length cfg' = n).
Proof.
  intros Htag H1 Ha. split.
  - intros cfg (st & Hst & Hlen & Hinit & Hprop)%parse_input_lines_inr.
    rewrite parse_input_lines_snoc, Hst. cbn [bind].
    rewrite (parse_line_length st raw a n) by done. cbn [bind]. simpl.
    by rewrite Hinit, Hprop.
  - rewrite parse_input_lines_snoc. unfold _parse_input_lines.
    destruct (parse_lines _ lines) as [e|st] eqn:Hst; cbn [bind].
    + intros [= ->]. by apply parse_lines_not_missing in Hst.
    + intros _. rewrite (parse_line_length st raw a n) by done. cbn [bind]. simpl. eauto.
Qed.

Lemma length_line_sets_horizon_witness :
  (∀ cfg, _parse_input_lines [ "LENGTH 100"; "ALERT 1 a 0" ]%string = inr cfg →
     _parse_input_lines ([ "LENGTH 100"; "ALERT 1 a 0" ]%string ++ [ "LENGTH 7"%string ])
     = inr (mkConfig 7 (propagate cfg) (initial_events cfg)))
  ∧ (_parse_input_lines [ "LENGTH 100"; "ALERT 1 a 0" ]%string
       = inl ValueError_missing_length →
     ∃ cfg', _parse_input_lines ([ "LENGTH 100"; "ALERT 1 a 0" ]%string
                                  ++ [ "LENGTH 7"%string ]) = inr cfg'
             ∧ cfg_length cfg' = 7).
Proof.
  apply (length_line_sets_horizon [ "LENGTH 100"; "ALERT 1 a 0" ]%string
           "LENGTH 7"%string "7"%string 7); vm_compute; reflexivity.
Defined.

Lemma parse_line_devices st raw st' :
  parse_line st raw = inr st' → p_devices st ⊆ p_devices st'.
Proof.
  unfold parse_line.
  destruct (String.eqb (strip raw) EmptyString || starts_with_hash (strip raw)).
  { by intros [= <-]. }
  destruct (part (split (strip raw)) 0) as [e|tag]; cbn [bind]; [done|].
  repeat (destruct (String.eqb tag _)); bind_cases; try done; intros [= <-]; simpl;
    set_solver.
Qed.

Lemma parse_line_device_declared st raw a n st' :
  line_tag raw = Some "DEVICE"%string →
  split (strip raw) !! 1%nat = Some a → py_int a = inr n →
  parse_line st raw = inr st' → n ∈ p_devices st'.
Proof.
  intros [Hig Htag]%line_tag_Some H1%part_Some Ha.
  unfold parse_line. rewrite Hig, Htag. cbn [bind]. simpl.
  rewrite H1; cbn [bind]; rewrite Ha; cbn [bind]. intros [= <-]. simpl. set_solver.
Qed.

Lemma set_fold_setdefault_keys (m : gmap Z (list (Z * Z))) (X : gset Z) :
  ∀ d, d ∈ X → is_Some (set_fold setdefault_nil m X !! d).
Proof.
  apply (set_fold_ind_L (λ r Y, ∀ d, d ∈ Y → is_Some (r !! d))); [set_solver|].
  intros x Y r _ IH d Hd. unfold setdefault_nil.
  destruct (r !! x) as [l|] eqn:Hx.
  - apply elem_of_union in Hd as [->%elem_of_singleton | Hd]; [by rewrite Hx | by apply IH].
  - destruct (decide (x = d)) as [->|Hne]; [by rewrite lookup_insert_eq|].
    rewrite lookup_insert_ne by done. apply IH. set_solver.
Qed.

(** X27: every device declared by a DEVICE line has an entry in the
    dictionary of the parsed configuration, with or without PROPAGATE lines
    of its own. *)
Theorem declared_device_has_entry lines cfg raw a n :
  _parse_input_lines lines = inr cfg →
  raw ∈ lines → line_tag raw = Some "DEVICE"%string →
  split (strip raw) !! 1%nat = Some a → py_int a = inr n →
  is_Some (propagate cfg !! n).
Proof.
  intros (st & Hst & _ & _ & ->)%parse_input_lines_inr Hraw Htag H1 Ha.
  apply set_fold_setdefault_keys.
  revert Hst Hraw. generalize (mkParse None ∅ ∅ []) as s0.
  induction lines as [|r rest IH]; intros s0 Hst Hraw; [by apply elem_of_nil in Hraw|].
  simpl in Hst. destruct (parse_line s0 r) as [e|s1] eqn:E; cbn [bind] in Hst; [done|].
  apply elem_of_cons in Hraw as [<- | Hraw]; [|by apply (IH s1)].
  apply (parse_line_device_declared s0 raw a n s1 Htag H1 Ha) in E.
  clear IH. revert s1 Hst E. induction rest as [|r rest IH]; intros s1 Hst Hn; simpl in Hst.
  - by injection Hst as <-.
  - destruct (parse_line s1 r) as [e|s2] eqn:E; cbn [bind] in Hst; [done|].
    apply (IH s2 Hst). by apply (parse_line_devices s1 r s2 E).
Qed.

Lemma declared_device_has_entry_witness :
  is_Some (propagate (mkConfig 9 {[ 4 := [] ]} []) !! 4).
Proof.
  apply (declared_device_has_entry [ "DEVICE 4"; "LENGTH 9" ]%string
           (mkConfig 9 {[ 4 := [] ]} []) "DEVICE 4"%string "4"%string 4).
  - vm_compute. reflexivity.
  - apply (list_elem_of_lookup_2 _ 0%nat). reflexivity.
  - vm_compute. reflexivity.
  - vm_compute. reflexivity.
  - vm_compute. reflexivity.
Defined.

(* ===================================================================== *)
(** ** The engine: edges and the ledger *)
(* ===================================================================== *)

(** X28: messages travel along the edges of the topology only: every SENT
    line of a transcript names a device and a destination that an edge of
    the configuration connects. *)
Theorem sent_along_edges cfg fuel tr c t s to m :
  _run_simulation fuel cfg = Some tr →
  sent_fmt c t s to m ∈ tr →
  ∃ delay, (to, delay) ∈ out_edges cfg s.
Proof.
  intros (st & _ & -> & ->)%run_simulation_Some Hsent.
  apply elem_of_app in Hsent as [Hsent | Hsent%list_elem_of_singleton].
  2: { rewrite sent_fmt_generic in Hsent. by apply generic_line_not_end in Hsent. }
  revert Hsent.
  apply (iterate_inv cfg (λ s0, sent_fmt c t s to m ∈ out s0 →
                                 ∃ delay, (to, delay) ∈ out_edges cfg s)).
  - intros s1 s2 IH (e & h' & _ & _ & ->)%loop_body_Some.
    rewrite dispatch_eq. cbn zeta. cbn [heap seq out cancel_time set_heap].
    destruct (cancelled_before _ _ _ _); cbn [out]; rewrite ?elem_of_app.
    + intros [? | (c' & _ & Heq)%elem_of_recv_prefix]; [by apply IH|].
      by apply sent_not_recv in Heq.
    + intros [? | [(c' & _ & Heq)%elem_of_recv_prefix
                   | ([to' delay] & Hedge & Heq)%elem_of_sent_lines]]; [by apply IH | |].
      * by apply sent_not_recv in Heq.
      * apply sent_fmt_inj in Heq as (_ & _ & -> & -> & _). by exists delay.
  - rewrite init_state_spec. simpl. by intros ?%elem_of_nil.
Qed.

Lemma sent_along_edges_witness :
  _run_simulation 5 scenario2 =
    Some [ "@0: #1 SENT ALERT TO #2: fire"; "@1: #1 SENT CANCELLATION TO #2: fire";
           "@3: #2 RECEIVED ALERT FROM #1: fire";
           "@4: #2 RECEIVED CANCELLATION FROM #1: fire"; "@100: END" ]%string
  ∧ ∃ delay, (2, delay) ∈ out_edges scenario2 1.
Proof.
  assert (_run_simulation 5 scenario2 =
    Some [ "@0: #1 SENT ALERT TO #2: fire"; "@1: #1 SENT CANCELLATION TO #2: fire";
           "@3: #2 RECEIVED ALERT FROM #1: fire";
           "@4: #2 RECEIVED CANCELLATION FROM #1: fire"; "@100: END" ]%string) as Hrun
    by (vm_compute; reflexivity).
  split; [exact Hrun|].
  apply (sent_along_edges scenario2 5 _ true 1 1 2 "fire" Hrun).
  apply (list_elem_of_lookup_2 _ 1%nat). vm_compute. reflexivity.
Defined.

(** X29: what the ledger stores does not depend on the order in which two
    cancellations are recorded, for the same or for different devices and
    descriptions, and recording the same cancellation twice is recording it
    once. *)
Theorem record_cancel_order_irrelevant ct dev1 d1 t1 dev2 d2 t2 dev d :
  ledger_get (record_cancel (record_cancel ct dev1 d1 t1) dev2 d2 t2) dev d
  = ledger_get (record_cancel (record_cancel ct dev2 d2 t2) dev1 d1 t1) dev d
  ∧ ledger_get (record_cancel (record_cancel ct dev1 d1 t1) dev1 d1 t1) dev d
    = ledger_get (record_cancel ct dev1 d1 t1) dev d.
Proof.
  rewrite !ledger_get_record. split.
  - repeat case_decide; try done; try (exfalso; naive_solver).
    + destruct (ledger_get ct dev1 d1) eqn:E1, (ledger_get ct dev2 d2) eqn:E2;
        repeat match goal with H : _ ∧ _ |- _ => destruct H end; simplify_eq;
        f_equal; lia.
  - repeat case_decide; try done; try (exfalso; naive_solver).
    destruct (ledger_get ct dev1 d1); f_equal; lia.
Qed.
